(** * purge_gmail: a shallow embedding of [src/purge_gmail.py]

    The program authenticates against a remote mail service, pages through
    the identifiers of the messages matching a filter, buffers them, and
    feeds the buffer in fixed-size batches to one of two remote mutations
    (move to trash, permanent deletion).

    The remote service is an interface ([GmailService]); the program is
    written in a small state-and-exception monad over a world made of the
    remote's state and the trace of everything the program did.  Python's
    [int] is [Z], [str] is [string], [Optional[str]] is [option string]. *)

From Stdlib Require Import String ZArith Bool Lia List.
Import ListNotations.
Open Scope Z_scope.

Set Implicit Arguments.

(** ** Python values *)

(** Truthiness of an [Optional[str]]: [None] and the empty string are falsy. *)
Definition truthy_str (o : option string) : bool :=
  match o with
  | Some s => negb (s =? "")%string
  | None => false
  end.

(** Truthiness of an [int]. *)
Definition truthy_int (z : Z) : bool := negb (z =? 0).

Definition len {A : Type} (l : list A) : Z := Z.of_nat (length l).

(** [seq[lo:hi]] for [0 <= lo <= hi]; Python clamps both ends to the list. *)
Definition slice {A : Type} (l : list A) (lo hi : Z) : list A :=
  firstn (Z.to_nat (hi - lo)) (skipn (Z.to_nat lo) l).

(** The indices [range(i, stop, step)] visits for [step > 0]; [fuel] bounds
    the number of indices and [Z.to_nat stop] is always enough. *)
Fixpoint range_from (fuel : nat) (i stop step : Z) : list Z :=
  match fuel with
  | O => []
  | S f => if i <? stop then i :: range_from f (i + step) stop step else []
  end.

(** [range(0, stop, step)]: a zero step raises [ValueError] (here [None]),
    a negative step gives the empty range. *)
Definition py_range (stop step : Z) : option (list Z) :=
  if step =? 0 then None
  else if step <? 0 then Some []
  else Some (range_from (Z.to_nat stop) 0 stop step).

(** ** Remote interface and events *)

(** One record of a listing page: a dict that may lack the key ["id"]. *)
Record message := Message { m_id : option string }.

(** A listing response: both keys may be absent. *)
Record response := Response {
  resp_messages : option (list message);
  resp_nextPageToken : option string
}.

(** [resp.get("messages", [])] *)
Definition get_messages (resp : response) : list message :=
  match resp_messages resp with
  | Some ms => ms
  | None => []
  end.

(** Python exceptions the program can see. *)
Inductive exn :=
| HttpError
| KeyboardInterrupt
| ValueError
| SystemExit (code : Z)
| OtherError.

(** Ways a remote call can fail. *)
Inductive fault := RemoteHttpError | RemoteInterrupt | RemoteOther.

(** What a failing Gmail API call raises. *)
Definition exn_of_fault (f : fault) : exn :=
  match f with
  | RemoteHttpError => HttpError
  | RemoteInterrupt => KeyboardInterrupt
  | RemoteOther => OtherError
  end.

(** What a failing step of [get_service] raises: the auth library and the
    client library have their own exception classes and a file that cannot
    be written raises [OSError]; none of them is [HttpError]. *)
Definition exn_of_auth_fault (f : fault) : exn :=
  match f with
  | RemoteInterrupt => KeyboardInterrupt
  | _ => OtherError
  end.

(** Lines the program prints. *)
Inductive output :=
| OutUsage
| OutHelp
| OutNeedTarget
| OutBadBatchSize
| OutTarget (all : bool) (query : option string)
| OutMode (mode : string) (dry_run : bool)
| OutBatch (batch_size max : Z) (include_spam_trash : bool)
| OutMissingCredentials
| OutDryRun (n : Z)
| OutProcessedSoFar (total : Z)
| OutDone (total : Z)
| OutTrashHint
| OutApiError
| OutInterrupted.

(** What the program talks to: the Gmail API, the OAuth steps, and the two
    local steps of [get_service] that can fail as well, the write of
    token.json and [build].  Every operation takes and returns the state of
    the environment; a call either fails with a [fault] or answers. *)
Class GmailService (R : Type) := {
  messages_list :
    string -> option string -> bool -> option string -> Z -> R ->
    (fault + response) * R;
  messages_batchModify :
    string -> list string -> list string -> list string -> R ->
    option fault * R;
  messages_batchDelete :
    string -> list string -> R -> option fault * R;
  oauth_refresh : R -> option fault * R;
  oauth_local_server : R -> option fault * R;
  token_write : R -> option fault * R;
  client_build : R -> option fault * R
}.

(** Everything observable the program does, in order. *)
Inductive event :=
| EvList (userId : string) (q : option string) (includeSpamTrash : bool)
         (pageToken : option string) (maxResults : Z)
         (reply : fault + response)
| EvBatchModify (userId : string) (ids addLabelIds removeLabelIds : list string)
| EvBatchDelete (userId : string) (ids : list string)
| EvYield (msg_id : string)
| EvSleep (ms : Z)
| EvPrint (line : output)
| EvRefresh
| EvLocalServer
| EvWriteToken
| EvBuild.

(** ** The monad *)

Inductive outcome (A : Type) :=
| Ret (a : A)
| Raise (e : exn)
| Diverge.

Arguments Raise {A} e.
Arguments Diverge {A}.

Section Program.

Variable R : Type.

Record world := World { remote : R; trace : list event }.

Definition M (A : Type) : Type := world -> outcome A * world.

Definition ret {A} (a : A) : M A := fun w => (Ret a, w).

Definition raise {A} (e : exn) : M A := fun w => (Raise e, w).

Definition diverge {A} : M A := fun w => (Diverge, w).

Definition bind {A B} (m : M A) (k : A -> M B) : M B :=
  fun w =>
    match m w with
    | (Ret a, w') => k a w'
    | (Raise e, w') => (Raise e, w')
    | (Diverge, w') => (Diverge, w')
    end.

Definition emit (e : event) : M unit :=
  fun w => (Ret tt, {| remote := remote w; trace := trace w ++ [e] |}).

Definition print (line : output) : M unit := emit (EvPrint line).

(** [try: m except ...: handler] *)
Definition try_except {A} (m : M A) (handler : exn -> option (M A)) : M A :=
  fun w =>
    match m w with
    | (Raise e, w') =>
        match handler e with
        | Some h => h w'
        | None => (Raise e, w')
        end
    | r => r
    end.

End Program.

Arguments diverge {R A}.

Declare Scope monad_scope.
Delimit Scope monad_scope with monad.
Notation "x <- m ;; k" := (bind m (fun x => k))
  (at level 61, m at next level, right associativity) : monad_scope.
Notation "m ;; k" := (bind m (fun _ => k))
  (at level 61, right associativity) : monad_scope.
Open Scope monad_scope.

(** ** The program *)

Definition USER_ID : string := "me"%string.
Definition MAX_RESULTS : Z := 500.
Definition FLUSH_THRESHOLD : Z := 5000.

(** The longest pause [time.sleep] takes, in milliseconds: CPython keeps
    the duration as a 64-bit count of nanoseconds and raises
    [OverflowError] beyond. *)
Definition SLEEP_MAX_MS : Z := 9223372036854.

(** What is on disk next to the script. *)
Record credentials := Credentials {
  creds_valid : bool;
  creds_expired : bool;
  creds_refresh_token : option string
}.

(** A file: not there, there but not in the format its reader expects, or
    read. *)
Inductive file (A : Type) :=
| Absent
| Malformed
| Stored (a : A).

Arguments Absent {A}.
Arguments Malformed {A}.

Record local_files := LocalFiles {
  token_json : file credentials;
  credentials_json : file unit
}.

(** The parsed command line ([argparse.Namespace]). *)
Record Args := {
  args_mode : string;
  args_query : option string;
  args_all : bool;
  args_dry_run : bool;
  args_batch_size : Z;
  args_max : Z;
  args_include_spam_trash : bool;
  args_sleep_ms : Z
}.

Section Code.

Context {R : Type} {service : GmailService R}.

(** *** Remote calls, with the event they leave in the trace *)

Definition call_list (query : option string) (include_spam_trash : bool)
    (page_token : option string) : M R response :=
  fun w =>
    let '(reply, r') :=
      messages_list USER_ID query include_spam_trash page_token MAX_RESULTS
        (remote w) in
    let w' := {| remote := r';
                 trace := trace w ++ [EvList USER_ID query include_spam_trash
                                        page_token MAX_RESULTS reply] |} in
    match reply with
    | inl f => (Raise (exn_of_fault f), w')
    | inr resp => (Ret resp, w')
    end.

Definition call_mutation (ev : event) (op : R -> option fault * R) : M R unit :=
  fun w =>
    let '(reply, r') := op (remote w) in
    let w' := {| remote := r'; trace := trace w ++ [ev] |} in
    match reply with
    | Some f => (Raise (exn_of_fault f), w')
    | None => (Ret tt, w')
    end.

Definition call_auth (ev : event) (op : R -> option fault * R) : M R unit :=
  fun w =>
    let '(reply, r') := op (remote w) in
    let w' := {| remote := r'; trace := trace w ++ [ev] |} in
    match reply with
    | Some f => (Raise (exn_of_auth_fault f), w')
    | None => (Ret tt, w')
    end.

(** [time.sleep(ms / 1000.0)]: a negative duration raises [ValueError],
    one that is too long [OverflowError]. *)
Definition sleep (ms : Z) : M R unit :=
  if ms <? 0 then raise ValueError
  else if SLEEP_MAX_MS <? ms then raise OtherError
  else emit (EvSleep ms).

(** *** get_service *)

(** [Credentials.from_authorized_user_file] and
    [InstalledAppFlow.from_client_secrets_file] raise [ValueError] on a
    file that is not in their format. *)
Definition get_service (files : local_files) : M R unit :=
  creds <- match token_json files with
           | Absent => ret None
           | Malformed => raise ValueError
           | Stored c => ret (Some c)
           end ;;
  (if match creds with
      | None => true
      | Some c => negb (creds_valid c)
      end
   then
     (if match creds with
         | None => false
         | Some c => creds_expired c && truthy_str (creds_refresh_token c)
         end
      then call_auth EvRefresh oauth_refresh
      else
        match credentials_json files with
        | Absent => print OutMissingCredentials ;; raise (SystemExit 1)
        | Malformed => raise ValueError
        | Stored _ => call_auth EvLocalServer oauth_local_server
        end) ;;
     call_auth EvWriteToken token_write
   else ret tt) ;;
  call_auth EvBuild client_build.

(** *** list_message_ids

    The generator is consumed by a [for] loop without [break]; it is
    embedded as the loop itself, taking the loop body [body] and the loop's
    state.  Each [yield] leaves [EvYield] in the trace and runs the body. *)

Inductive scan_result (S : Type) :=
| PageDone (total : Z) (s : S)   (* the [for] over the page ran out *)
| Returned (s : S).              (* [return] at the maximum *)

Arguments Returned {S} s.

Section Lister.

Variable S : Type.
Variable body : string -> S -> M R S.
Variable query : option string.
Variable include_spam_trash : bool.
Variable max_count : Z.

(** [for m in resp.get("messages", []): ...] *)
Fixpoint scan_page (msgs : list message) (total : Z) (s : S)
  : M R (scan_result S) :=
  match msgs with
  | [] => ret (PageDone total s)
  | m :: rest =>
      if truthy_int max_count && (total >=? max_count)
      then ret (Returned s)
      else
        match m_id m with
        | Some msg_id =>
            if truthy_str (Some msg_id)
            then emit (EvYield msg_id) ;;
                 s' <- body msg_id s ;;
                 scan_page rest (total + 1) s'
            else scan_page rest total s
        | None => scan_page rest total s
        end
  end.

(** [while True: ...]; one unit of fuel per page requested. *)
Fixpoint list_message_ids_loop (fuel : nat) (page_token : option string)
    (total : Z) (s : S) : M R S :=
  match fuel with
  | O => diverge
  | Datatypes.S fuel' =>
      resp <- call_list query include_spam_trash page_token ;;
      r <- scan_page (get_messages resp) total s ;;
      match r with
      | Returned s' => ret s'
      | PageDone total' s' =>
          let page_token' := resp_nextPageToken resp in
          if negb (truthy_str page_token')
          then ret s'
          else list_message_ids_loop fuel' page_token' total' s'
      end
  end.

Definition list_message_ids (fuel : nat) (s : S) : M R S :=
  list_message_ids_loop fuel None 0 s.

End Lister.

(** *** chunks *)

(** The list of groups the generator yields; [None] is the [ValueError]
    of [range] on a zero step. *)
Definition chunks {A : Type} (seq : list A) (size : Z)
  : option (list (list A)) :=
  match py_range (len seq) size with
  | None => None
  | Some idx => Some (map (fun i => slice seq i (i + size)) idx)
  end.

(** *** process_batch *)

Definition process_batch (ids : list string) (mode : string) : M R unit :=
  if (mode =? "trash")%string then
    call_mutation
      (EvBatchModify USER_ID ids ["TRASH"%string] [])
      (messages_batchModify USER_ID ids ["TRASH"%string] [])
  else if (mode =? "delete")%string then
    call_mutation
      (EvBatchDelete USER_ID ids)
      (messages_batchDelete USER_ID ids)
  else raise ValueError.

(** *** main

    [main] below is [main()] from line 116 on, on the options that
    [parser.parse_args()] returned; [purge_gmail] further down puts the
    parser in front. *)

Fixpoint for_each {A : Type} (xs : list A) (f : A -> M R unit) : M R unit :=
  match xs with
  | [] => ret tt
  | x :: xs' => f x ;; for_each xs' f
  end.

(** The dry-run / live branch that [main] runs on the buffer, at the
    threshold and once more after the listing. *)
Definition flush (args : Args) (buffered : list string) : M R unit :=
  if args_dry_run args
  then print (OutDryRun (len buffered))
  else
    match chunks buffered (args_batch_size args) with
    | None => raise ValueError
    | Some groups =>
        for_each groups (fun group =>
          process_batch group (args_mode args) ;;
          sleep (args_sleep_ms args))
    end.

(** The body of [for msg_id in list_message_ids(...)] on the loop state
    [(buffered, total)]. *)
Definition main_loop_body (args : Args) (msg_id : string)
    (st : list string * Z) : M R (list string * Z) :=
  let buffered := fst st ++ [msg_id] in
  let total := snd st + 1 in
  if len buffered >=? FLUSH_THRESHOLD
  then flush args buffered ;;
       print (OutProcessedSoFar total) ;;
       ret ([], total)
  else ret (buffered, total).

Definition main_handler (e : exn) : option (M R unit) :=
  match e with
  | HttpError => Some (print OutApiError ;; raise (SystemExit 1))
  | KeyboardInterrupt => Some (print OutInterrupted ;; raise (SystemExit 130))
  | _ => None
  end.

Definition main (fuel : nat) (args : Args) (files : local_files) : M R unit :=
  if negb (args_all args) && negb (truthy_str (args_query args))
  then print OutNeedTarget ;; raise (SystemExit 2)
  else if negb ((1 <=? args_batch_size args) && (args_batch_size args <=? 1000))
  then print OutBadBatchSize ;; raise (SystemExit 2)
  else
    print (OutTarget (args_all args)
             (if args_all args then None else args_query args)) ;;
    print (OutMode (args_mode args) (args_dry_run args)) ;;
    print (OutBatch (args_batch_size args) (args_max args)
             (args_include_spam_trash args)) ;;
    try_except
      (get_service files ;;
       let q := if args_all args then None else args_query args in
       st <- list_message_ids (main_loop_body args) q
               (args_include_spam_trash args) (args_max args) fuel ([], 0) ;;
       (if negb (len (fst st) =? 0)
        then flush args (fst st)
        else ret tt) ;;
       print (OutDone (snd st)) ;;
       if (args_mode args =? "trash")%string
       then print OutTrashHint
       else ret tt)
      main_handler.

(** What [parser.parse_args()] is given.  The parser is the library's; of
    a command line only what decides its three ways out is kept: it asks
    for help, it is one the parser refuses by itself (an option it does
    not know, a value that is missing, a value of [--batch-size], [--max]
    or [--sleep-ms] that is no integer), or it gives the options, the
    value of [--mode] as typed. *)
Inductive command_line :=
| AskHelp
| Unparsable
| Options (args : Args).

(** [--mode] has [choices=["trash", "delete"]]. *)
Definition MODE_CHOICES : list string := ["trash"; "delete"]%string.

Definition parse_args (cmd : command_line) : M R Args :=
  match cmd with
  | AskHelp => print OutHelp ;; raise (SystemExit 0)
  | Unparsable => print OutUsage ;; raise (SystemExit 2)
  | Options args =>
      if existsb (String.eqb (args_mode args)) MODE_CHOICES
      then ret args
      else print OutUsage ;; raise (SystemExit 2)
  end.

(** [main()] from its first line: the command line is parsed, then the
    rest of [main] runs on the options. *)
Definition purge_gmail (fuel : nat) (cmd : command_line)
    (files : local_files) : M R unit :=
  args <- parse_args cmd ;;
  main fuel args files.

(** The status the process ends with: [sys.exit(n)] gives [n], a normal
    return 0, any other uncaught exception the interpreter's 1; a run that
    is cut off by the fuel has none. *)
Definition exit_code (o : outcome unit) : option Z :=
  match o with
  | Ret _ => Some 0
  | Raise (SystemExit n) => Some n
  | Raise _ => Some 1
  | Diverge => None
  end.

(** [list(list_message_ids(...))]: the lister on its own, consumed by a
    loop that appends what is yielded to a list. *)
Definition collect (msg_id : string) (acc : list string)
  : M R (list string) :=
  ret (acc ++ [msg_id]).

Definition collect_ids (fuel : nat) (query : option string)
    (include_spam_trash : bool) (max_count : Z) : M R (list string) :=
  list_message_ids collect query include_spam_trash max_count fuel [].

End Code.

(** ** A scripted remote

    A concrete service for running the program: listing calls answer from
    a script of replies in order (an exhausted script answers with an empty
    last page), mutations from a second script (exhausted: success), and
    the steps of [get_service] always succeed. *)

Module Scripted.

Record state := State {
  list_script : list (fault + response);
  mutation_script : list (option fault)
}.

Definition next_list (s : state) : (fault + response) * state :=
  match list_script s with
  | [] => (inr (Response None None), s)
  | reply :: rest => (reply, State rest (mutation_script s))
  end.

Definition next_mutation (s : state) : option fault * state :=
  match mutation_script s with
  | [] => (None, s)
  | reply :: rest => (reply, State (list_script s) rest)
  end.

#[global] Instance scripted_service : GmailService state := {
  messages_list _ _ _ _ _ := next_list;
  messages_batchModify _ _ _ _ := next_mutation;
  messages_batchDelete _ _ := next_mutation;
  oauth_refresh s := (None, s);
  oauth_local_server s := (None, s);
  token_write s := (None, s);
  client_build s := (None, s)
}.

(** A page of records that all carry an identifier. *)
Definition page (ids : list string) (next : option string) : fault + response :=
  inr (Response (Some (map (fun i => Message (Some i)) ids)) next).

Definition start (pages : list (fault + response)) : world state :=
  World (State pages []) [].

End Scripted.

(** * Specification vocabulary *)

(** [ceil(n / b)] on integers, for [b > 0]. *)
Definition ceil_div (n b : Z) : Z := (n + b - 1) / b.

(** The groups of a list by structural recursion: cut [n] elements off the
    front until nothing is left.  [fuel] bounds the number of groups. *)
Fixpoint groups {A : Type} (fuel : nat) (l : list A) (n : nat)
  : list (list A) :=
  match fuel with
  | O => []
  | S f =>
      match l with
      | [] => []
      | _ :: _ => firstn n l :: groups f (skipn n l) n
      end
  end.

(** The batches [chunks] yields, as a plain list (none when it raises). *)
Definition batches {A : Type} (seq : list A) (size : Z) : list (list A) :=
  match chunks seq size with
  | Some gs => gs
  | None => []
  end.

(** ** Reading a trace *)

(** The batch of a mutating call. *)
Definition mutation_ids (e : event) : option (list string) :=
  match e with
  | EvBatchModify _ ids _ _ => Some ids
  | EvBatchDelete _ ids => Some ids
  | _ => None
  end.

(** The batches passed to the mutating operations, in order. *)
Fixpoint mutations (tr : list event) : list (list string) :=
  match tr with
  | [] => []
  | e :: tr' =>
      match mutation_ids e with
      | Some ids => ids :: mutations tr'
      | None => mutations tr'
      end
  end.

(** The identifiers the lister yielded, in order. *)
Fixpoint yields (tr : list event) : list string :=
  match tr with
  | [] => []
  | EvYield i :: tr' => i :: yields tr'
  | _ :: tr' => yields tr'
  end.

(** The replies to the listing calls, in order. *)
Fixpoint replies (tr : list event) : list (fault + response) :=
  match tr with
  | [] => []
  | EvList _ _ _ _ _ reply :: tr' => reply :: replies tr'
  | _ :: tr' => replies tr'
  end.

(** The totals of the final report ("Done. Matched messages: n."). *)
Fixpoint reported (tr : list event) : list Z :=
  match tr with
  | [] => []
  | EvPrint (OutDone n) :: tr' => n :: reported tr'
  | _ :: tr' => reported tr'
  end.

(** ** A logic of appended events *)

(** [spec m Q]: from any world, [m] only appends to the trace, and its
    outcome and the events it appended satisfy [Q]. *)
Definition spec {R A : Type} (m : M R A)
    (Q : outcome A -> list event -> Prop) : Prop :=
  forall w, exists evs,
    trace (snd (m w)) = trace w ++ evs /\ Q (fst (m w)) evs.

(** What [bind] asks of its first part, for the whole to satisfy [Q]. *)
Definition then_spec {R A B : Type} (k : A -> M R B)
    (Q : outcome B -> list event -> Prop) (o : outcome A) (evs : list event)
  : Prop :=
  match o with
  | Ret a => spec (k a) (fun o' evs' => Q o' (evs ++ evs'))
  | Raise e => Q (Raise e) evs
  | Diverge => Q Diverge evs
  end.

(** The same for [try_except]. *)
Definition except_spec {R A : Type} (handler : exn -> option (M R A))
    (Q : outcome A -> list event -> Prop) (o : outcome A) (evs : list event)
  : Prop :=
  match o with
  | Raise e =>
      match handler e with
      | Some h => spec h (fun o' evs' => Q o' (evs ++ evs'))
      | None => Q (Raise e) evs
      end
  | _ => Q o evs
  end.

(** Every event [m] appends satisfies [P], whatever the outcome. *)
Definition emits {R A : Type} (P : event -> Prop) (m : M R A) : Prop :=
  spec m (fun _ evs => Forall P evs).

(** What [main] may do under [args]: report an argument error only on
    that error, list with the effective filter, mutate only in a live
    run, in the mode's own call, with a non-empty batch of at most the
    batch size. *)
Definition main_event_ok (args : Args) (e : event) : Prop :=
  match e with
  | EvList u q inc _ mr _ =>
      u = USER_ID
      /\ q = (if args_all args then None else args_query args)
      /\ inc = args_include_spam_trash args
      /\ mr = MAX_RESULTS
  | EvBatchModify u ids add rem =>
      args_dry_run args = false /\ args_mode args = "trash"%string
      /\ u = USER_ID /\ add = ["TRASH"%string] /\ rem = []
      /\ ids <> [] /\ len ids <= args_batch_size args <= 1000
  | EvBatchDelete u ids =>
      args_dry_run args = false /\ args_mode args = "delete"%string
      /\ u = USER_ID
      /\ ids <> [] /\ len ids <= args_batch_size args <= 1000
  | EvSleep ms => args_dry_run args = false /\ ms = args_sleep_ms args
  | EvPrint OutNeedTarget =>
      args_all args = false /\ truthy_str (args_query args) = false
  | EvPrint OutBadBatchSize => ~ 1 <= args_batch_size args <= 1000
  | EvPrint (OutDryRun _) => args_dry_run args = true
  | _ => True
  end.

(** ** Runs *)

(** A run from a fresh trace: the outcome and everything that happened. *)
Definition run {R A : Type} (m : M R A) (r : R) : outcome A * list event :=
  (fst (m (World r [])), trace (snd (m (World r [])))).

(** Calls that leave the machine.  [build] constructs the client from the
    discovery document bundled with the library and is local. *)
Definition remote_call (e : event) : bool :=
  match e with
  | EvList _ _ _ _ _ _ | EvBatchModify _ _ _ _ | EvBatchDelete _ _
  | EvRefresh | EvLocalServer => true
  | _ => false
  end.

(** The same command line with another [--query]. *)
Definition with_query (args : Args) (q : option string) : Args :=
  {| args_mode := args_mode args;
     args_query := q;
     args_all := args_all args;
     args_dry_run := args_dry_run args;
     args_batch_size := args_batch_size args;
     args_max := args_max args;
     args_include_spam_trash := args_include_spam_trash args;
     args_sleep_ms := args_sleep_ms args |}.

(** The stored token cannot be used: there is none, or it is invalid and
    cannot be refreshed. *)
Definition no_usable_token (files : local_files) : bool :=
  match token_json files with
  | Absent => true
  | Malformed => false
  | Stored c =>
      negb (creds_valid c)
      && negb (creds_expired c && truthy_str (creds_refresh_token c))
  end.

(** The command line passes [main]'s two checks. *)
Definition args_accepted (args : Args) : bool :=
  (args_all args || truthy_str (args_query args))
  && (1 <=? args_batch_size args) && (args_batch_size args <=? 1000).

(** The reading of "a missing client-credential file exits with code 1
    before any remote call" that puts no condition on the stored token. *)
Definition missing_credentials_exit {R : Type} {service : GmailService R}
    (fuel : nat) (args : Args) (files : local_files) (r : R) : Prop :=
  credentials_json files = Absent ->
  exit_code (fst (run (main fuel args files) r)) = Some 1
  /\ existsb remote_call (snd (run (main fuel args files) r)) = false.

(** Concrete inputs for the examples below. *)
Module Sample.

Definition args (mode : string) (all dry_run : bool) (batch_size max : Z)
  : Args :=
  {| args_mode := mode;
     args_query := Some "older_than:1y"%string;
     args_all := all;
     args_dry_run := dry_run;
     args_batch_size := batch_size;
     args_max := max;
     args_include_spam_trash := false;
     args_sleep_ms := 250 |}.

(** A valid token.json and no credentials.json. *)
Definition token_only : local_files :=
  LocalFiles (Stored (Credentials true false None)) Absent.

(** Neither file. *)
Definition no_files : local_files := LocalFiles Absent Absent.

(** Two pages, of three identifiers and of one. *)
Definition two_pages : Scripted.state :=
  Scripted.State
    [Scripted.page ["a"; "b"; "c"]%string (Some "t"%string);
     Scripted.page ["d"]%string None] [].

(** One identifier on a first page that has a continuation token. *)
Definition page_boundary : Scripted.state :=
  Scripted.State
    [Scripted.page ["a"]%string (Some "t"%string);
     Scripted.page ["b"]%string None] [].

(** A first page, then a failing list call. *)
Definition second_page_error : Scripted.state :=
  Scripted.State
    [Scripted.page ["a"; "b"; "c"]%string (Some "t"%string);
     inl RemoteHttpError] [].

(** 5001 identifiers on one page and one more on a second page: the
    buffer reaches the flush threshold inside the first page. *)
Definition over_threshold : Scripted.state :=
  Scripted.State
    [Scripted.page (repeat "m"%string (Z.to_nat 5001)) (Some "t"%string);
     Scripted.page ["n"]%string None] [].

(** A page with a record without identifier and one with an empty
    identifier among three good ones, then a second page. *)
Definition ragged_pages : Scripted.state :=
  Scripted.State
    [inr (Response
            (Some [Message (Some "a"%string); Message None;
                   Message (Some "b"%string); Message (Some ""%string);
                   Message (Some "c"%string)])
            (Some "t"%string));
     Scripted.page ["d"; "e"]%string None] [].


(** An expired token.json that can be refreshed, and no credentials.json. *)
Definition expired_token : local_files :=
  LocalFiles (Stored (Credentials false true (Some "r"%string))) Absent.

End Sample.

(** ** Pages *)

(** The identifiers of the records of a page that carry a non-empty one,
    in order. *)
Definition ids_of (msgs : list message) : list string :=
  flat_map (fun m =>
              match m_id m with
              | Some i => if truthy_str (Some i) then [i] else []
              | None => []
              end) msgs.

Definition page_ids (reply : fault + response) : list string :=
  match reply with
  | inr resp => ids_of (get_messages resp)
  | inl _ => []
  end.

(** With [total] identifiers counted so far, the lister meets, in the
    page [msgs], a record when the maximum is already reached. *)
Definition max_hit (max_count total : Z) (msgs : list message) : Prop :=
  max_count <> 0
  /\ exists a m b,
       msgs = a ++ m :: b /\ max_count <= total + len (ids_of a).

(** The reply ends the listing: the call failed, or the page carries no
    continuation token, or the maximum is met inside the page. *)
Definition page_ends_listing (max_count total : Z)
    (reply : fault + response) : Prop :=
  match reply with
  | inl _ => True
  | inr resp =>
      truthy_str (resp_nextPageToken resp) = false
      \/ max_hit max_count total (get_messages resp)
  end.

(** The reading of "stops requesting pages as soon as the maximum count
    has been reached": once that many identifiers were yielded, no
    listing call follows. *)
Definition stops_at_max (max_count : Z) (tr : list event) : Prop :=
  forall pre post,
    tr = pre ++ post -> 0 < max_count -> max_count <= len (yields pre) ->
    replies post = [].

(** Events that are neither a listing call nor a yield. *)
Definition off_lister (e : event) : Prop :=
  replies [e] = [] /\ yields [e] = [].


(** ** Invariants of the driver *)

(** Events that are neither a yield nor a mutation nor the final report. *)
Definition quiet (e : event) : Prop :=
  mutation_ids e = None /\ yields [e] = [] /\ reported [e] = [].

(** The events of [get_service]. *)
Definition auth_event (e : event) : Prop :=
  match e with
  | EvPrint OutMissingCredentials
  | EvRefresh | EvLocalServer | EvWriteToken | EvBuild => True
  | _ => False
  end.

(** Between two flushes of a live run: what was yielded is the flushed
    buffers, each of threshold length, followed by the current buffer,
    which is below the threshold; every flushed buffer went through the
    Batcher, one call per batch; the loop's total is the number yielded;
    nothing was reported yet. *)
Definition buffering (args : Args) (st : list string * Z)
    (evs : list event) : Prop :=
  exists full,
    Forall (fun b => len b = FLUSH_THRESHOLD) full
    /\ len (fst st) < FLUSH_THRESHOLD
    /\ yields evs = concat full ++ fst st
    /\ mutations evs
       = flat_map (fun b => batches b (args_batch_size args)) full
    /\ reported evs = []
    /\ snd st = len (yields evs).

(** At any point of a live run: as above, with the first [k] batches of
    the current buffer mutated as well; [whole] says they are all of
    them. *)
Definition flushing (args : Args) (whole : bool) (evs : list event) : Prop :=
  exists full buffered k,
    Forall (fun b => len b = FLUSH_THRESHOLD) full
    /\ len buffered <= FLUSH_THRESHOLD
    /\ yields evs = concat full ++ buffered
    /\ mutations evs
       = flat_map (fun b => batches b (args_batch_size args)) full
         ++ firstn k (batches buffered (args_batch_size args))
    /\ (whole = true ->
        firstn k (batches buffered (args_batch_size args))
        = batches buffered (args_batch_size args)).

(** What a live run of [main] has done when it ends with outcome [o]. *)
Definition live_post (args : Args) (o : outcome unit) (evs : list event)
  : Prop :=
  match o with
  | Ret _ => flushing args true evs /\ reported evs = [len (yields evs)]
  | _ => flushing args false evs
  end.

(** ** Further vocabulary *)

(** The yields the maximum allows: all of them when it is 0, else the
    first [max_count] (none when it is negative). *)
Definition capped (max_count : Z) (ids : list string) : list string :=
  if max_count =? 0 then ids else firstn (Z.to_nat max_count) ids.

(** The three lines [main] prints before it authenticates. *)
Definition banner (args : Args) : list event :=
  [EvPrint (OutTarget (args_all args)
              (if args_all args then None else args_query args));
   EvPrint (OutMode (args_mode args) (args_dry_run args));
   EvPrint (OutBatch (args_batch_size args) (args_max args)
              (args_include_spam_trash args))].

(** The statements of [main] after the [for] loop, on the loop's final
    state: the last flush, the report, the guidance. *)
Definition after_loop {R : Type} {service : GmailService R}
    (args : Args) (st : list string * Z) : M R unit :=
  (if negb (len (fst st) =? 0)
   then flush args (fst st)
   else ret tt) ;;
  print (OutDone (snd st)) ;;
  if (args_mode args =? "trash")%string
  then print OutTrashHint
  else ret tt.

(** How a computation was left, for a predicate on abnormal ends:
    [Some e] by the exception [e], [None] cut off by the fuel. *)
Definition left_by {A : Type} (E : option exn -> list event -> Prop)
    (o : outcome A) (evs : list event) : Prop :=
  match o with
  | Ret _ => True
  | Raise e => E (Some e) evs
  | Diverge => E None evs
  end.

(** The mutating call [process_batch] makes in an accepted mode. *)
Definition mutation_call (mode : string) (ids : list string) : event :=
  if (mode =? "trash")%string
  then EvBatchModify USER_ID ids ["TRASH"%string] []
  else EvBatchDelete USER_ID ids.

Definition mode_accepted (mode : string) : Prop :=
  mode = "trash"%string \/ mode = "delete"%string.

(** The events of one batch that went through: the call and the pause. *)
Definition batch_events (args : Args) (ids : list string) : list event :=
  [mutation_call (args_mode args) ids; EvSleep (args_sleep_ms args)].

(** What the loop over the batches [gs] does and how it ends: the batches
    [done] went through, each with its call and its pause; the run either
    finished them all, or stopped at the next one before its call (a mode
    that [process_batch] refuses) or right after its call (the call
    failed, or the pause was refused). *)
Definition batches_trace (args : Args) (gs : list (list string))
    (o : outcome unit) (evs : list event) : Prop :=
  exists done rest,
    gs = done ++ rest
    /\ (done = []
        \/ (mode_accepted (args_mode args) /\ 0 <= args_sleep_ms args))
    /\ match o with
       | Ret _ => rest = [] /\ evs = flat_map (batch_events args) done
       | Raise e =>
           (rest <> [] /\ ~ mode_accepted (args_mode args)
            /\ e = ValueError /\ evs = flat_map (batch_events args) done)
           \/ (exists g rest',
                 rest = g :: rest' /\ mode_accepted (args_mode args)
                 /\ evs = flat_map (batch_events args) done
                          ++ [mutation_call (args_mode args) g]
                 /\ ((exists f, e = exn_of_fault f)
                     \/ (e = ValueError /\ args_sleep_ms args < 0)))
       | Diverge => False
       end.

(** What [flush] does on the buffer and how it ends. *)
Definition flush_trace (args : Args) (buffered : list string)
    (o : outcome unit) (evs : list event) : Prop :=
  if args_dry_run args
  then o = Ret tt /\ evs = [EvPrint (OutDryRun (len buffered))]
  else
    match chunks buffered (args_batch_size args) with
    | None => o = Raise ValueError /\ evs = []
    | Some gs => batches_trace args gs o evs
    end.

(** What one pass of [main]'s loop body does on the state [st] with the
    identifier [i], and how it ends. *)
Definition body_trace (args : Args) (i : string) (st : list string * Z)
    (o : outcome (list string * Z)) (evs : list event) : Prop :=
  if len (fst st ++ [i]) >=? FLUSH_THRESHOLD
  then
    exists o_flush evs_flush,
      flush_trace args (fst st ++ [i]) o_flush evs_flush
      /\ match o_flush with
         | Ret _ =>
             o = Ret ([], snd st + 1)
             /\ evs = evs_flush ++ [EvPrint (OutProcessedSoFar (snd st + 1))]
         | Raise e => o = Raise e /\ evs = evs_flush
         | Diverge => False
         end
  else o = Ret (fst st ++ [i], snd st + 1) /\ evs = [].

(** What [main] does after the loop on the final state [st]. *)
Definition after_trace (args : Args) (st : list string * Z)
    (o : outcome unit) (evs : list event) : Prop :=
  exists o_flush evs_flush,
    (if negb (len (fst st) =? 0)
     then flush_trace args (fst st) o_flush evs_flush
     else o_flush = Ret tt /\ evs_flush = [])
    /\ match o_flush with
       | Ret _ =>
           o = Ret tt
           /\ evs = evs_flush
                    ++ EvPrint (OutDone (snd st))
                       :: (if (args_mode args =? "trash")%string
                           then [EvPrint OutTrashHint]
                           else [])
       | Raise e => o = Raise e /\ evs = evs_flush
       | Diverge => False
       end.

(** The exceptions [main] lets through or raises under [args]: never
    [HttpError] or [KeyboardInterrupt]; [SystemExit 2] exactly for a
    command line it does not accept, [SystemExit 1] and [SystemExit 130]
    only for one it accepts. *)
Definition main_may_raise (args : Args) (e : exn) : Prop :=
  match e with
  | HttpError | KeyboardInterrupt => False
  | SystemExit n =>
      (n = 2 /\ args_accepted args = false)
      \/ ((n = 1 \/ n = 130) /\ args_accepted args = true)
  | ValueError | OtherError => args_accepted args = true
  end.

(** The exceptions that can leave [main]'s [try] block. *)
Definition try_may_raise (e : exn) : Prop :=
  match e with
  | SystemExit n => n = 1
  | _ => True
  end.

(** ** More readings of a trace *)

(** The listing calls, each with the page token it passed and the reply
    it got. *)
Fixpoint list_calls (tr : list event)
  : list (option string * (fault + response)) :=
  match tr with
  | [] => []
  | EvList _ _ _ tok _ reply :: tr' => (tok, reply) :: list_calls tr'
  | _ :: tr' => list_calls tr'
  end.

(** The listing calls follow one another as pages do: the first passes
    [tok]; a call is followed by another only if it answered with a
    non-empty continuation token, and the next call passes that token. *)
Fixpoint chained (tok : option string)
    (calls : list (option string * (fault + response))) : Prop :=
  match calls with
  | [] => True
  | (t, reply) :: rest =>
      t = tok
      /\ match rest with
         | [] => True
         | _ :: _ =>
             match reply with
             | inr resp =>
                 truthy_str (resp_nextPageToken resp) = true
                 /\ chained (resp_nextPageToken resp) rest
             | inl _ => False
             end
         end
  end.

(** The first listing call that failed, with what happened after it. *)
Fixpoint after_failed_list (tr : list event) : option (fault * list event) :=
  match tr with
  | [] => None
  | EvList _ _ _ _ _ (inl f) :: tr' => Some (f, tr')
  | _ :: tr' => after_failed_list tr'
  end.

(** The counts of the dry-run lines ("would process n messages"). *)
Fixpoint would_process (tr : list event) : list Z :=
  match tr with
  | [] => []
  | EvPrint (OutDryRun n) :: tr' => n :: would_process tr'
  | _ :: tr' => would_process tr'
  end.

(** The pauses, in milliseconds. *)
Fixpoint sleeps (tr : list event) : list Z :=
  match tr with
  | [] => []
  | EvSleep ms :: tr' => ms :: sleeps tr'
  | _ :: tr' => sleeps tr'
  end.

(** Was the guidance about the Trash printed. *)
Definition is_hint (e : event) : bool :=
  match e with
  | EvPrint OutTrashHint => true
  | _ => false
  end.

Definition hinted (tr : list event) : bool := existsb is_hint tr.

Definition sum (l : list Z) : Z := fold_right Z.add 0 l.

(** The events of [main]'s loop body: the mutating calls and pauses of a
    flush or its dry-run line, and the progress line. *)
Definition loop_body_event (e : event) : Prop :=
  match e with
  | EvBatchModify _ _ _ _ | EvBatchDelete _ _ | EvSleep _
  | EvPrint (OutDryRun _) | EvPrint (OutProcessedSoFar _) => True
  | _ => False
  end.

(** Events that are no listing call, no yield, no final report and no
    guidance: what surrounds the listing in a run. *)
Definition plain_event (e : event) : Prop :=
  list_calls [e] = [] /\ yields [e] = [] /\ reported [e] = []
  /\ is_hint e = false.

(** How [main] ends after a listing call failed with [f], and what it
    prints after the call. *)
Definition failure_exit (f : fault) : exn :=
  match f with
  | RemoteHttpError => SystemExit 1
  | RemoteInterrupt => SystemExit 130
  | RemoteOther => OtherError
  end.

Definition failure_report (f : fault) : list event :=
  match f with
  | RemoteHttpError => [EvPrint OutApiError]
  | RemoteInterrupt => [EvPrint OutInterrupted]
  | RemoteOther => []
  end.

(** The mutating calls and the pauses of a trace, in order. *)
Inductive beat : Type :=
  | Call
  | Pause (ms : Z).

Fixpoint rhythm (tr : list event) : list beat :=
  match tr with
  | [] => []
  | EvBatchModify _ _ _ _ :: tr' => Call :: rhythm tr'
  | EvBatchDelete _ _ :: tr' => Call :: rhythm tr'
  | EvSleep ms :: tr' => Pause ms :: rhythm tr'
  | _ :: tr' => rhythm tr'
  end.

(** [n] mutating calls, each followed by a pause of [ms] milliseconds. *)
Definition beats (ms : Z) (n : nat) : list beat :=
  concat (repeat [Call; Pause ms] n).

(** The calls and pauses of [tr] alternate, a pause of [ms] after each
    call, and a pause that was made is not negative; unless [complete],
    the last call may be left without its pause. *)
Definition paced (ms : Z) (complete : bool) (tr : list event) : Prop :=
  exists n : nat,
    (n = 0%nat \/ 0 <= ms)
    /\ (rhythm tr = beats ms n
        \/ (complete = false /\ rhythm tr = beats ms n ++ [Call])).

Definition returned {A : Type} (o : outcome A) : bool :=
  match o with
  | Ret _ => true
  | _ => false
  end.

(** The totals of the progress lines ("Processed so far: n"). *)
Fixpoint progress (tr : list event) : list Z :=
  match tr with
  | [] => []
  | EvPrint (OutProcessedSoFar n) :: tr' => n :: progress tr'
  | _ :: tr' => progress tr'
  end.

(** The first [k] multiples of the flush threshold. *)
Definition milestones (k : nat) : list Z :=
  map (fun j => FLUSH_THRESHOLD * Z.of_nat j) (seq 1 k).

(** The dry-run lines after [k] flushes at the threshold. *)
Definition full_lines (args : Args) (k : nat) : list Z :=
  if args_dry_run args then repeat FLUSH_THRESHOLD k else [].

(** The dry-run line of the flush after the loop, for a buffer of
    [n] identifiers. *)
Definition last_line (args : Args) (n : Z) : list Z :=
  if args_dry_run args then (if n =? 0 then [] else [n]) else [].

(** The stored token can be used as it is. *)
Definition token_valid (files : local_files) : bool :=
  match token_json files with
  | Stored c => creds_valid c
  | _ => false
  end.

(** The stored token has expired and carries a refresh token. *)
Definition token_refreshable (files : local_files) : bool :=
  match token_json files with
  | Stored c => creds_expired c && truthy_str (creds_refresh_token c)
  | _ => false
  end.

(** Calls to the Gmail API. *)
Definition gmail_call (e : event) : bool :=
  match e with
  | EvList _ _ _ _ _ _ | EvBatchModify _ _ _ _ | EvBatchDelete _ _ => true
  | _ => false
  end.

(** The steps of [get_service]. *)
Definition auth_step (e : event) : bool :=
  match e with
  | EvRefresh | EvLocalServer | EvWriteToken | EvBuild => true
  | _ => false
  end.

(** An event of a run that has no client yet. *)
Definition unbuilt (e : event) : Prop :=
  gmail_call e = false /\ e <> EvBuild.

(** The client was built once, no Gmail call was made before, and no
    step of the authentication was made after. *)
Definition built_once (tr : list event) : Prop :=
  exists pre post,
    tr = pre ++ EvBuild :: post
    /\ Forall unbuilt pre
    /\ Forall (fun e => auth_step e = false) post.

(** What the maximum lets through of [ids] once [total] identifiers are
    counted: everything when the maximum is 0. *)
Definition capped_from (max_count total : Z) (ids : list string)
  : list string :=
  if max_count =? 0 then ids
  else firstn (Z.to_nat (max_count - total)) ids.

(** What [main] does inside its [try] block once [get_service] has
    returned: the listing loop and the statements after it. *)
Definition listing_and_after {R : Type} {service : GmailService R}
    (fuel : nat) (args : Args) : M R unit :=
  st <- list_message_ids (main_loop_body args)
          (if args_all args then None else args_query args)
          (args_include_spam_trash args) (args_max args) fuel ([], 0) ;;
  after_loop args st.




(** The command lines that end with status 2: those the parser refuses
    (also for a [--mode] outside its choices) and those [main]'s own two
    checks refuse. *)
Definition refused (cmd : command_line) : bool :=
  match cmd with
  | AskHelp => false
  | Unparsable => true
  | Options args =>
      negb (existsb (String.eqb (args_mode args)) MODE_CHOICES)
      || negb (args_accepted args)
  end.

(** * Properties *)

(** ** The Batcher *)

Lemma ceil_div_spec (n b q : Z) :
  0 < b -> (ceil_div n b = q <-> b * (q - 1) < n <= b * q).
Proof.
  intros Hb. unfold ceil_div. split.
  - intros <-.
    pose proof (Z.div_mod (n + b - 1) b ltac:(lia)) as E.
    pose proof (Z.mod_pos_bound (n + b - 1) b Hb) as Hm.
    nia.
  - intros [Hlo Hhi]. symmetry.
    apply Z.div_unique with (r := n + b - 1 - b * q); lia.
Qed.

Section Chunks.

Variable A : Type.

Lemma slices_groups (seq : list A) (step : Z) (fuel : nat) :
  0 < step ->
  forall i, 0 <= i ->
    map (fun j => slice seq j (j + step)) (range_from fuel i (len seq) step)
    = groups fuel (skipn (Z.to_nat i) seq) (Z.to_nat step).
Proof.
  intros Hstep. induction fuel as [|f IH]; intros i Hi; simpl; [reflexivity|].
  destruct (i <? len seq) eqn:Hlt.
  - apply Z.ltb_lt in Hlt. unfold len in Hlt.
    destruct (skipn (Z.to_nat i) seq) as [|x rest] eqn:Hs.
    + apply (f_equal (@length A)) in Hs. rewrite length_skipn in Hs.
      simpl in Hs. lia.
    + simpl map. rewrite IH by lia. rewrite <- Hs. f_equal.
      * unfold slice. f_equal. f_equal. lia.
      * rewrite skipn_skipn. f_equal. f_equal. lia.
  - apply Z.ltb_ge in Hlt. unfold len in Hlt.
    rewrite skipn_all2 by lia. reflexivity.
Qed.

Lemma chunks_groups (seq : list A) (size : Z) :
  0 < size ->
  chunks seq size = Some (groups (length seq) seq (Z.to_nat size)).
Proof.
  intros Hs. unfold chunks, py_range.
  destruct (size =? 0) eqn:E0; [apply Z.eqb_eq in E0; lia|].
  destruct (size <? 0) eqn:E1; [apply Z.ltb_lt in E1; lia|].
  rewrite slices_groups by lia. simpl.
  unfold len. rewrite Nat2Z.id. reflexivity.
Qed.

Lemma batches_groups (seq : list A) (size : Z) :
  0 < size -> batches seq size = groups (length seq) seq (Z.to_nat size).
Proof. intros Hs. unfold batches. now rewrite chunks_groups. Qed.

Lemma groups_concat (n : nat) :
  (0 < n)%nat ->
  forall fuel (l : list A),
    (length l <= fuel)%nat -> concat (groups fuel l n) = l.
Proof.
  intros Hn. induction fuel as [|f IH]; intros l Hl.
  - destruct l; simpl in *; [reflexivity | lia].
  - destruct l as [|x l']; [reflexivity|].
    cbn [groups concat]. rewrite IH.
    + apply firstn_skipn.
    + rewrite length_skipn. cbn [length] in *. lia.
Qed.

Lemma groups_bounds (n : nat) :
  (0 < n)%nat ->
  forall fuel (l : list A),
    Forall (fun g => (0 < length g <= n)%nat) (groups fuel l n).
Proof.
  intros Hn. induction fuel as [|f IH]; intros l; simpl; [constructor|].
  destruct l as [|x l']; constructor; [|apply IH].
  rewrite length_firstn. simpl. lia.
Qed.

Lemma groups_full (n : nat) :
  forall fuel (l : list A) pre g post,
    groups fuel l n = pre ++ g :: post -> post <> [] -> length g = n.
Proof.
  induction fuel as [|f IH]; intros l pre g post E Hpost; simpl in E.
  - destruct pre; discriminate.
  - destruct l as [|x l']; [destruct pre; discriminate|].
    destruct pre as [|p pre']; simpl in E; injection E as E1 E2.
    + subst g. rewrite length_firstn.
      destruct (Nat.le_gt_cases n (length (x :: l'))) as [Hle|Hgt]; [lia|].
      rewrite skipn_all2 in E2 by lia.
      destruct f; simpl in E2; subst post; contradiction.
    + eapply IH; eauto.
Qed.

Lemma groups_length (n : nat) :
  (0 < n)%nat ->
  forall fuel (l : list A), (length l <= fuel)%nat ->
    Z.of_nat (length (groups fuel l n))
    = ceil_div (Z.of_nat (length l)) (Z.of_nat n).
Proof.
  intros Hn. induction fuel as [|f IH]; intros l Hl.
  - destruct l; simpl in *; [|lia].
    symmetry. apply ceil_div_spec; lia.
  - destruct l as [|x l'].
    + simpl. symmetry. apply ceil_div_spec; lia.
    + cbn [groups length]. rewrite Nat2Z.inj_succ, IH.
      2:{ rewrite length_skipn. cbn [length] in *. lia. }
      rewrite length_skipn. cbn [length] in *.
      symmetry. apply ceil_div_spec; [lia|].
      remember (ceil_div (Z.of_nat (S (length l') - n)) (Z.of_nat n)) as q eqn:Hq.
      symmetry in Hq. apply ceil_div_spec in Hq; [|lia].
      destruct (Nat.le_gt_cases n (S (length l'))) as [Hle|Hgt].
      * rewrite Nat2Z.inj_sub in Hq by lia. nia.
      * replace (S (length l') - n)%nat with 0%nat in Hq by lia.
        assert (q = 0) by nia. nia.
Qed.

Lemma groups_fuel (n : nat) :
  (0 < n)%nat ->
  forall f1 f2 (l : list A),
    (length l <= f1)%nat -> (length l <= f2)%nat ->
    groups f1 l n = groups f2 l n.
Proof.
  intros Hn. induction f1 as [|f1 IH]; intros f2 l H1 H2.
  - destruct l; simpl in *; [|lia]. now destruct f2.
  - destruct l as [|x l']; [now destruct f2|].
    destruct f2 as [|f2]; [simpl in H2; lia|].
    cbn [groups]. f_equal.
    apply IH; rewrite length_skipn; cbn [length] in *; lia.
Qed.

Lemma batches_nil (T : Z) : batches (@nil A) T = [].
Proof.
  unfold batches, chunks, py_range. simpl.
  destruct (T =? 0); [reflexivity|]. now destruct (T <? 0).
Qed.

Lemma batches_cons (b rest : list A) (T : Z) :
  0 < T -> len b = T -> batches (b ++ rest) T = b :: batches rest T.
Proof.
  intros HT Hb. unfold len in Hb. rewrite !batches_groups by lia.
  destruct b as [|x b']; [simpl in Hb; lia|].
  cbn [app length groups].
  change (x :: b' ++ rest) with ((x :: b') ++ rest).
  replace (Z.to_nat T) with (length (x :: b')) by lia.
  rewrite firstn_app, Nat.sub_diag, firstn_all, firstn_O, app_nil_r.
  rewrite skipn_app, Nat.sub_diag, skipn_all, skipn_O. cbn [app].
  f_equal. apply groups_fuel; rewrite ?length_app; cbn [length]; lia.
Qed.

Lemma batches_small (b : list A) (T : Z) :
  b <> [] -> len b <= T -> batches b T = [b].
Proof.
  intros Hne Hb. unfold len in Hb.
  destruct b as [|x b']; [contradiction|].
  rewrite batches_groups by (cbn [length] in Hb; lia).
  cbn [length groups]. rewrite firstn_all2 by lia.
  rewrite skipn_all2 by lia. now destruct (length b').
Qed.

Lemma batches_concat (full : list (list A)) (b : list A) (T : Z) :
  0 < T ->
  Forall (fun g => len g = T) full -> len b <= T ->
  batches (concat full ++ b) T
  = full ++ match b with [] => [] | _ :: _ => [b] end.
Proof.
  intros HT Hfull Hb. induction Hfull as [|g full Hg _ IH]; simpl.
  - destruct b; [apply batches_nil | apply batches_small; [discriminate|auto]].
  - rewrite <- app_assoc, batches_cons by auto. now rewrite IH.
Qed.

End Chunks.

(** C2. For a list of N identifiers and a batch size B with 1 <= B <= 1000,
    [chunks] produces exactly ceil(N/B) batches, each of size at most B,
    every batch but the last of size exactly B, and the batches
    concatenated in order give the list back. *)
Theorem chunks_partition (A : Type) (seq : list A) (B : Z) :
  1 <= B <= 1000 ->
  exists bs,
    chunks seq B = Some bs
    /\ len bs = ceil_div (len seq) B
    /\ Forall (fun b => len b <= B) bs
    /\ (forall pre b post, bs = pre ++ b :: post -> post <> [] -> len b = B)
    /\ concat bs = seq.
Proof.
  intros HB. exists (groups (length seq) seq (Z.to_nat B)).
  assert (Hn : (0 < Z.to_nat B)%nat) by lia.
  split; [apply chunks_groups; lia|].
  split.
  { unfold len. rewrite groups_length by lia. f_equal. lia. }
  split.
  { eapply Forall_impl; [|apply (groups_bounds Hn)].
    intros g Hg. unfold len. simpl in Hg. lia. }
  split.
  { intros pre b post E Hpost. unfold len.
    assert (length b = Z.to_nat B) by (eapply groups_full; eauto). lia. }
  apply groups_concat; lia.
Qed.

Lemma chunks_partition_witness :
  exists bs,
    chunks [1; 2; 3; 4; 5] 2 = Some bs
    /\ len bs = ceil_div (len [1; 2; 3; 4; 5]) 2
    /\ Forall (fun b => len b <= 2) bs
    /\ (forall pre b post, bs = pre ++ b :: post -> post <> [] -> len b = 2)
    /\ concat bs = [1; 2; 3; 4; 5].
Proof. apply (@chunks_partition Z [1; 2; 3; 4; 5] 2). lia. Defined.

(** ** Trace projections over concatenation *)

Lemma mutations_app (a b : list event) :
  mutations (a ++ b) = mutations a ++ mutations b.
Proof.
  induction a as [|e a IH]; simpl; [reflexivity|].
  destruct (mutation_ids e); simpl; now rewrite IH.
Qed.

Lemma yields_app (a b : list event) : yields (a ++ b) = yields a ++ yields b.
Proof.
  induction a as [|e a IH]; simpl; [reflexivity|].
  destruct e; simpl; now rewrite IH.
Qed.

Lemma replies_app (a b : list event) :
  replies (a ++ b) = replies a ++ replies b.
Proof.
  induction a as [|e a IH]; simpl; [reflexivity|].
  destruct e; simpl; now rewrite IH.
Qed.

(** ** Rules of the logic *)

Section Logic.

Context {R : Type} {service : GmailService R}.

Lemma bind_ret_l {A B} (a : A) (k : A -> M R B) :
  bind (ret a) k = fun w => k a w.
Proof. reflexivity. Qed.

Lemma spec_conseq {A} (m : M R A) (Q Q' : outcome A -> list event -> Prop) :
  spec m Q -> (forall o evs, Q o evs -> Q' o evs) -> spec m Q'.
Proof.
  intros H HQ w. destruct (H w) as (evs & Ht & Hq). eauto.
Qed.

Lemma spec_ret {A} (a : A) (Q : outcome A -> list event -> Prop) :
  Q (Ret a) [] -> spec (ret (R := R) a) Q.
Proof. intros H w. exists []. simpl. rewrite app_nil_r. auto. Qed.

Lemma spec_raise {A} (e : exn) (Q : outcome A -> list event -> Prop) :
  Q (Raise e) [] -> spec (raise (R := R) e) Q.
Proof. intros H w. exists []. simpl. rewrite app_nil_r. auto. Qed.

Lemma spec_diverge {A} (Q : outcome A -> list event -> Prop) :
  Q Diverge [] -> spec (diverge (R := R)) Q.
Proof. intros H w. exists []. simpl. rewrite app_nil_r. auto. Qed.

Lemma spec_emit (e : event) (Q : outcome unit -> list event -> Prop) :
  Q (Ret tt) [e] -> spec (emit (R := R) e) Q.
Proof. intros H w. exists [e]. simpl. auto. Qed.

Lemma spec_bind {A B} (m : M R A) (k : A -> M R B)
    (Q : outcome B -> list event -> Prop) :
  spec m (then_spec k Q) -> spec (bind m k) Q.
Proof.
  intros H w. unfold bind. destruct (H w) as (evs & Ht & Hq).
  destruct (m w) as [[a|e|] w1]; simpl in *.
  - destruct (Hq w1) as (evs' & Ht' & Hq').
    exists (evs ++ evs'). rewrite Ht', Ht, app_assoc. auto.
  - eauto.
  - eauto.
Qed.

Lemma spec_try_except {A} (m : M R A) (handler : exn -> option (M R A))
    (Q : outcome A -> list event -> Prop) :
  spec m (except_spec handler Q) -> spec (try_except m handler) Q.
Proof.
  intros H w. unfold try_except. destruct (H w) as (evs & Ht & Hq).
  destruct (m w) as [[a|e|] w1]; simpl in *; eauto.
  destruct (handler e) as [h|]; eauto.
  destruct (Hq w1) as (evs' & Ht' & Hq').
  exists (evs ++ evs'). rewrite Ht', Ht, app_assoc. auto.
Qed.

Lemma spec_call_list (q : option string) (inc : bool) (tok : option string)
    (Q : outcome response -> list event -> Prop) :
  (forall f, Q (Raise (exn_of_fault f))
               [EvList USER_ID q inc tok MAX_RESULTS (inl f)]) ->
  (forall resp, Q (Ret resp) [EvList USER_ID q inc tok MAX_RESULTS (inr resp)]) ->
  spec (call_list q inc tok) Q.
Proof.
  intros Hf Hr w. unfold call_list.
  destruct (messages_list _ _ _ _ _ _) as [[f|resp] r']; simpl; eauto.
Qed.

Lemma spec_call_mutation (ev : event) (op : R -> option fault * R)
    (Q : outcome unit -> list event -> Prop) :
  (forall f, Q (Raise (exn_of_fault f)) [ev]) ->
  Q (Ret tt) [ev] ->
  spec (call_mutation ev op) Q.
Proof.
  intros Hf Hr w. unfold call_mutation.
  destruct (op _) as [[f|] r']; simpl; eauto.
Qed.

Lemma spec_call_auth (ev : event) (op : R -> option fault * R)
    (Q : outcome unit -> list event -> Prop) :
  (forall f, Q (Raise (exn_of_auth_fault f)) [ev]) ->
  Q (Ret tt) [ev] ->
  spec (call_auth ev op) Q.
Proof.
  intros Hf Hr w. unfold call_auth.
  destruct (op _) as [[f|] r']; simpl; eauto.
Qed.

Lemma spec_sleep (ms : Z) (Q : outcome unit -> list event -> Prop) :
  (ms < 0 -> Q (Raise ValueError) []) ->
  (SLEEP_MAX_MS < ms -> Q (Raise OtherError) []) ->
  (0 <= ms <= SLEEP_MAX_MS -> Q (Ret tt) [EvSleep ms]) ->
  spec (sleep (R := R) ms) Q.
Proof.
  intros Hneg Hbig Hpos. unfold sleep. destruct (ms <? 0) eqn:E.
  { apply spec_raise, Hneg. now apply Z.ltb_lt. }
  apply Z.ltb_ge in E. destruct (SLEEP_MAX_MS <? ms) eqn:E'.
  - apply spec_raise, Hbig. now apply Z.ltb_lt.
  - apply spec_emit, Hpos. apply Z.ltb_ge in E'. lia.
Qed.

End Logic.

(** One step through a computation with the rules above. *)
Ltac spec_step :=
  first
    [ apply spec_bind | apply spec_ret | apply spec_raise | apply spec_emit
    | match goal with
      | |- spec (if ?b then _ else _) _ => destruct b
      | |- spec (match ?x with _ => _ end) _ => destruct x
      end ];
  cbn [then_spec].


(** ** What a run can do, event by event *)

Section Events.

Context {R : Type} {service : GmailService R}.

Lemma emits_ret {A} (P : event -> Prop) (a : A) : emits P (ret (R := R) a).
Proof. apply spec_ret. constructor. Qed.

Lemma emits_raise {A} (P : event -> Prop) (e : exn) :
  emits P (raise (R := R) (A := A) e).
Proof. apply spec_raise. constructor. Qed.

Lemma emits_emit (P : event -> Prop) (e : event) :
  P e -> emits P (emit (R := R) e).
Proof. intros H. apply spec_emit. auto. Qed.

Lemma emits_bind {A B} (P : event -> Prop) (m : M R A) (k : A -> M R B) :
  emits P m -> (forall a, emits P (k a)) -> emits P (bind m k).
Proof.
  intros Hm Hk. apply spec_bind. eapply spec_conseq; [exact Hm|].
  intros [a| |] evs H; simpl; auto.
  eapply spec_conseq; [apply Hk|]. intros o evs' H'. apply Forall_app; auto.
Qed.

Lemma emits_try_except {A} (P : event -> Prop) (m : M R A)
    (handler : exn -> option (M R A)) :
  emits P m -> (forall e h, handler e = Some h -> emits P h) ->
  emits P (try_except m handler).
Proof.
  intros Hm Hh. apply spec_try_except. eapply spec_conseq; [exact Hm|].
  intros [a|e|] evs H; simpl; auto.
  destruct (handler e) as [h|] eqn:E; auto.
  eapply spec_conseq; [eapply Hh; eauto|].
  intros o evs' H'. apply Forall_app; auto.
Qed.

Lemma emits_for_each {A} (P : event -> Prop) (f : A -> M R unit)
    (xs : list A) :
  Forall (fun x => emits P (f x)) xs -> emits P (for_each xs f).
Proof.
  induction 1; simpl; [apply emits_ret|].
  apply emits_bind; auto.
Qed.

Lemma emits_scan_page {S} (P : event -> Prop) (body : string -> S -> M R S)
    (max_count : Z) :
  (forall i, P (EvYield i)) ->
  (forall i s, emits P (body i s)) ->
  forall msgs total s, emits P (scan_page body max_count msgs total s).
Proof.
  intros Hy Hb. induction msgs as [|m rest IH]; intros total s;
    cbn [scan_page].
  - apply emits_ret.
  - destruct (truthy_int max_count && (total >=? max_count));
      [apply emits_ret|].
    destruct (m_id m) as [i|]; [|apply IH].
    destruct (truthy_str (Some i)); [|apply IH].
    apply emits_bind; [apply emits_emit, Hy|]. intros _.
    apply emits_bind; [apply Hb|]. intros s'. apply IH.
Qed.

Lemma emits_list_message_ids_loop {S} (P : event -> Prop)
    (body : string -> S -> M R S) (q : option string) (inc : bool)
    (max_count : Z) :
  (forall tok reply, P (EvList USER_ID q inc tok MAX_RESULTS reply)) ->
  (forall i, P (EvYield i)) ->
  (forall i s, emits P (body i s)) ->
  forall fuel tok total s,
    emits P (list_message_ids_loop body q inc max_count fuel tok total s).
Proof.
  intros Hl Hy Hb. induction fuel as [|f IH]; intros tok total s;
    cbn [list_message_ids_loop].
  - apply spec_diverge. constructor.
  - apply emits_bind.
    { apply spec_call_list; intros; repeat constructor; apply Hl. }
    intros resp. apply emits_bind; [now apply emits_scan_page|].
    intros [total' s'|s']; [|apply emits_ret].
    destruct (negb (truthy_str (resp_nextPageToken resp)));
      [apply emits_ret | apply IH].
Qed.

Lemma process_batch_ok (args : Args) (ids : list string) :
  args_dry_run args = false ->
  ids <> [] -> len ids <= args_batch_size args <= 1000 ->
  emits (main_event_ok args) (process_batch ids (args_mode args)).
Proof.
  intros Hlive Hne Hlen. unfold process_batch.
  destruct (args_mode args =? "trash")%string eqn:Et.
  { apply String.eqb_eq in Et.
    apply spec_call_mutation; intros; repeat constructor; simpl; tauto. }
  destruct (args_mode args =? "delete")%string eqn:Ed.
  { apply String.eqb_eq in Ed.
    apply spec_call_mutation; intros; repeat constructor; simpl; tauto. }
  apply emits_raise.
Qed.

Lemma flush_ok (args : Args) (buffered : list string) :
  1 <= args_batch_size args <= 1000 ->
  emits (main_event_ok args) (flush args buffered).
Proof.
  intros HB. unfold flush. destruct (args_dry_run args) eqn:Hdry.
  { apply emits_emit. exact Hdry. }
  rewrite chunks_groups by lia. apply emits_for_each.
  eapply Forall_impl;
    [|apply (@groups_bounds string (Z.to_nat (args_batch_size args)));
      lia].
  intros g Hg. simpl in Hg. apply emits_bind.
  - apply process_batch_ok; auto.
    + destruct g; simpl in Hg; [lia | discriminate].
    + unfold len. lia.
  - intros _. apply spec_sleep; intros; repeat constructor; simpl; auto.
Qed.

Lemma main_loop_body_ok (args : Args) (i : string) (st : list string * Z) :
  1 <= args_batch_size args <= 1000 ->
  emits (main_event_ok args) (main_loop_body args i st).
Proof.
  intros HB. unfold main_loop_body.
  destruct (len (fst st ++ [i]) >=? FLUSH_THRESHOLD); [|apply emits_ret].
  apply emits_bind; [now apply flush_ok|]. intros _.
  apply emits_bind; [now apply emits_emit|]. intros _. apply emits_ret.
Qed.

Lemma emits_weaken {A} (P P' : event -> Prop) (m : M R A) :
  emits P m -> (forall e, P e -> P' e) -> emits P' m.
Proof.
  intros H HP. eapply spec_conseq; [exact H|].
  intros o evs. apply Forall_impl, HP.
Qed.

Lemma emits_call_auth (P : event -> Prop) (ev : event)
    (op : R -> option fault * R) :
  P ev -> emits P (call_auth ev op).
Proof. intros H. apply spec_call_auth; intros; repeat constructor; exact H. Qed.

Lemma get_service_auth (files : local_files) :
  emits auth_event (get_service files).
Proof.
  unfold get_service.
  apply emits_bind.
  { destruct (token_json files); [apply emits_ret | apply emits_raise
                                  | apply emits_ret]. }
  intros creds.
  apply emits_bind; [|intros _; now apply emits_call_auth].
  destruct (match creds with
            | None => true | Some c => negb (creds_valid c) end);
    [|apply emits_ret].
  apply emits_bind; [|intros _; now apply emits_call_auth].
  destruct (match creds with
            | None => false
            | Some c => creds_expired c && truthy_str (creds_refresh_token c)
            end).
  { now apply emits_call_auth. }
  destruct (credentials_json files).
  - apply emits_bind; [now apply emits_emit|]. intros _. apply emits_raise.
  - apply emits_raise.
  - now apply emits_call_auth.
Qed.

Lemma get_service_ok (args : Args) (files : local_files) :
  emits (main_event_ok args) (get_service files).
Proof.
  eapply emits_weaken; [apply get_service_auth|].
  intros [] He; try exact I; try contradiction.
  destruct line; try exact I; contradiction.
Qed.

Lemma main_ok (fuel : nat) (args : Args) (files : local_files) :
  emits (main_event_ok args) (main fuel args files).
Proof.
  unfold main.
  destruct (negb (args_all args) && negb (truthy_str (args_query args)))
    eqn:Ht.
  { apply andb_true_iff in Ht. destruct Ht as [Ha Hq].
    apply negb_true_iff in Ha, Hq.
    apply emits_bind; [now apply emits_emit|]. intros _. apply emits_raise. }
  destruct ((1 <=? args_batch_size args) && (args_batch_size args <=? 1000))
    eqn:HB; simpl.
  2:{ apply emits_bind; [|intros _; apply emits_raise].
      apply emits_emit. simpl. intros [H1 H2].
      apply Z.leb_le in H1, H2. rewrite H1, H2 in HB. discriminate. }
  apply andb_true_iff in HB. destruct HB as [H1 H2].
  apply Z.leb_le in H1, H2.
  do 3 (apply emits_bind; [now apply emits_emit|]; intros _).
  apply emits_try_except.
  - apply emits_bind; [apply get_service_ok|]. intros _.
    apply emits_bind.
    { apply emits_list_message_ids_loop.
      - intros; simpl; auto.
      - intros; exact I.
      - intros; apply main_loop_body_ok; lia. }
    intros st. apply emits_bind.
    { destruct (negb (len (fst st) =? 0)); [apply flush_ok; lia|].
      apply emits_ret. }
    intros _. apply emits_bind; [now apply emits_emit|]. intros _.
    destruct (args_mode args =? "trash")%string;
      [now apply emits_emit | apply emits_ret].
  - intros e h He. destruct e; simpl in He; try discriminate;
      injection He as <-;
      (apply emits_bind; [now apply emits_emit|]; intros _;
       apply emits_raise).
Qed.

End Events.

Lemma reported_app (a b : list event) :
  reported (a ++ b) = reported a ++ reported b.
Proof.
  induction a as [|e a IH]; simpl; [reflexivity|].
  destruct e; simpl; try apply IH. destruct line; simpl; now rewrite ?IH.
Qed.

Lemma quiet_projections (evs : list event) :
  Forall quiet evs ->
  mutations evs = [] /\ yields evs = [] /\ reported evs = [].
Proof.
  induction 1 as [|e evs (Hm & Hy & Hr) _ (IHm & IHy & IHr)];
    [repeat split|].
  change (e :: evs) with ([e] ++ evs).
  rewrite mutations_app, yields_app, reported_app, IHm, IHy, IHr, Hy, Hr.
  simpl. rewrite Hm. repeat split.
Qed.

Lemma quiet_app (evs evs' : list event) :
  Forall quiet evs' ->
  mutations (evs ++ evs') = mutations evs
  /\ yields (evs ++ evs') = yields evs
  /\ reported (evs ++ evs') = reported evs.
Proof.
  intros H. destruct (quiet_projections H) as (Hm & Hy & Hr).
  rewrite mutations_app, yields_app, reported_app, Hm, Hy, Hr.
  rewrite !app_nil_r. repeat split.
Qed.

Lemma quiet_prefix (pre evs : list event) :
  Forall quiet pre ->
  mutations (pre ++ evs) = mutations evs
  /\ yields (pre ++ evs) = yields evs
  /\ reported (pre ++ evs) = reported evs.
Proof.
  intros H. destruct (quiet_projections H) as (Hm & Hy & Hr).
  rewrite mutations_app, yields_app, reported_app, Hm, Hy, Hr.
  repeat split.
Qed.

(** Bring the appended events of a goal or hypothesis to the right-nested
    form [a ++ e :: b ++ c]. *)
Ltac norm_events :=
  cbv beta; repeat rewrite <- app_assoc; cbn [app].

Ltac norm_events_in H :=
  cbv beta in H; repeat rewrite <- app_assoc in H; cbn [app] in H.

(** ** An invariant rule for the lister *)

Section ListerRule.

Context {R : Type} {service : GmailService R}.

Variable S : Type.
Variable body : string -> S -> M R S.
Variable q : option string.
Variable inc : bool.
Variable max_count : Z.

(** [I total s evs] holds between two steps of the lister, [E evs] once
    the loop was left by an exception or cut off. *)
Variable I : Z -> S -> list event -> Prop.
Variable E : list event -> Prop.

Hypothesis I_list : forall total s evs tok resp,
  I total s evs ->
  I total s (evs ++ [EvList USER_ID q inc tok MAX_RESULTS (inr resp)]).

Hypothesis E_list : forall total s evs tok f,
  I total s evs ->
  E (evs ++ [EvList USER_ID q inc tok MAX_RESULTS (inl f)]).

Hypothesis E_cut : forall total s evs, I total s evs -> E evs.

Hypothesis body_step : forall total s evs i,
  I total s evs ->
  truthy_int max_count && (total >=? max_count) = false ->
  truthy_str (Some i) = true ->
  spec (body i s) (fun o evs' =>
    match o with
    | Ret s' => I (total + 1) s' (evs ++ EvYield i :: evs')
    | _ => E (evs ++ EvYield i :: evs')
    end).

Lemma scan_page_rule (msgs : list message) :
  forall total s evs,
    I total s evs ->
    spec (scan_page body max_count msgs total s) (fun o evs' =>
      match o with
      | Ret (PageDone total' s') => I total' s' (evs ++ evs')
      | Ret (Returned s') => exists total', I total' s' (evs ++ evs')
      | _ => E (evs ++ evs')
      end).
Proof.
  induction msgs as [|m rest IH]; intros total s evs HI; cbn [scan_page].
  - apply spec_ret. now rewrite app_nil_r.
  - destruct (truthy_int max_count && (total >=? max_count)) eqn:G.
    { apply spec_ret. rewrite app_nil_r. eauto. }
    destruct (m_id m) as [i|]; [|now apply IH].
    destruct (truthy_str (Some i)) eqn:Ti; [|now apply IH].
    apply spec_bind, spec_emit. cbn [then_spec].
    apply spec_bind.
    eapply spec_conseq; [eapply body_step; eassumption|].
    intros [s'| |] evs1 H1; cbn [then_spec app]; auto.
    eapply spec_conseq; [eapply IH; eassumption|].
    intros o evs2 H2. cbv beta in H2. rewrite <- app_assoc in H2. exact H2.
Qed.

Lemma list_message_ids_loop_rule (fuel : nat) :
  forall tok total s evs,
    I total s evs ->
    spec (list_message_ids_loop body q inc max_count fuel tok total s)
      (fun o evs' =>
         match o with
         | Ret s' => exists total', I total' s' (evs ++ evs')
         | _ => E (evs ++ evs')
         end).
Proof.
  induction fuel as [|f IH]; intros tok total s evs HI;
    cbn [list_message_ids_loop].
  - apply spec_diverge. rewrite app_nil_r. eauto.
  - apply spec_bind, spec_call_list; cbn [then_spec].
    { intros flt. eauto. }
    intros resp. apply spec_bind.
    eapply spec_conseq;
      [eapply scan_page_rule,
         I_list with (tok := tok) (resp := resp); eassumption|].
    intros o evs1 H1. norm_events_in H1.
    destruct o as [[total' s'|s']| |]; cbn [then_spec]; norm_events;
      try assumption.
    + destruct (negb (truthy_str (resp_nextPageToken resp))).
      * apply spec_ret. rewrite app_nil_r. eauto.
      * eapply spec_conseq; [eapply IH; eassumption|].
        intros o evs2 H2. norm_events_in H2. norm_events. exact H2.
    + apply spec_ret. now rewrite app_nil_r.
Qed.

End ListerRule.

(** ** The driver in a live run *)

Section Driver.

Context {R : Type} {service : GmailService R}.

Variable args : Args.

Hypothesis live : args_dry_run args = false.

Lemma FLUSH_THRESHOLD_pos : 0 < FLUSH_THRESHOLD.
Proof. reflexivity. Qed.

Lemma buffering_quiet (st : list string * Z) (evs evs' : list event) :
  buffering args st evs -> Forall quiet evs' ->
  buffering args st (evs ++ evs').
Proof.
  intros (full & Hf & Hb & Hy & Hm & Hr & Ht) Hq.
  destruct (quiet_app evs Hq) as (Em & Ey & Er).
  exists full. rewrite Em, Ey, Er. auto 10.
Qed.

Lemma flushing_quiet (whole : bool) (evs evs' : list event) :
  flushing args whole evs -> Forall quiet evs' ->
  flushing args whole (evs ++ evs').
Proof.
  intros (full & b & k & Hf & Hb & Hy & Hm & Hw) Hq.
  destruct (quiet_app evs Hq) as (Em & Ey & Er).
  exists full, b, k. rewrite Em, Ey. auto 10.
Qed.

Lemma buffering_flushing (st : list string * Z) (evs : list event) :
  buffering args st evs -> flushing args false evs.
Proof.
  intros (full & Hf & Hb & Hy & Hm & Hr & Ht).
  exists full, (fst st), 0%nat. simpl. rewrite app_nil_r.
  repeat split; auto; [lia | discriminate].
Qed.

(** One batch: the mutating call, then the pause. *)
Lemma batch_step_spec (g : list string) :
  spec (process_batch g (args_mode args) ;; sleep (args_sleep_ms args))
    (fun o evs =>
       yields evs = [] /\ reported evs = []
       /\ (mutations evs = [] \/ mutations evs = [g])
       /\ (o = Ret tt -> mutations evs = [g])).
Proof.
  apply spec_bind. unfold process_batch.
  destruct (args_mode args =? "trash")%string;
    [|destruct (args_mode args =? "delete")%string].
  - apply spec_call_mutation; cbn [then_spec];
      [intros f; simpl; intuition discriminate|].
    apply spec_sleep; intros _; simpl; intuition discriminate.
  - apply spec_call_mutation; cbn [then_spec];
      [intros f; simpl; intuition discriminate|].
    apply spec_sleep; intros _; simpl; intuition discriminate.
  - apply spec_raise. simpl. intuition discriminate.
Qed.

Lemma for_each_batches_spec (gs : list (list string)) :
  spec (for_each gs (fun g =>
          process_batch g (args_mode args) ;; sleep (args_sleep_ms args)))
    (fun o evs =>
       yields evs = [] /\ reported evs = []
       /\ exists k, mutations evs = firstn k gs
                    /\ (o = Ret tt -> mutations evs = gs)).
Proof.
  induction gs as [|g gs IH]; cbn [for_each].
  - apply spec_ret. repeat split. exists 0%nat. auto.
  - apply spec_bind. eapply spec_conseq; [apply batch_step_spec|].
    intros o evs (Hy & Hr & Hm & Hall).
    destruct o as [[]|e|]; cbn [then_spec].
    + eapply spec_conseq; [apply IH|].
      intros o' evs' (Hy' & Hr' & k & Hk & Hall').
      rewrite yields_app, reported_app, mutations_app, Hy, Hr, Hy', Hr'.
      rewrite (Hall eq_refl). repeat split.
      exists (S k). simpl. rewrite Hk. split; [reflexivity|].
      intros Ho. f_equal. rewrite <- Hk. now apply Hall'.
    + repeat split; auto.
      destruct Hm as [Hm|Hm]; rewrite Hm;
        [exists 0%nat | exists 1%nat]; simpl; split; auto; discriminate.
    + repeat split; auto.
      destruct Hm as [Hm|Hm]; rewrite Hm;
        [exists 0%nat | exists 1%nat]; simpl; split; auto; discriminate.
Qed.

Lemma flush_live_spec (buffered : list string) :
  spec (flush args buffered)
    (fun o evs =>
       yields evs = [] /\ reported evs = []
       /\ exists k,
            mutations evs = firstn k (batches buffered (args_batch_size args))
            /\ (o = Ret tt ->
                mutations evs = batches buffered (args_batch_size args))).
Proof.
  unfold flush, batches. rewrite live.
  destruct (chunks buffered (args_batch_size args)) as [gs|].
  - apply for_each_batches_spec.
  - apply spec_raise. repeat split. exists 0%nat. split; [reflexivity|].
    discriminate.
Qed.

Lemma auth_event_quiet (e : event) : auth_event e -> quiet e.
Proof.
  destruct e as [| | | | |line| | | |];
    try destruct line; simpl; try contradiction;
    intros _; repeat split.
Qed.

Lemma buffering_start : buffering args ([], 0) [].
Proof.
  exists []. simpl. repeat split; auto.
Qed.

Lemma main_loop_body_live (i : string) (st : list string * Z)
    (evs : list event) :
  buffering args st evs ->
  spec (main_loop_body args i st) (fun o evs' =>
    match o with
    | Ret st' => buffering args st' (evs ++ EvYield i :: evs')
    | _ => flushing args false (evs ++ EvYield i :: evs')
    end).
Proof.
  intros (full & Hf & Hb & Hy & Hm & Hr & Ht). unfold main_loop_body.
  assert (Hlen : len (fst st ++ [i]) = len (fst st) + 1)
    by (unfold len; rewrite length_app; simpl; lia).
  assert (Hy' : forall evs', yields evs' = [] ->
            yields (evs ++ EvYield i :: evs') = concat full ++ fst st ++ [i]).
  { intros evs' E. rewrite yields_app. simpl. rewrite E, Hy.
    now rewrite <- app_assoc. }
  assert (Hm' : forall evs',
            mutations (evs ++ EvYield i :: evs') = mutations evs ++ mutations evs').
  { intros evs'. now rewrite mutations_app. }
  assert (Hr' : forall evs',
            reported (evs ++ EvYield i :: evs') = reported evs'
            ).
  { intros evs'. rewrite reported_app, Hr. reflexivity. }
  destruct (len (fst st ++ [i]) >=? FLUSH_THRESHOLD) eqn:G.
  - apply Z.geb_le in G.
    apply spec_bind. eapply spec_conseq; [apply flush_live_spec|].
    intros o evs1 (Hy1 & Hr1 & k & Hk & Hall).
    destruct o as [[]|e|]; cbn [then_spec].
    + apply spec_bind, spec_emit. cbn [then_spec]. apply spec_ret.
      norm_events. exists (full ++ [fst st ++ [i]]).
      rewrite Hy', Hm', Hr' by (rewrite yields_app, Hy1; reflexivity).
      rewrite mutations_app, reported_app, Hr1, (Hall eq_refl), Hm.
      cbn [fst snd]. rewrite concat_app, flat_map_app. simpl.
      rewrite !app_nil_r. repeat split; auto;
        first [ apply Forall_app; split; auto; constructor;
                [lia | constructor]
              | apply FLUSH_THRESHOLD_pos
              | rewrite Ht, Hy; unfold len; rewrite !length_app; simpl; lia ].
    + exists full, (fst st ++ [i]), k.
      rewrite Hy', Hm', Hm, Hk by assumption.
      repeat split; auto; [lia | discriminate].
    + exists full, (fst st ++ [i]), k.
      rewrite Hy', Hm', Hm, Hk by assumption.
      repeat split; auto; [lia | discriminate].
  - rewrite Z.geb_leb in G. apply Z.leb_gt in G.
    apply spec_ret. exists full. rewrite Hy', Hm', Hr' by reflexivity.
    simpl. rewrite app_nil_r. repeat split; auto.
    rewrite Ht, Hy. unfold len. rewrite !length_app. simpl. lia.
Qed.

Lemma flushing_prefix (whole : bool) (pre evs : list event) :
  Forall quiet pre -> flushing args whole evs ->
  flushing args whole (pre ++ evs).
Proof.
  intros Hq (full & b & k & Hf & Hb & Hy & Hm & Hw).
  destruct (quiet_prefix evs Hq) as (Em & Ey & Er).
  exists full, b, k. rewrite Em, Ey. auto 10.
Qed.

Lemma live_post_prefix (pre : list event) (o : outcome unit)
    (evs : list event) :
  Forall quiet pre -> live_post args o evs -> live_post args o (pre ++ evs).
Proof.
  intros Hq. destruct (quiet_prefix evs Hq) as (Em & Ey & Er).
  destruct o; simpl; try apply flushing_prefix; auto.
  intros [H1 H2]. rewrite Er, Ey. split; auto.
  apply flushing_prefix; auto.
Qed.

(** The last flush went through and the total was reported. *)
Lemma complete_live (st : list string * Z) (evs evs2 tail : list event) :
  buffering args st evs ->
  yields evs2 = [] -> reported evs2 = [] ->
  mutations evs2 = batches (fst st) (args_batch_size args) ->
  Forall quiet tail ->
  live_post args (Ret tt)
    (evs ++ evs2 ++ EvPrint (OutDone (snd st)) :: tail).
Proof.
  intros (full & Hf & Hb & Hy & Hm & Hr & Ht) Hy2 Hr2 Hm2 Hq.
  destruct (quiet_projections Hq) as (Hmt & Hyt & Hrt).
  assert (Ey : yields (evs ++ evs2 ++ EvPrint (OutDone (snd st)) :: tail)
               = concat full ++ fst st).
  { rewrite !yields_app. simpl. now rewrite Hy2, Hyt, Hy, app_nil_r. }
  split.
  - exists full, (fst st),
      (length (batches (fst st) (args_batch_size args))).
    rewrite Ey, !mutations_app. simpl.
    rewrite Hmt, Hm2, Hm, app_nil_r, firstn_all.
    repeat split; auto. lia.
  - rewrite Ey, !reported_app. simpl.
    rewrite Hr, Hr2, Hrt, Ht, Hy. reflexivity.
Qed.

(** The run was left during a flush, after [k] batches. *)
Lemma partial_live (st : list string * Z) (evs evs2 : list event) (k : nat) :
  buffering args st evs ->
  yields evs2 = [] ->
  mutations evs2 = firstn k (batches (fst st) (args_batch_size args)) ->
  flushing args false (evs ++ evs2).
Proof.
  intros (full & Hf & Hb & Hy & Hm & Hr & Ht) Hy2 Hm2.
  exists full, (fst st), k.
  rewrite yields_app, mutations_app, Hy2, Hm2, Hy, Hm, app_nil_r.
  repeat split; auto; [lia | discriminate].
Qed.

Lemma main_handler_live (o : outcome unit) (evs : list event) :
  match o with
  | Ret _ => live_post args o evs
  | _ => flushing args false evs
  end ->
  except_spec (main_handler (R := R)) (live_post args) o evs.
Proof.
  destruct o as [[]|e|]; cbn [except_spec]; auto.
  intros H. destruct e; cbn [main_handler]; auto.
  - apply spec_bind, spec_emit. cbn [then_spec]. apply spec_raise.
    simpl. apply flushing_quiet; auto. repeat constructor.
  - apply spec_bind, spec_emit. cbn [then_spec]. apply spec_raise.
    simpl. apply flushing_quiet; auto. repeat constructor.
Qed.

Lemma spec_print_then {A} (line : output) (k : M R A)
    (Q : outcome A -> list event -> Prop) :
  spec k (fun o evs => Q o (EvPrint line :: evs)) ->
  spec (print line ;; k) Q.
Proof. intros H. apply spec_bind, spec_emit. exact H. Qed.

Lemma main_live (fuel : nat) (files : local_files) :
  spec (main fuel args files) (live_post args).
Proof.
  assert (Hstart : forall evs, Forall quiet evs -> flushing args false evs).
  { intros evs Hq. apply buffering_flushing with (st := ([], 0)).
    apply (buffering_quiet buffering_start Hq). }
  unfold main.
  destruct (negb (args_all args) && negb (truthy_str (args_query args))).
  { apply spec_print_then, spec_raise. apply Hstart. repeat constructor. }
  destruct (negb ((1 <=? args_batch_size args)
                  && (args_batch_size args <=? 1000))).
  { apply spec_print_then, spec_raise. apply Hstart. repeat constructor. }
  do 3 apply spec_print_then.
  eapply spec_conseq;
    [|intros o evs H;
      apply (@live_post_prefix [EvPrint _; EvPrint _; EvPrint _] o evs);
      [repeat constructor | exact H]].
  apply spec_try_except, spec_bind.
  eapply spec_conseq; [apply get_service_auth|].
  intros o evs0 H0.
  assert (Hq0 : Forall quiet evs0)
    by (eapply Forall_impl; [apply auth_event_quiet | exact H0]).
  destruct o as [[]|e|]; cbn [then_spec];
    try (apply main_handler_live, Hstart, Hq0).
  apply spec_bind. unfold list_message_ids.
  eapply spec_conseq.
  { eapply list_message_ids_loop_rule
      with (I := fun _ st evs => buffering args st evs)
           (E := flushing args false)
           (evs := evs0) (total := 0).
    - intros total s evs tok resp H.
      apply buffering_quiet; auto. repeat constructor.
    - intros total s evs tok f H.
      apply flushing_quiet; [|repeat constructor].
      eapply buffering_flushing; eauto.
    - intros total s evs H. eapply buffering_flushing; eauto.
    - intros total s evs i H _ _. apply (main_loop_body_live i H).
    - apply (buffering_quiet buffering_start Hq0). }
  intros o evs1 H1. cbv beta in H1.
  destruct o as [st|e|]; cbn [then_spec];
    try (apply main_handler_live, H1).
  destruct H1 as [_ H1].
  apply spec_bind.
  eapply spec_conseq with
    (Q := fun o evs2 =>
            yields evs2 = [] /\ reported evs2 = []
            /\ exists k,
                 mutations evs2
                 = firstn k (batches (fst st) (args_batch_size args))
                 /\ (o = Ret tt ->
                     mutations evs2
                     = batches (fst st) (args_batch_size args))).
  { destruct (negb (len (fst st) =? 0)) eqn:Hne; [apply flush_live_spec|].
    apply spec_ret. repeat split. exists 0%nat. split; [reflexivity|].
    intros _. apply negb_false_iff, Z.eqb_eq in Hne.
    destruct (fst st); [now rewrite batches_nil | discriminate]. }
  intros o evs2 (Hy2 & Hr2 & k & Hk & Hall).
  destruct o as [[]|e|]; cbn [then_spec]; norm_events;
    try (apply main_handler_live; rewrite app_assoc;
         eapply partial_live; eassumption).
  apply spec_print_then.
  destruct (args_mode args =? "trash")%string.
  - apply spec_emit. norm_events. cbn [except_spec]. rewrite app_assoc.
    apply complete_live; auto. repeat constructor.
  - apply spec_ret. norm_events. cbn [except_spec]. rewrite app_assoc.
    apply complete_live; auto.
Qed.

Lemma flushing_batches (whole : bool) (evs : list event) :
  flushing args whole evs ->
  exists rest,
    flat_map (fun b => batches b (args_batch_size args))
      (batches (yields evs) FLUSH_THRESHOLD)
    = mutations evs ++ rest
    /\ (whole = true -> rest = []).
Proof.
  intros (full & b & k & Hf & Hb & Hy & Hm & Hw).
  rewrite Hy, batches_concat by (auto; apply FLUSH_THRESHOLD_pos).
  rewrite flat_map_app, Hm.
  destruct b as [|x b'].
  - rewrite batches_nil, firstn_nil. exists []. simpl.
    rewrite !app_nil_r. auto.
  - exists (skipn k (batches (x :: b') (args_batch_size args))).
    cbn [flat_map]. rewrite <- app_assoc, app_nil_r, firstn_skipn.
    split; [reflexivity|].
    intros Ht. apply Hw in Ht. apply (f_equal (@length _)) in Ht.
    rewrite length_firstn in Ht. apply skipn_all2. lia.
Qed.

Lemma concat_batches (B : Z) (full : list (list string)) :
  1 <= B ->
  concat (flat_map (fun b => batches b B) full) = concat full.
Proof.
  intros HB. induction full as [|b full IH]; simpl; [reflexivity|].
  rewrite concat_app, IH. f_equal.
  rewrite batches_groups by lia. apply groups_concat; lia.
Qed.

Lemma flushing_whole_concat (evs : list event) :
  1 <= args_batch_size args ->
  flushing args true evs -> concat (mutations evs) = yields evs.
Proof.
  intros HB (full & b & k & Hf & Hb & Hy & Hm & Hw).
  rewrite Hm, Hy, (Hw eq_refl), concat_app, concat_batches by auto.
  f_equal. rewrite batches_groups by lia. apply groups_concat; lia.
Qed.

End Driver.

(** ** The lister on its own *)

Section Collect.

Context {R : Type} {service : GmailService R}.

Variable q : option string.
Variable inc : bool.
Variable max_count : Z.

Lemma yields_map_EvYield (ids : list string) :
  yields (map EvYield ids) = ids.
Proof. induction ids; simpl; congruence. Qed.

Lemma replies_map_EvYield (ids : list string) :
  replies (map EvYield ids) = [].
Proof. induction ids; simpl; congruence. Qed.


Lemma ids_of_cons (m : message) (rest : list message) :
  ids_of (m :: rest) = ids_of [m] ++ ids_of rest.
Proof.
  change (m :: rest) with ([m] ++ rest). unfold ids_of.
  now rewrite flat_map_app.
Qed.

Lemma ids_of_yielded (m : message) (i : string) :
  m_id m = Some i -> truthy_str (Some i) = true -> ids_of [m] = [i].
Proof.
  intros Hid Ti. unfold ids_of. cbn [flat_map]. rewrite Hid.
  cbv beta iota. now rewrite Ti.
Qed.

Lemma ids_of_skipped (m : message) :
  match m_id m with
  | Some i => truthy_str (Some i) = false
  | None => True
  end ->
  ids_of [m] = [].
Proof.
  intros H. unfold ids_of. cbn [flat_map].
  destruct (m_id m) as [i|]; [|reflexivity].
  cbv beta iota. now rewrite H.
Qed.

Lemma max_hit_here (total : Z) (m : message) (rest : list message) :
  truthy_int max_count && (total >=? max_count) = true ->
  max_hit max_count total (m :: rest).
Proof.
  intros G. apply andb_true_iff in G. destruct G as [Gm Gt].
  apply negb_true_iff, Z.eqb_neq in Gm.
  rewrite Z.geb_leb in Gt. apply Z.leb_le in Gt.
  split; [exact Gm|]. exists [], m, rest.
  split; [reflexivity | unfold len; simpl; lia].
Qed.

Lemma max_hit_later (total : Z) (m : message) (rest : list message) :
  max_hit max_count (total + len (ids_of [m])) rest ->
  max_hit max_count total (m :: rest).
Proof.
  intros (Hm & a & m' & b & E & Hle). split; [exact Hm|].
  exists (m :: a), m', b. subst rest. split; [reflexivity|].
  change (m :: a) with ([m] ++ a).
  unfold ids_of in *. rewrite flat_map_app. unfold len in *.
  rewrite length_app. lia.
Qed.

Lemma max_hit_inv (total : Z) (m : message) (rest : list message) :
  truthy_int max_count && (total >=? max_count) = false ->
  max_hit max_count total (m :: rest) ->
  max_hit max_count (total + len (ids_of [m])) rest.
Proof.
  intros G (Hm & a & m' & b & E & Hle). split; [exact Hm|].
  apply andb_false_iff in G.
  destruct G as [G|G];
    [apply negb_false_iff, Z.eqb_eq in G; contradiction|].
  rewrite Z.geb_leb in G. apply Z.leb_gt in G.
  destruct a as [|x a]; simpl in E; injection E as E1 E2; subst.
  - unfold len in Hle. simpl in Hle. lia.
  - exists a, m', b. split; [reflexivity|].
    change (x :: a) with ([x] ++ a) in Hle.
    unfold ids_of in *. rewrite flat_map_app in Hle. unfold len in *.
    rewrite length_app in Hle. lia.
Qed.

(** One page under [collect]: what is yielded, and how the page is left. *)
Lemma scan_collect (msgs : list message) :
  forall total acc,
    spec (scan_page (collect (R := R)) max_count msgs total acc)
      (fun o evs =>
         exists ids,
           evs = map EvYield ids
           /\ (max_count <> 0 ->
               total + len ids <= Z.max total max_count)
           /\ match o with
              | Ret (PageDone total' acc') =>
                  total' = total + len ids /\ acc' = acc ++ ids
                  /\ ids = ids_of msgs
                  /\ ~ max_hit max_count total msgs
              | Ret (Returned acc') =>
                  acc' = acc ++ ids /\ max_hit max_count total msgs
              | _ => False
              end).
Proof.
  induction msgs as [|m rest IH]; intros total acc; cbn [scan_page].
  - apply spec_ret. exists []. rewrite app_nil_r. unfold len. simpl.
    split; [reflexivity|]. split; [lia|]. split; [lia|].
    split; [reflexivity|]. split; [reflexivity|].
    intros (_ & a & m & b & E & _). now destruct a.
  - destruct (truthy_int max_count && (total >=? max_count)) eqn:G.
    { apply spec_ret. exists []. rewrite app_nil_r. unfold len. simpl.
      split; [reflexivity|]. split; [lia|]. split; [reflexivity|].
      now apply max_hit_here. }
    assert (Hskip : ids_of [m] = [] ->
              spec (scan_page (collect (R := R)) max_count rest total acc)
                (fun o evs =>
                   exists ids,
                     evs = map EvYield ids
                     /\ (max_count <> 0 ->
                         total + len ids <= Z.max total max_count)
                     /\ match o with
                        | Ret (PageDone total' acc') =>
                            total' = total + len ids /\ acc' = acc ++ ids
                            /\ ids = ids_of (m :: rest)
                            /\ ~ max_hit max_count total (m :: rest)
                        | Ret (Returned acc') =>
                            acc' = acc ++ ids
                            /\ max_hit max_count total (m :: rest)
                        | _ => False
                        end)).
    { intros Hm. eapply spec_conseq; [apply IH|].
      intros o evs (ids & E & Hb & Ho). exists ids.
      split; [exact E|]. split; [exact Hb|].
      destruct o as [[t' a'|a']| |]; auto.
      - destruct Ho as (H1 & H2 & H3 & H4). repeat split; auto.
        + rewrite ids_of_cons, Hm. exact H3.
        + intros Hh. apply H4. apply (max_hit_inv G) in Hh.
          rewrite Hm in Hh. unfold len in Hh. simpl in Hh.
          now rewrite Z.add_0_r in Hh.
      - destruct Ho as (H1 & H2). split; auto.
        apply max_hit_later. rewrite Hm. unfold len. simpl.
        now rewrite Z.add_0_r. }
    destruct (m_id m) as [i|] eqn:Hid;
      [|apply Hskip, ids_of_skipped; now rewrite Hid].
    destruct (truthy_str (Some i)) eqn:Ti;
      [|apply Hskip, ids_of_skipped; now rewrite Hid].
    assert (Hm : ids_of [m] = [i]) by now apply ids_of_yielded.
    apply spec_bind, spec_emit. cbn [then_spec].
    apply spec_bind. unfold collect at 1. apply spec_ret. cbn [then_spec].
    eapply spec_conseq; [apply IH|].
    intros o evs (ids & E & Hb & Ho). exists (i :: ids).
    norm_events. subst evs. split; [reflexivity|].
    assert (Hlen : len (i :: ids) = 1 + len ids)
      by (unfold len; cbn [length]; lia).
    split.
    { intros Hmax. specialize (Hb Hmax).
      apply andb_false_iff in G.
      destruct G as [G|G];
        [apply negb_false_iff, Z.eqb_eq in G; contradiction|].
      rewrite Z.geb_leb in G. apply Z.leb_gt in G. lia. }
    destruct o as [[t' a'|a']| |]; auto.
    + destruct Ho as (H1 & H2 & H3 & H4).
      rewrite <- app_assoc in H2. repeat split; auto; try lia.
      * rewrite ids_of_cons, Hm. simpl. now f_equal.
      * intros Hh. apply H4. apply (max_hit_inv G) in Hh.
        rewrite Hm in Hh. exact Hh.
    + destruct Ho as (H1 & H2). rewrite <- app_assoc in H1.
      split; auto. apply max_hit_later. rewrite Hm. exact H2.
Qed.

(** The page loop under [collect], from any state of the loop. *)
Lemma loop_collect (fuel : nat) :
  forall tok total acc,
    spec (list_message_ids_loop (collect (R := R)) q inc max_count
            fuel tok total acc)
      (fun o evs =>
         (max_count <> 0 ->
          total + len (yields evs) <= Z.max total max_count)
         /\ (max_count = 0 ->
             yields evs = flat_map page_ids (replies evs))
         /\ (o = Diverge -> length (replies evs) = fuel)
         /\ (fuel <> 0%nat -> replies evs <> [])
         /\ (forall ids, o = Ret ids ->
               ids = acc ++ yields evs
               /\ exists pre resp,
                    replies evs = pre ++ [inr resp]
                    /\ (max_count = 0 ->
                        truthy_str (resp_nextPageToken resp) = false))).
Proof.
  induction fuel as [|f IH]; intros tok total acc;
    cbn [list_message_ids_loop].
  - apply spec_diverge. unfold len. simpl.
    repeat split; try lia; try congruence; try discriminate.
  - apply spec_bind, spec_call_list; cbn [then_spec].
    { intros flt. unfold len. simpl.
      repeat split; try lia; try congruence; try discriminate. }
    intros resp. apply spec_bind.
    eapply spec_conseq; [apply scan_collect|].
    intros o evs1 (ids & E1 & Hb & Ho). subst evs1.
    destruct o as [[t' acc'|acc']| |]; cbn [then_spec]; try contradiction.
    + destruct Ho as (Ht & Ha & Hi & Hn).
      destruct (negb (truthy_str (resp_nextPageToken resp))) eqn:Tk.
      * apply negb_true_iff in Tk. apply spec_ret. norm_events.
        rewrite app_nil_r. cbn [yields replies].
        rewrite yields_map_EvYield, replies_map_EvYield.
        split; [exact Hb|]. split.
        { intros _. simpl. now rewrite app_nil_r. }
        split; [discriminate|]. split; [discriminate|].
        intros ids' [= <-]. split; [exact Ha|].
        exists [], resp. auto.
      * eapply spec_conseq; [apply IH|].
        intros o evs2 (Hb2 & Hp2 & Hd2 & _ & Hr2). norm_events.
        cbn [yields replies].
        rewrite yields_app, replies_app, yields_map_EvYield,
          replies_map_EvYield.
        cbn [app]. split.
        { intros Hm. specialize (Hb Hm). specialize (Hb2 Hm).
          unfold len in *. rewrite length_app. lia. }
        split.
        { intros Hm. cbn [flat_map page_ids].
          now rewrite <- Hi, (Hp2 Hm). }
        split; [intros Ho; cbn [length]; now rewrite (Hd2 Ho)|].
        split; [discriminate|].
        intros ids' Ho. destruct (Hr2 ids' Ho) as (Hids & pre & r' & Hp & Hl).
        split; [now rewrite Hids, Ha, <- app_assoc|].
        exists (inr resp :: pre), r'. rewrite Hp. auto.
    + destruct Ho as (Ha & Hh). apply spec_ret. norm_events.
      rewrite app_nil_r. cbn [yields replies].
      rewrite yields_map_EvYield, replies_map_EvYield.
      split; [exact Hb|]. split.
      { intros Hm. destruct Hh as [Hh _]. contradiction. }
      split; [discriminate|]. split; [discriminate|].
      intros ids' [= <-]. split; [exact Ha|].
      exists [], resp. split; [reflexivity|].
      intros Hm. destruct Hh as [Hh _]. contradiction.
Qed.

(** One pass of the page loop: the list call, and whether another one
    follows. *)
Lemma page_loop_spec (fuel : nat) (tok : option string) (total : Z)
    (acc : list string) :
  spec (list_message_ids_loop (collect (R := R)) q inc max_count
          (S fuel) tok total acc)
    (fun o evs =>
       exists reply rest,
         evs = EvList USER_ID q inc tok MAX_RESULTS reply :: rest
         /\ (page_ends_listing max_count total reply ->
             replies rest = [] /\ o <> Diverge)
         /\ (~ page_ends_listing max_count total reply ->
             fuel <> 0%nat -> replies rest <> [])
         /\ (o = Diverge -> length (replies rest) = fuel)).
Proof.
  cbn [list_message_ids_loop].
  apply spec_bind, spec_call_list; cbn [then_spec].
  { intros flt. exists (inl flt), []. simpl.
    repeat split; try discriminate. intros H. now contradiction H. }
  intros resp. apply spec_bind.
  eapply spec_conseq; [apply scan_collect|].
  intros o evs1 (ids & E1 & Hb & Ho). subst evs1.
  destruct o as [[t' acc'|acc']| |]; cbn [then_spec]; try contradiction.
  - destruct Ho as (Ht & Ha & Hi & Hn).
    destruct (negb (truthy_str (resp_nextPageToken resp))) eqn:Tk.
    + apply negb_true_iff in Tk. apply spec_ret.
      exists (inr resp), (map EvYield ids).
      rewrite app_nil_r, replies_map_EvYield.
      repeat split; try discriminate.
      intros H. contradiction H. now left.
    + apply negb_false_iff in Tk.
      eapply spec_conseq; [apply loop_collect|].
      intros o evs2 (_ & _ & Hd2 & Hq2 & _).
      exists (inr resp), (map EvYield ids ++ evs2).
      rewrite replies_app, replies_map_EvYield. cbn [app].
      split; [reflexivity|]. split; [|auto].
      intros [Hf|Hh]; [simpl in Hf; congruence | contradiction].
  - destruct Ho as (Ha & Hh). apply spec_ret.
    exists (inr resp), (map EvYield ids).
    rewrite app_nil_r, replies_map_EvYield.
    repeat split; try discriminate.
    intros H. contradiction H. now right.
Qed.

End Collect.

(** ** The driver below the flush threshold *)

Section BelowThreshold.

Context {R : Type} {service : GmailService R}.

Variable args : Args.

Lemma off_lister_projections (evs : list event) :
  Forall off_lister evs -> replies evs = [] /\ yields evs = [].
Proof.
  induction 1 as [|e evs (Hr & Hy) _ (IHr & IHy)]; [split; reflexivity|].
  change (e :: evs) with ([e] ++ evs).
  now rewrite replies_app, yields_app, Hr, Hy, IHr, IHy.
Qed.

Lemma auth_event_off_lister (e : event) : auth_event e -> off_lister e.
Proof. destruct e; simpl; try contradiction; intros _; split; reflexivity. Qed.

Lemma flush_off_lister (buffered : list string) :
  emits off_lister (flush (R := R) args buffered).
Proof.
  unfold flush. destruct (args_dry_run args).
  { apply emits_emit. split; reflexivity. }
  destruct (chunks buffered (args_batch_size args)) as [gs|];
    [|apply emits_raise].
  apply emits_for_each. apply Forall_forall. intros g _.
  apply emits_bind.
  - unfold process_batch.
    destruct (args_mode args =? "trash")%string;
      [|destruct (args_mode args =? "delete")%string];
      try apply emits_raise;
      apply spec_call_mutation; intros; repeat constructor.
  - intros _. apply spec_sleep; intros; repeat constructor.
Qed.







End BelowThreshold.

(** ** Runs from a fresh trace *)

Section Runs.

Context {R : Type} {service : GmailService R}.

Lemma spec_run {A} (m : M R A) (Q : outcome A -> list event -> Prop) (r : R) :
  spec m Q -> Q (fst (run m r)) (snd (run m r)).
Proof.
  intros H. destruct (H (World r [])) as (evs & Ht & Hq).
  unfold run. simpl in *. now rewrite Ht.
Qed.

Lemma mutations_Forall (P : event -> Prop) (Q : list string -> Prop)
    (evs : list event) :
  (forall e ids, P e -> mutation_ids e = Some ids -> Q ids) ->
  Forall P evs -> Forall Q (mutations evs).
Proof.
  intros HPQ. induction 1 as [|e evs He _ IH]; simpl; [constructor|].
  destruct (mutation_ids e) as [ids|] eqn:E; eauto.
Qed.

Lemma main_returns_accepted
    (fuel : nat) (args : Args) (files : local_files) (w : world R) (u : unit) :
  fst (main fuel args files w) = Ret u -> 1 <= args_batch_size args <= 1000.
Proof.
  unfold main.
  destruct (negb (args_all args) && negb (truthy_str (args_query args)));
    [discriminate|].
  destruct ((1 <=? args_batch_size args) && (args_batch_size args <=? 1000))
    eqn:E; [|discriminate].
  intros _. apply andb_true_iff in E. destruct E as [H1 H2].
  apply Z.leb_le in H1, H2. lia.
Qed.

Lemma dry_run_quiet (args : Args) (evs : list event) :
  args_dry_run args = true ->
  Forall (main_event_ok args) evs -> mutations evs = [].
Proof.
  intros Hdry H.
  assert (HF : Forall (fun _ : list string => False) (mutations evs)).
  { eapply mutations_Forall; [|exact H].
    intros e ids He Hm.
    destruct e; simpl in Hm; try discriminate; simpl in He;
      destruct He as [He _]; congruence. }
  destruct (mutations evs); [reflexivity|]. now inversion HF.
Qed.

End Runs.

(** * Properties of whole runs *)

(** ** The Batcher, element by element *)

Section ChunkIndex.

Variable A : Type.

Lemma groups_nth (n : nat) :
  (0 < n)%nat ->
  forall k fuel (l : list A),
    (k * n < length l)%nat -> (length l <= fuel)%nat ->
    nth_error (groups fuel l n) k = Some (firstn n (skipn (k * n) l)).
Proof.
  intros Hn. induction k as [|k IH]; intros fuel l Hk Hf.
  - destruct fuel as [|f]; [simpl in *; lia|].
    destruct l as [|x l']; [simpl in Hk; lia|]. reflexivity.
  - destruct fuel as [|f]; [simpl in *; lia|].
    destruct l as [|x l']; [simpl in Hk; lia|].
    cbn [groups nth_error]. rewrite IH.
    + rewrite skipn_skipn. do 3 f_equal. lia.
    + rewrite length_skipn. cbn [length] in *. lia.
    + rewrite length_skipn. cbn [length] in *. lia.
Qed.

Lemma groups_nth_none (n : nat) :
  (0 < n)%nat ->
  forall k fuel (l : list A),
    (length l <= k * n)%nat ->
    nth_error (groups fuel l n) k = None.
Proof.
  intros Hn. induction k as [|k IH]; intros fuel l Hk.
  - destruct l; [|simpl in Hk; lia]. now destruct fuel.
  - destruct fuel as [|f]; [reflexivity|].
    destruct l as [|x l']; [reflexivity|].
    cbn [groups nth_error]. apply IH. rewrite length_skipn. lia.
Qed.

End ChunkIndex.

(** X1. For a positive batch size, the element at index [j] of the list
    is the element at index [j mod B] of batch [j / B]; and there is no
    batch [k] once [k * B] reaches the length of the list. *)
Theorem chunks_places_elements (A : Type) (seq : list A) (B : Z) (j : nat) :
  0 < B ->
  exists bs,
    chunks seq B = Some bs
    /\ ((j < length seq)%nat ->
        exists b,
          nth_error bs (j / Z.to_nat B) = Some b
          /\ nth_error b (j mod Z.to_nat B) = nth_error seq j)
    /\ ((length seq <= j * Z.to_nat B)%nat -> nth_error bs j = None).
Proof.
  intros HB. exists (groups (length seq) seq (Z.to_nat B)).
  assert (Hn : (0 < Z.to_nat B)%nat) by lia.
  split; [now apply chunks_groups|]. split.
  - intros Hj. set (n := Z.to_nat B) in *.
    pose proof (Nat.div_mod_eq j n) as Hdm.
    pose proof (Nat.mod_upper_bound j n ltac:(lia)) as Hm.
    exists (firstn n (skipn (j / n * n) seq)). split.
    + apply groups_nth; lia.
    + rewrite nth_error_firstn.
      destruct (j mod n <? n)%nat eqn:E;
        [|apply Nat.ltb_ge in E; lia].
      rewrite nth_error_skipn. f_equal. lia.
  - intros Hj. now apply groups_nth_none.
Qed.

(** ** What the lister yields *)

Section Capped.

Context {R : Type} {service : GmailService R}.

Variable q : option string.
Variable inc : bool.
Variable max_count : Z.

Hypothesis max_set : max_count <> 0.

Lemma scan_collect_capped (msgs : list message) :
  forall total acc,
    spec (scan_page (collect (R := R)) max_count msgs total acc)
      (fun o evs =>
         exists ids,
           evs = map EvYield ids
           /\ ids = firstn (Z.to_nat (max_count - total)) (ids_of msgs)
           /\ match o with
              | Ret (PageDone total' _) =>
                  total' = total + len ids /\ ids = ids_of msgs
              | Ret (Returned _) => True
              | _ => False
              end).
Proof.
  induction msgs as [|m rest IH]; intros total acc; cbn [scan_page].
  - apply spec_ret. exists []. unfold len. simpl.
    rewrite firstn_nil. repeat split. lia.
  - destruct (truthy_int max_count && (total >=? max_count)) eqn:G.
    { apply spec_ret. exists []. apply andb_true_iff in G.
      destruct G as [_ G]. rewrite Z.geb_leb in G. apply Z.leb_le in G.
      replace (Z.to_nat (max_count - total)) with 0%nat by lia.
      repeat split. }
    assert (Hlt : total < max_count).
    { apply andb_false_iff in G. destruct G as [G|G].
      - apply negb_false_iff, Z.eqb_eq in G. contradiction.
      - rewrite Z.geb_leb in G. now apply Z.leb_gt in G. }
    assert (Hskip : ids_of [m] = [] ->
              spec (scan_page (collect (R := R)) max_count rest total acc)
                (fun o evs =>
                   exists ids,
                     evs = map EvYield ids
                     /\ ids = firstn (Z.to_nat (max_count - total))
                                (ids_of (m :: rest))
                     /\ match o with
                        | Ret (PageDone total' _) =>
                            total' = total + len ids
                            /\ ids = ids_of (m :: rest)
                        | Ret (Returned _) => True
                        | _ => False
                        end)).
    { intros Hm. rewrite ids_of_cons, Hm. apply IH. }
    destruct (m_id m) as [i|] eqn:Hid;
      [|apply Hskip, ids_of_skipped; now rewrite Hid].
    destruct (truthy_str (Some i)) eqn:Ti;
      [|apply Hskip, ids_of_skipped; now rewrite Hid].
    apply spec_bind, spec_emit. cbn [then_spec].
    apply spec_bind. unfold collect at 1. apply spec_ret. cbn [then_spec].
    eapply spec_conseq; [apply IH|].
    intros o evs (ids & E & Hf & Ho). exists (i :: ids).
    rewrite ids_of_cons, (ids_of_yielded _ Hid Ti). subst evs.
    split; [reflexivity|]. split.
    { replace (Z.to_nat (max_count - total))
        with (S (Z.to_nat (max_count - (total + 1)))) by lia.
      cbn [app firstn]. now f_equal. }
    destruct o as [[t' a'|a']| |]; auto.
    destruct Ho as [H1 H2]. split.
    + unfold len in *. cbn [length]. lia.
    + cbn [app]. now f_equal.
Qed.

Lemma loop_collect_capped (fuel : nat) :
  forall tok total acc,
    spec (list_message_ids_loop (collect (R := R)) q inc max_count
            fuel tok total acc)
      (fun _ evs =>
         yields evs
         = firstn (Z.to_nat (max_count - total))
             (flat_map page_ids (replies evs))).
Proof.
  induction fuel as [|f IH]; intros tok total acc;
    cbn [list_message_ids_loop].
  - apply spec_diverge. simpl. now rewrite firstn_nil.
  - apply spec_bind, spec_call_list; cbn [then_spec].
    { intros flt. simpl. now rewrite firstn_nil. }
    intros resp. apply spec_bind.
    eapply spec_conseq; [apply scan_collect_capped|].
    intros o evs1 (ids & -> & Hf & Ho).
    assert (Hlast :
              yields (EvList USER_ID q inc tok MAX_RESULTS (inr resp)
                      :: map EvYield ids ++ [])
              = firstn (Z.to_nat (max_count - total))
                  (flat_map page_ids
                     (replies
                        (EvList USER_ID q inc tok MAX_RESULTS (inr resp)
                         :: map EvYield ids ++ [])))).
    { rewrite app_nil_r. cbn [yields replies].
      rewrite yields_map_EvYield, replies_map_EvYield.
      cbn [flat_map page_ids]. now rewrite app_nil_r. }
    destruct o as [[t' acc'|acc']| |]; cbn [then_spec]; try contradiction.
    + destruct Ho as [Ht Hall].
      destruct (negb (truthy_str (resp_nextPageToken resp)));
        [apply spec_ret; exact Hlast|].
      eapply spec_conseq; [apply IH|].
      intros o evs2 H2. norm_events. cbn [yields replies].
      rewrite yields_app, replies_app, yields_map_EvYield,
        replies_map_EvYield.
      cbn [app flat_map page_ids]. rewrite H2, firstn_app, <- Hf, <- Hall.
      f_equal. f_equal.
      assert (Hle : (length ids <= Z.to_nat (max_count - total))%nat).
      { rewrite Hall in Hf. apply (f_equal (@length _)) in Hf.
        rewrite length_firstn in Hf. rewrite Hall. lia. }
      subst t'. unfold len. lia.
    + apply spec_ret. exact Hlast.
Qed.

End Capped.

(** X2. Whatever the remote answers and however the listing ends, the
    lister has yielded the non-empty identifiers of the pages it
    received, in page order, cut at the maximum when one is set: records
    without an identifier are passed over and do not count. *)
Theorem lister_yields_pages_capped
    {R : Type} {service : GmailService R}
    (fuel : nat) (q : option string) (inc : bool) (max_count : Z) (r : R) :
  yields (snd (run (collect_ids fuel q inc max_count) r))
  = capped max_count
      (flat_map page_ids
         (replies (snd (run (collect_ids fuel q inc max_count) r)))).
Proof.
  unfold capped, collect_ids, list_message_ids.
  destruct (max_count =? 0) eqn:E.
  - apply Z.eqb_eq in E.
    destruct (spec_run r (loop_collect q inc max_count fuel None 0 []))
      as (_ & Hp & _).
    exact (Hp E).
  - apply Z.eqb_neq in E.
    pose proof (spec_run r
                  (loop_collect_capped q inc E fuel None 0 [])) as H.
    cbv beta in H. now rewrite Z.sub_0_r in H.
Qed.

(** ** Events around the listing *)

Section Plain.

Context {R : Type} {service : GmailService R}.

Lemma list_calls_app (a b : list event) :
  list_calls (a ++ b) = list_calls a ++ list_calls b.
Proof.
  induction a as [|e a IH]; simpl; [reflexivity|].
  destruct e; simpl; now rewrite IH.
Qed.

Lemma would_process_app (a b : list event) :
  would_process (a ++ b) = would_process a ++ would_process b.
Proof.
  induction a as [|e a IH]; simpl; [reflexivity|].
  destruct e; simpl; try apply IH. destruct line; simpl; now rewrite ?IH.
Qed.

Lemma sleeps_app (a b : list event) : sleeps (a ++ b) = sleeps a ++ sleeps b.
Proof.
  induction a as [|e a IH]; simpl; [reflexivity|].
  destruct e; simpl; now rewrite IH.
Qed.

Lemma hinted_app (a b : list event) :
  hinted (a ++ b) = hinted a || hinted b.
Proof. apply existsb_app. Qed.

Lemma sum_app (a b : list Z) : sum (a ++ b) = sum a + sum b.
Proof. induction a as [|x a IH]; simpl; [reflexivity|]. rewrite IH. lia. Qed.

Lemma after_failed_list_app (a b : list event) :
  after_failed_list (a ++ b)
  = match after_failed_list a with
    | Some (f, post) => Some (f, post ++ b)
    | None => after_failed_list b
    end.
Proof.
  induction a as [|e a IH]; simpl; [reflexivity|].
  destruct e; simpl; try apply IH. now destruct reply.
Qed.

Lemma plain_projections (evs : list event) :
  Forall plain_event evs ->
  list_calls evs = [] /\ yields evs = [] /\ reported evs = []
  /\ hinted evs = false /\ after_failed_list evs = None.
Proof.
  induction 1 as [|e evs (Hl & Hy & Hr & Hh) _ (IHl & IHy & IHr & IHh & IHa)];
    [repeat split|].
  change (e :: evs) with ([e] ++ evs).
  rewrite list_calls_app, yields_app, reported_app, hinted_app,
    after_failed_list_app, IHl, IHy, IHr, IHh, IHa, Hl, Hy, Hr.
  unfold hinted. simpl. rewrite Hh. repeat split.
  destruct e; try reflexivity. discriminate Hl.
Qed.

Lemma loop_body_event_plain (e : event) : loop_body_event e -> plain_event e.
Proof.
  destruct e as [| | | | |line| | | |];
    try destruct line; simpl; try contradiction;
    intros _; repeat split.
Qed.

Lemma auth_event_plain (e : event) : auth_event e -> plain_event e.
Proof.
  destruct e as [| | | | |line| | | |];
    try destruct line; simpl; try contradiction;
    intros _; repeat split.
Qed.

Lemma banner_plain (args : Args) : Forall plain_event (banner args).
Proof. repeat constructor. Qed.

Lemma flush_loop_body_events (args : Args) (buffered : list string) :
  emits loop_body_event (flush (R := R) args buffered).
Proof.
  unfold flush. destruct (args_dry_run args).
  { now apply emits_emit. }
  destruct (chunks buffered (args_batch_size args)) as [gs|];
    [|apply emits_raise].
  apply emits_for_each. apply Forall_forall. intros g _.
  apply emits_bind.
  - unfold process_batch.
    destruct (args_mode args =? "trash")%string;
      [|destruct (args_mode args =? "delete")%string];
      try apply emits_raise;
      apply spec_call_mutation; intros; repeat constructor.
  - intros _. apply spec_sleep; intros; repeat constructor.
Qed.

Lemma main_loop_body_events (args : Args) (i : string)
    (st : list string * Z) :
  emits loop_body_event (main_loop_body (R := R) args i st).
Proof.
  unfold main_loop_body.
  destruct (len (fst st ++ [i]) >=? FLUSH_THRESHOLD); [|apply emits_ret].
  apply emits_bind; [apply flush_loop_body_events|]. intros _.
  apply emits_bind; [now apply emits_emit|]. intros _. apply emits_ret.
Qed.

End Plain.

(** ** Rules that keep track of how a run was left *)

Section LoopRule.

Context {R : Type} {service : GmailService R}.

Variable S : Type.
Variable body : string -> S -> M R S.
Variable q : option string.
Variable inc : bool.
Variable max_count : Z.

Variable I : Z -> S -> list event -> Prop.
Variable E : option exn -> list event -> Prop.

Hypothesis I_list : forall total s evs tok resp,
  I total s evs ->
  I total s (evs ++ [EvList USER_ID q inc tok MAX_RESULTS (inr resp)]).

Hypothesis E_list : forall total s evs tok f,
  I total s evs ->
  E (Some (exn_of_fault f))
    (evs ++ [EvList USER_ID q inc tok MAX_RESULTS (inl f)]).

Hypothesis E_cut : forall total s evs, I total s evs -> E None evs.

Hypothesis body_step : forall total s evs i,
  I total s evs ->
  truthy_int max_count && (total >=? max_count) = false ->
  truthy_str (Some i) = true ->
  spec (body i s) (fun o evs' =>
    match o with
    | Ret s' => I (total + 1) s' (evs ++ EvYield i :: evs')
    | _ => left_by E o (evs ++ EvYield i :: evs')
    end).

Lemma scan_page_left (msgs : list message) :
  forall total s evs,
    I total s evs ->
    spec (scan_page body max_count msgs total s) (fun o evs' =>
      match o with
      | Ret (PageDone total' s') => I total' s' (evs ++ evs')
      | Ret (Returned s') => exists total', I total' s' (evs ++ evs')
      | _ => left_by E o (evs ++ evs')
      end).
Proof.
  induction msgs as [|m rest IH]; intros total s evs HI; cbn [scan_page].
  - apply spec_ret. now rewrite app_nil_r.
  - destruct (truthy_int max_count && (total >=? max_count)) eqn:G.
    { apply spec_ret. rewrite app_nil_r. eauto. }
    destruct (m_id m) as [i|]; [|now apply IH].
    destruct (truthy_str (Some i)) eqn:Ti; [|now apply IH].
    apply spec_bind, spec_emit. cbn [then_spec].
    apply spec_bind.
    eapply spec_conseq; [eapply body_step; eassumption|].
    intros [s'| |] evs1 H1; cbn [then_spec app]; auto.
    eapply spec_conseq; [eapply IH; eassumption|].
    intros o evs2 H2. cbv beta in H2. rewrite <- app_assoc in H2.
    destruct o as [[]| |]; exact H2.
Qed.

Lemma list_message_ids_loop_left (fuel : nat) :
  forall tok total s evs,
    I total s evs ->
    spec (list_message_ids_loop body q inc max_count fuel tok total s)
      (fun o evs' =>
         match o with
         | Ret s' => exists total', I total' s' (evs ++ evs')
         | _ => left_by E o (evs ++ evs')
         end).
Proof.
  induction fuel as [|f IH]; intros tok total s evs HI;
    cbn [list_message_ids_loop].
  - apply spec_diverge. rewrite app_nil_r. simpl. eauto.
  - apply spec_bind, spec_call_list; cbn [then_spec].
    { intros flt. simpl. eauto. }
    intros resp. apply spec_bind.
    eapply spec_conseq;
      [eapply scan_page_left,
         I_list with (tok := tok) (resp := resp); eassumption|].
    intros o evs1 H1. norm_events_in H1.
    destruct o as [[total' s'|s']| |]; cbn [then_spec]; norm_events;
      try assumption.
    + destruct (negb (truthy_str (resp_nextPageToken resp))).
      * apply spec_ret. rewrite app_nil_r. eauto.
      * eapply spec_conseq; [eapply IH; eassumption|].
        intros o evs2 H2. norm_events_in H2. norm_events.
        destruct o; exact H2.
    + apply spec_ret. now rewrite app_nil_r.
Qed.

End LoopRule.

Section AuthRule.

Context {R : Type} {service : GmailService R}.

Variable fuel : nat.
Variable args : Args.
Variable files : local_files.

(** [A] holds of [get_service], [Pre] before the listing, [I] after it
    on the loop's final state, [F] when [main] returns; [E] when the [try]
    block is left otherwise, [G] when [main] is. *)
Variable A : outcome unit -> list event -> Prop.
Variable Pre : list event -> Prop.
Variable I : list string * Z -> list event -> Prop.
Variable E : option exn -> list event -> Prop.
Variable F : list event -> Prop.
Variable G : option exn -> list event -> Prop.

Hypothesis G_need :
  args_all args = false -> truthy_str (args_query args) = false ->
  G (Some (SystemExit 2)) [EvPrint OutNeedTarget].

Hypothesis G_size :
  ~ 1 <= args_batch_size args <= 1000 ->
  G (Some (SystemExit 2)) [EvPrint OutBadBatchSize].

Hypothesis H_auth : spec (get_service files) A.

Hypothesis Pre_start : forall evs0,
  args_accepted args = true -> A (Ret tt) evs0 ->
  Pre (banner args ++ evs0).

Hypothesis E_auth : forall o evs0,
  args_accepted args = true -> A o evs0 ->
  left_by E o (banner args ++ evs0).

Hypothesis H_loop : forall evs,
  args_accepted args = true -> Pre evs ->
  spec (list_message_ids (main_loop_body args)
          (if args_all args then None else args_query args)
          (args_include_spam_trash args) (args_max args) fuel ([], 0))
    (fun o evs' =>
       match o with
       | Ret st => I st (evs ++ evs')
       | _ => left_by E o (evs ++ evs')
       end).

Hypothesis H_after : forall st evs,
  args_accepted args = true -> I st evs ->
  spec (after_loop args st) (fun o evs' =>
    match o with
    | Ret _ => F (evs ++ evs')
    | _ => left_by E o (evs ++ evs')
    end).

Hypothesis G_http : forall evs,
  E (Some HttpError) evs ->
  G (Some (SystemExit 1)) (evs ++ [EvPrint OutApiError]).

Hypothesis G_interrupt : forall evs,
  E (Some KeyboardInterrupt) evs ->
  G (Some (SystemExit 130)) (evs ++ [EvPrint OutInterrupted]).

Hypothesis G_other : forall e evs,
  E (Some e) evs -> e <> HttpError -> e <> KeyboardInterrupt ->
  G (Some e) evs.

Hypothesis G_cut : forall evs, E None evs -> G None evs.

Lemma main_rule_auth :
  spec (main fuel args files) (fun o evs =>
    match o with
    | Ret _ => F evs
    | _ => left_by G o evs
    end).
Proof.
  unfold main.
  destruct (negb (args_all args) && negb (truthy_str (args_query args)))
    eqn:Ht.
  { apply andb_true_iff in Ht. destruct Ht as [Ha Hq].
    apply negb_true_iff in Ha, Hq.
    apply spec_print_then, spec_raise. simpl. auto. }
  destruct ((1 <=? args_batch_size args) && (args_batch_size args <=? 1000))
    eqn:HB; cbn [negb].
  2:{ apply spec_print_then, spec_raise. simpl. apply G_size.
      intros [H1 H2]. apply Z.leb_le in H1, H2.
      rewrite H1, H2 in HB. discriminate. }
  assert (Hacc : args_accepted args = true).
  { unfold args_accepted. apply andb_true_iff in HB. destruct HB as [H1 H2].
    rewrite H1, H2.
    destruct (args_all args), (truthy_str (args_query args));
      simpl in *; congruence. }
  do 3 apply spec_print_then.
  assert (Hhandler : forall (o : outcome unit) evs,
            match o with
            | Ret _ => F (banner args ++ evs)
            | _ => left_by E o (banner args ++ evs)
            end ->
            except_spec (main_handler (R := R))
              (fun o' evs' =>
                 match o' with
                 | Ret _ => F (banner args ++ evs')
                 | _ => left_by G o' (banner args ++ evs')
                 end) o evs).
  { intros [[]|e|] evs H; cbn [except_spec left_by] in *; auto.
    destruct e; cbn [main_handler];
      try (apply G_other; [exact H | discriminate | discriminate]).
    - apply spec_print_then, spec_raise. cbn [left_by].
      rewrite app_assoc. now apply G_http.
    - apply spec_print_then, spec_raise. cbn [left_by].
      rewrite app_assoc. now apply G_interrupt. }
  apply spec_try_except.
  eapply spec_conseq with
    (Q := except_spec (main_handler (R := R))
            (fun o' evs' =>
               match o' with
               | Ret _ => F (banner args ++ evs')
               | _ => left_by G o' (banner args ++ evs')
               end)).
  2:{ intros o evs H. destruct o as [[]|e|]; cbn [except_spec] in *.
      - exact H.
      - destruct (main_handler e); [|exact H].
        eapply spec_conseq; [exact H|]. intros o' evs' H'. exact H'.
      - exact H. }
  apply spec_bind.
  eapply spec_conseq; [apply H_auth|].
  intros o evs0 H0.
  destruct o as [[]|e|]; cbn [then_spec].
  2:{ apply Hhandler. exact (E_auth Hacc H0). }
  2:{ apply Hhandler. exact (E_auth Hacc H0). }
  apply spec_bind.
  eapply spec_conseq; [apply (H_loop Hacc (Pre_start Hacc H0))|].
  intros o evs1 H1.
  destruct o as [st|e|]; cbn [then_spec].
  2:{ apply Hhandler. cbn [left_by] in *. now rewrite <- app_assoc in H1. }
  2:{ apply Hhandler. cbn [left_by] in *. now rewrite <- app_assoc in H1. }
  eapply spec_conseq; [apply (H_after Hacc H1)|].
  intros o evs2 H2. apply Hhandler.
  rewrite <- !app_assoc in H2. destruct o as [[]| |]; exact H2.
Qed.

End AuthRule.

Section MainRule.

Context {R : Type} {service : GmailService R}.

Variable fuel : nat.
Variable args : Args.
Variable files : local_files.

Lemma get_service_outcome :
  spec (get_service files) (fun o evs =>
    Forall auth_event evs
    /\ match o with
       | Ret _ => True
       | Raise e =>
           e = SystemExit 1 \/ e = KeyboardInterrupt \/ e = OtherError
           \/ e = ValueError
       | Diverge => False
       end).
Proof.
  assert (Hstep : forall ev op (Q : outcome unit -> list event -> Prop),
            (forall e,
               e = KeyboardInterrupt \/ e = OtherError -> Q (Raise e) [ev]) ->
            Q (Ret tt) [ev] -> spec (call_auth (R := R) ev op) Q).
  { intros ev op Q Hf Hr. apply spec_call_auth; [|exact Hr].
    intros f. apply Hf. destruct f; auto. }
  unfold get_service.
  repeat first [spec_step | apply Hstep; [intros e He|]; cbn [then_spec]].
  all: split; [simpl; repeat constructor | tauto].
Qed.

(** [Pre] holds before the listing, [I] after it on the loop's final
    state, [F] when [main] returns; [E] when the [try] block is left
    otherwise, [G] when [main] is. *)
Variable Pre : list event -> Prop.
Variable I : list string * Z -> list event -> Prop.
Variable E : option exn -> list event -> Prop.
Variable F : list event -> Prop.
Variable G : option exn -> list event -> Prop.

Hypothesis G_need :
  args_all args = false -> truthy_str (args_query args) = false ->
  G (Some (SystemExit 2)) [EvPrint OutNeedTarget].

Hypothesis G_size :
  ~ 1 <= args_batch_size args <= 1000 ->
  G (Some (SystemExit 2)) [EvPrint OutBadBatchSize].

Hypothesis Pre_start : forall evs0,
  args_accepted args = true -> Forall auth_event evs0 ->
  Pre (banner args ++ evs0).

Hypothesis E_auth : forall evs0 e,
  args_accepted args = true -> Forall auth_event evs0 ->
  e = SystemExit 1 \/ e = KeyboardInterrupt \/ e = OtherError
  \/ e = ValueError ->
  E (Some e) (banner args ++ evs0).

Hypothesis H_loop : forall evs,
  args_accepted args = true -> Pre evs ->
  spec (list_message_ids (main_loop_body args)
          (if args_all args then None else args_query args)
          (args_include_spam_trash args) (args_max args) fuel ([], 0))
    (fun o evs' =>
       match o with
       | Ret st => I st (evs ++ evs')
       | _ => left_by E o (evs ++ evs')
       end).

Hypothesis H_after : forall st evs,
  args_accepted args = true -> I st evs ->
  spec (after_loop args st) (fun o evs' =>
    match o with
    | Ret _ => F (evs ++ evs')
    | _ => left_by E o (evs ++ evs')
    end).

Hypothesis G_http : forall evs,
  E (Some HttpError) evs ->
  G (Some (SystemExit 1)) (evs ++ [EvPrint OutApiError]).

Hypothesis G_interrupt : forall evs,
  E (Some KeyboardInterrupt) evs ->
  G (Some (SystemExit 130)) (evs ++ [EvPrint OutInterrupted]).

Hypothesis G_other : forall e evs,
  E (Some e) evs -> e <> HttpError -> e <> KeyboardInterrupt ->
  G (Some e) evs.

Hypothesis G_cut : forall evs, E None evs -> G None evs.

Lemma main_rule :
  spec (main fuel args files) (fun o evs =>
    match o with
    | Ret _ => F evs
    | _ => left_by G o evs
    end).
Proof.
  eapply main_rule_auth with
    (A := fun o evs =>
            Forall auth_event evs
            /\ match o with
               | Ret _ => True
               | Raise e =>
                   e = SystemExit 1 \/ e = KeyboardInterrupt
                   \/ e = OtherError \/ e = ValueError
               | Diverge => False
               end)
    (Pre := Pre) (I := I) (E := E); eauto.
  - apply get_service_outcome.
  - intros evs0 Hacc [H0 _]. auto.
  - intros [[]|e|] evs0 Hacc [H0 Ho]; cbn [left_by]; auto. contradiction.
Qed.

End MainRule.

(** ** The trace of a flush *)

Section FlushTrace.

Context {R : Type} {service : GmailService R}.

Variable args : Args.

Lemma process_batch_accepted (g : list string)
    (Q : outcome unit -> list event -> Prop) :
  mode_accepted (args_mode args) ->
  (forall f, Q (Raise (exn_of_fault f)) [mutation_call (args_mode args) g]) ->
  Q (Ret tt) [mutation_call (args_mode args) g] ->
  spec (process_batch (R := R) g (args_mode args)) Q.
Proof.
  intros Hmode Hf Hr. unfold process_batch, mutation_call in *.
  destruct (args_mode args =? "trash")%string eqn:Et.
  { now apply spec_call_mutation. }
  destruct (args_mode args =? "delete")%string eqn:Ed.
  { now apply spec_call_mutation. }
  apply String.eqb_neq in Et, Ed. destruct Hmode; contradiction.
Qed.

Lemma process_batch_refused (g : list string) :
  ~ mode_accepted (args_mode args) ->
  process_batch (R := R) g (args_mode args) = raise ValueError.
Proof.
  intros Hmode. unfold process_batch.
  destruct (args_mode args =? "trash")%string eqn:Et.
  { apply String.eqb_eq in Et. contradiction Hmode. now left. }
  destruct (args_mode args =? "delete")%string eqn:Ed.
  { apply String.eqb_eq in Ed. contradiction Hmode. now right. }
  reflexivity.
Qed.

Lemma mode_accepted_dec :
  mode_accepted (args_mode args) \/ ~ mode_accepted (args_mode args).
Proof.
  unfold mode_accepted.
  destruct (String.eqb_spec (args_mode args) "trash");
    destruct (String.eqb_spec (args_mode args) "delete"); tauto.
Qed.

Lemma for_each_batches_trace (gs : list (list string)) :
  spec (for_each gs (fun g =>
          process_batch (R := R) g (args_mode args) ;;
          sleep (args_sleep_ms args)))
    (batches_trace args gs).
Proof.
  induction gs as [|g gs IH]; cbn [for_each].
  { apply spec_ret. exists [], []. simpl. auto. }
  destruct mode_accepted_dec as [Hmode|Hmode].
  2:{ rewrite (process_batch_refused g Hmode).
      apply spec_bind, spec_bind, spec_raise. cbn [then_spec].
      exists [], (g :: gs). simpl. split; [reflexivity|]. split; [auto|].
      left. repeat split; auto. discriminate. }
  apply spec_bind, spec_bind, process_batch_accepted; auto;
    cbn [then_spec].
  { intros f. exists [], (g :: gs). simpl.
    split; [reflexivity|]. split; [auto|]. right.
    exists g, gs. repeat split; eauto. }
  apply spec_sleep; cbn [then_spec].
  { intros Hneg. exists [], (g :: gs). simpl.
    split; [reflexivity|]. split; [auto|]. right.
    exists g, gs. repeat split; eauto. }
  { intros Hbig. exists [], (g :: gs). simpl.
    split; [reflexivity|]. split; [auto|]. right.
    exists g, gs. repeat split; auto. left. now exists RemoteOther. }
  intros [Hms _]. eapply spec_conseq; [apply IH|].
  intros o evs (done & rest & Hgs & Hd & Ho).
  exists (g :: done), rest. subst gs. split; [reflexivity|].
  split; [auto|].
  destruct o as [[]|e|]; auto.
  - destruct Ho as [-> ->]. auto.
  - destruct Ho as [(Hr & Hn & He & Hevs)|(g' & rest' & Hr & Hm & Hevs & He)].
    + contradiction.
    + right. exists g', rest'. subst evs. repeat split; auto.
Qed.

Lemma flush_has_trace (buffered : list string) :
  spec (flush (R := R) args buffered) (flush_trace args buffered).
Proof.
  unfold flush, flush_trace. destruct (args_dry_run args).
  { apply spec_emit. auto. }
  destruct (chunks buffered (args_batch_size args)) as [gs|].
  - apply for_each_batches_trace.
  - apply spec_raise. auto.
Qed.

Lemma main_loop_body_has_trace (i : string) (st : list string * Z) :
  spec (main_loop_body (R := R) args i st) (body_trace args i st).
Proof.
  unfold main_loop_body, body_trace.
  destruct (len (fst st ++ [i]) >=? FLUSH_THRESHOLD);
    [|apply spec_ret; auto].
  apply spec_bind.
  eapply spec_conseq; [apply flush_has_trace|].
  intros o evs H. destruct o as [[]|e|]; cbn [then_spec].
  - apply spec_print_then, spec_ret.
    exists (Ret tt), evs. auto.
  - exists (Raise e), evs. auto.
  - exists Diverge, evs. split; [exact H|].
    unfold flush_trace, batches_trace in H.
    destruct (args_dry_run args); [destruct H; discriminate|].
    destruct (chunks _ _); [|destruct H; discriminate].
    now destruct H as (d & r' & _ & _ & H).
Qed.

Lemma after_loop_has_trace (st : list string * Z) :
  spec (after_loop (R := R) args st) (after_trace args st).
Proof.
  unfold after_loop, after_trace. apply spec_bind.
  eapply spec_conseq with
    (Q := fun o evs =>
            if negb (len (fst st) =? 0)
            then flush_trace args (fst st) o evs
            else o = Ret tt /\ evs = []).
  { destruct (negb (len (fst st) =? 0));
      [apply flush_has_trace | apply spec_ret; auto]. }
  intros o evs H. destruct o as [[]|e|]; cbn [then_spec].
  - apply spec_print_then.
    destruct (args_mode args =? "trash")%string;
      [apply spec_emit | apply spec_ret];
      exists (Ret tt), evs; auto.
  - exists (Raise e), evs. auto.
  - exists Diverge, evs. split; [exact H|].
    destruct (negb (len (fst st) =? 0)); [|destruct H; discriminate].
    unfold flush_trace, batches_trace in H.
    destruct (args_dry_run args); [destruct H; discriminate|].
    destruct (chunks _ _); [|destruct H; discriminate].
    now destruct H as (d & r' & _ & _ & H).
Qed.

End FlushTrace.

(** ** How a run of main ends *)

Section ExitStatus.

Context {R : Type} {service : GmailService R}.

Variable args : Args.

Lemma flush_trace_raises (b : list string) (e : exn) (evs : list event) :
  flush_trace args b (Raise e) evs ->
  e = ValueError \/ exists f, e = exn_of_fault f.
Proof.
  unfold flush_trace, batches_trace.
  destruct (args_dry_run args); [intros [H _]; discriminate|].
  destruct (chunks b (args_batch_size args)).
  - intros (d & r' & _ & _ & [(_ & _ & -> & _)|(g & r'' & _ & _ & _ & H)]);
      [now left|].
    destruct H as [H|[-> _]]; auto.
  - intros [[= <-] _]. now left.
Qed.

Lemma flush_trace_ends (b : list string) (evs : list event) :
  ~ flush_trace args b Diverge evs.
Proof.
  unfold flush_trace, batches_trace.
  destruct (args_dry_run args); [intros [H _]; discriminate|].
  destruct (chunks b (args_batch_size args)).
  - now intros (d & r' & _ & _ & H).
  - intros [H _]. discriminate.
Qed.

Lemma body_trace_raises (i : string) (st : list string * Z) (e : exn)
    (evs : list event) :
  body_trace args i st (Raise e) evs ->
  e = ValueError \/ exists f, e = exn_of_fault f.
Proof.
  unfold body_trace. destruct (_ >=? _); [|intros [H _]; discriminate].
  intros (o & evs' & Hf & Ho). destruct o as [[]|e'|].
  - destruct Ho. discriminate.
  - destruct Ho as [[= <-] _]. eapply flush_trace_raises; eauto.
  - contradiction.
Qed.

Lemma body_trace_ends (i : string) (st : list string * Z)
    (evs : list event) :
  ~ body_trace args i st Diverge evs.
Proof.
  unfold body_trace. destruct (_ >=? _); [|intros [H _]; discriminate].
  intros (o & evs' & Hf & Ho).
  destruct o as [[]|e'|]; try destruct Ho; try discriminate.
Qed.

Lemma after_trace_raises (st : list string * Z) (e : exn)
    (evs : list event) :
  after_trace args st (Raise e) evs ->
  e = ValueError \/ exists f, e = exn_of_fault f.
Proof.
  intros (o & evs' & Hf & Ho). destruct o as [[]|e'|].
  - destruct Ho. discriminate.
  - destruct Ho as [[= <-] _].
    destruct (negb _); [|destruct Hf; discriminate].
    eapply flush_trace_raises; eauto.
  - contradiction.
Qed.

Lemma after_trace_ends (st : list string * Z) (evs : list event) :
  ~ after_trace args st Diverge evs.
Proof.
  intros (o & evs' & Hf & Ho).
  destruct o as [[]|e'|]; try destruct Ho; try discriminate.
Qed.

Lemma raised_in_try (e : exn) :
  e = ValueError \/ (exists f, e = exn_of_fault f) -> try_may_raise e.
Proof. intros [->|[[] ->]]; exact I. Qed.

Lemma main_raises (fuel : nat) (files : local_files) :
  spec (main (R := R) fuel args files) (fun o _ =>
    match o with
    | Ret _ => args_accepted args = true
    | Raise e => main_may_raise args e
    | Diverge => args_accepted args = true
    end).
Proof.
  eapply spec_conseq.
  { eapply main_rule with
      (Pre := fun _ => True)
      (I := fun _ _ => True)
      (E := fun oe _ =>
              args_accepted args = true
              /\ match oe with Some e => try_may_raise e | None => True end)
      (F := fun _ => args_accepted args = true)
      (G := fun oe _ =>
              match oe with
              | Some e => main_may_raise args e
              | None => args_accepted args = true
              end).
    - intros Ha Hq. simpl. left. split; [reflexivity|].
      unfold args_accepted. now rewrite Ha, Hq.
    - intros HB. simpl. left. split; [reflexivity|].
      unfold args_accepted.
      destruct (1 <=? args_batch_size args) eqn:H1;
        [|now rewrite andb_false_r].
      destruct (args_batch_size args <=? 1000) eqn:H2;
        [|now rewrite andb_false_r].
      apply Z.leb_le in H1, H2. lia.
    - auto.
    - intros evs0 e Hacc _ [->|[->|[->| ->]]]; simpl; auto.
    - intros evs Hacc _. unfold list_message_ids.
      eapply spec_conseq.
      { eapply list_message_ids_loop_left with
          (I := fun _ _ _ => True)
          (E := fun oe _ =>
                  args_accepted args = true
                  /\ match oe with
                     | Some e => try_may_raise e
                     | None => True
                     end)
          (evs := evs); auto.
        - intros total s evs' tok f _. split; [exact Hacc|].
          now destruct f.
        - intros total s evs' i _ _ _.
          eapply spec_conseq; [apply main_loop_body_has_trace|].
          intros [st'|e|] evs1 H; auto.
          + split; [exact Hacc|].
            apply raised_in_try. eapply body_trace_raises; eauto.
          + now apply body_trace_ends in H. }
      intros [st| |] evs' H; auto.
    - intros st evs Hacc _.
      eapply spec_conseq; [apply after_loop_has_trace|].
      intros [[]|e|] evs1 H; auto.
      + split; [exact Hacc|].
        apply raised_in_try. eapply after_trace_raises; eauto.
      + now apply after_trace_ends in H.
    - intros evs [Hacc _]. simpl. auto.
    - intros evs [Hacc _]. simpl. auto.
    - intros e evs [Hacc He] H1 H2.
      destruct e; simpl in *; auto; try contradiction; subst; auto.
    - intros evs [Hacc _]. exact Hacc. }
  intros [[]|e|] evs H; exact H.
Qed.

End ExitStatus.

(** X3. The program, from the parsing of the command line on, ends with
    status 0, 1, 2 or 130 when it ends.  The status is 2 exactly when the
    command line is refused: by the parser (an option it does not know, a
    value that is no integer, a [--mode] outside its choices) or by the
    two checks of [main] (neither [--all] nor a non-empty [--query], a
    batch size outside 1..1000).  A request for help prints the help and
    ends with status 0 before anything else.  And an API error never
    leaves [main] as an exception. *)
Theorem main_exit_status
    {R : Type} {service : GmailService R}
    (fuel : nat) (cmd : command_line) (files : local_files) (r : R) :
  (forall c,
     exit_code (fst (run (purge_gmail fuel cmd files) r)) = Some c ->
     c = 0 \/ c = 1 \/ c = 2 \/ c = 130)
  /\ (exit_code (fst (run (purge_gmail fuel cmd files) r)) = Some 2
      <-> refused cmd = true)
  /\ (cmd = AskHelp ->
      run (purge_gmail fuel cmd files) r
      = (Raise (SystemExit 0), [EvPrint OutHelp]))
  /\ fst (run (purge_gmail fuel cmd files) r) <> Raise HttpError.
Proof.
  destruct cmd as [| |args]; cbn [refused].
  - unfold run. cbn.
    split; [intros c [= <-]; auto|].
    split; [split; discriminate|]. split; [reflexivity | discriminate].
  - unfold run. cbn.
    split; [intros c [= <-]; auto|].
    split; [split; reflexivity|]. split; discriminate.
  - destruct (existsb (String.eqb (args_mode args)) MODE_CHOICES) eqn:Em.
    2:{ unfold run, purge_gmail, parse_args. rewrite Em. cbn.
        split; [intros c [= <-]; auto|].
        split; [split; reflexivity|]. split; discriminate. }
    assert (E : run (purge_gmail fuel (Options args) files) r
                = run (main fuel args files) r).
    { unfold run, purge_gmail, parse_args. rewrite Em. reflexivity. }
    rewrite E. cbn [negb orb].
    pose proof (spec_run r (main_raises args fuel files)) as H.
    destruct (fst (run (main fuel args files) r)) as [[]|e|];
      cbn [exit_code].
    + rewrite H. split; [intros c [= <-]; auto|].
      split; [split; discriminate|]. split; discriminate.
    + destruct e; simpl in H; try contradiction.
      * rewrite H. split; [intros c [= <-]; auto|].
        split; [split; discriminate|]. split; discriminate.
      * split; [intros c [= <-]; intuition lia|].
        split; [|split; discriminate].
        split.
        -- intros [= ->]. destruct H as [[_ H]|[[H|H] _]];
             [now rewrite H | discriminate | discriminate].
        -- intros Hn. apply negb_true_iff in Hn.
           destruct H as [[-> _]|[_ H]]; congruence.
      * rewrite H. split; [intros c [= <-]; auto|].
        split; [split; discriminate|]. split; discriminate.
    + rewrite H. split; [discriminate|].
      split; [split; discriminate|]. split; discriminate.
Qed.

(** ** Readings of the trace of a flush *)

Section Readings.

Variable args : Args.

Lemma mutation_call_ids (mode : string) (g : list string) :
  mutation_ids (mutation_call mode g) = Some g.
Proof. unfold mutation_call. now destruct (mode =? "trash")%string. Qed.

Lemma mutation_call_body_event (mode : string) (g : list string) :
  loop_body_event (mutation_call mode g).
Proof. unfold mutation_call. now destruct (mode =? "trash")%string. Qed.

Lemma mutation_call_readings (mode : string) (g : list string) :
  mutations [mutation_call mode g] = [g]
  /\ sleeps [mutation_call mode g] = []
  /\ would_process [mutation_call mode g] = [].
Proof. unfold mutation_call. now destruct (mode =? "trash")%string. Qed.

Lemma batch_events_readings (done : list (list string)) :
  mutations (flat_map (batch_events args) done) = done
  /\ sleeps (flat_map (batch_events args) done)
     = repeat (args_sleep_ms args) (length done)
  /\ would_process (flat_map (batch_events args) done) = []
  /\ Forall loop_body_event (flat_map (batch_events args) done).
Proof.
  induction done as [|g done (IHm & IHs & IHw & IHe)]; [repeat split; constructor|].
  cbn [flat_map batch_events app length repeat].
  destruct (mutation_call_readings (args_mode args) g) as (Hm & Hs & Hw).
  change (mutation_call (args_mode args) g
          :: EvSleep (args_sleep_ms args)
          :: flat_map (batch_events args) done)
    with ([mutation_call (args_mode args) g]
          ++ EvSleep (args_sleep_ms args)
             :: flat_map (batch_events args) done).
  rewrite mutations_app, sleeps_app, would_process_app, Hm, Hs, Hw.
  cbn [app mutations mutation_ids sleeps would_process].
  rewrite IHm, IHs, IHw. repeat split.
  constructor; [apply mutation_call_body_event|].
  constructor; [exact I | exact IHe].
Qed.

Lemma batches_trace_events (gs : list (list string)) (o : outcome unit)
    (evs : list event) :
  batches_trace args gs o evs -> Forall loop_body_event evs.
Proof.
  intros (done & rest & _ & _ & Ho).
  destruct (batch_events_readings done) as (_ & _ & _ & He).
  destruct o as [[]|e|]; [| |contradiction].
  - destruct Ho as [_ ->]. exact He.
  - destruct Ho as [(_ & _ & _ & ->)|(g & r' & _ & _ & -> & _)];
      [exact He|].
    apply Forall_app. split; [exact He|].
    constructor; [apply mutation_call_body_event | constructor].
Qed.

Lemma flush_trace_events (b : list string) (o : outcome unit)
    (evs : list event) :
  flush_trace args b o evs -> Forall loop_body_event evs.
Proof.
  unfold flush_trace. destruct (args_dry_run args).
  { intros [_ ->]. repeat constructor. }
  destruct (chunks b (args_batch_size args)).
  - apply batches_trace_events.
  - intros [_ ->]. constructor.
Qed.

Lemma flush_trace_would_process (b : list string) (o : outcome unit)
    (evs : list event) :
  flush_trace args b o evs ->
  would_process evs = if args_dry_run args then [len b] else [].
Proof.
  unfold flush_trace. destruct (args_dry_run args).
  { now intros [_ ->]. }
  destruct (chunks b (args_batch_size args)).
  - intros (done & rest & _ & _ & Ho).
    destruct (batch_events_readings done) as (_ & _ & Hw & _).
    destruct o as [[]|e|]; [| |contradiction].
    + now destruct Ho as [_ ->].
    + destruct Ho as [(_ & _ & _ & ->)|(g & r' & _ & _ & -> & _)];
        [exact Hw|].
      rewrite would_process_app, Hw.
      now destruct (mutation_call_readings (args_mode args) g) as (_ & _ & ->).
  - now intros [_ ->].
Qed.

Lemma body_trace_events (i : string) (st : list string * Z)
    (o : outcome (list string * Z)) (evs : list event) :
  body_trace args i st o evs -> Forall loop_body_event evs.
Proof.
  unfold body_trace. destruct (_ >=? _); [|intros [_ ->]; constructor].
  intros (o' & evs' & Hf & Ho). apply flush_trace_events in Hf.
  destruct o' as [[]|e|]; [| |contradiction].
  - destruct Ho as [_ ->]. apply Forall_app. split; [exact Hf|].
    repeat constructor.
  - now destruct Ho as [_ ->].
Qed.

End Readings.

(** ** The order of the listing calls *)

Section Chained.

Context {R : Type} {service : GmailService R}.

Lemma off_lister_calls (evs : list event) :
  Forall off_lister evs ->
  list_calls evs = [] /\ after_failed_list evs = None /\ yields evs = [].
Proof.
  induction 1 as [|e evs (Hr & Hy) _ (IHl & IHa & IHy)]; [repeat split|].
  change (e :: evs) with ([e] ++ evs).
  rewrite list_calls_app, after_failed_list_app, yields_app, IHl, IHa, IHy, Hy.
  destruct e; try discriminate Hr; repeat split.
Qed.

Lemma plain_event_off_lister (e : event) : plain_event e -> off_lister e.
Proof.
  intros (Hl & Hy & _). split; [|exact Hy].
  destruct e; try reflexivity. discriminate Hl.
Qed.

Lemma main_loop_body_off_lister (args : Args) (i : string)
    (st : list string * Z) :
  emits off_lister (main_loop_body (R := R) args i st).
Proof.
  eapply emits_weaken; [apply main_loop_body_events|].
  intros e He. now apply plain_event_off_lister, loop_body_event_plain.
Qed.

Lemma after_loop_off_lister (args : Args) (st : list string * Z) :
  emits off_lister (after_loop (R := R) args st).
Proof.
  unfold after_loop. apply emits_bind.
  { destruct (negb (len (fst st) =? 0)); [|apply emits_ret].
    apply flush_off_lister. }
  intros _. apply emits_bind; [now apply emits_emit|]. intros _.
  destruct (args_mode args =? "trash")%string;
    [now apply emits_emit | apply emits_ret].
Qed.

Section Loop.

Variable S : Type.
Variable body : string -> S -> M R S.
Variable q : option string.
Variable inc : bool.
Variable max_count : Z.

Hypothesis body_off_lister : forall i s, emits off_lister (body i s).

Lemma scan_page_no_calls (msgs : list message) (total : Z) (s : S) :
  spec (scan_page body max_count msgs total s)
    (fun _ evs => list_calls evs = []).
Proof.
  eapply spec_conseq.
  { apply emits_scan_page with (P := fun e => list_calls [e] = []).
    - reflexivity.
    - intros i s'. eapply emits_weaken; [apply body_off_lister|].
      intros e [Hr _]. destruct e; try reflexivity. discriminate Hr. }
  intros o evs H. cbv beta in H.
  induction H as [|e evs He _ IH]; [reflexivity|].
  change (e :: evs) with ([e] ++ evs). now rewrite list_calls_app, He, IH.
Qed.

Lemma loop_chained (fuel : nat) :
  forall tok total s,
    spec (list_message_ids_loop body q inc max_count fuel tok total s)
      (fun _ evs => chained tok (list_calls evs)).
Proof.
  induction fuel as [|f IH]; intros tok total s;
    cbn [list_message_ids_loop].
  - apply spec_diverge. exact I.
  - apply spec_bind, spec_call_list; cbn [then_spec].
    { intros flt. simpl. auto. }
    intros resp. apply spec_bind.
    eapply spec_conseq; [apply scan_page_no_calls|].
    intros o evs1 H1.
    assert (Hone : forall evs2,
              list_calls evs2 = [] ->
              chained tok
                (list_calls
                   (EvList USER_ID q inc tok MAX_RESULTS (inr resp)
                    :: evs1 ++ evs2))).
    { intros evs2 H2. cbn [list_calls]. rewrite list_calls_app, H1, H2.
      simpl. auto. }
    destruct o as [[total' s'|s']| |]; cbn [then_spec];
      try (specialize (Hone [] eq_refl); now rewrite app_nil_r in Hone).
    + destruct (negb (truthy_str (resp_nextPageToken resp))) eqn:Tk;
        [apply spec_ret; now apply Hone|].
      apply negb_false_iff in Tk.
      eapply spec_conseq; [apply IH|].
      intros o evs2 H2. norm_events. cbn [list_calls].
      rewrite list_calls_app, H1. cbn [app chained].
      split; [reflexivity|].
      destruct (list_calls evs2) eqn:El; [exact I|].
      split; [exact Tk | now rewrite <- El].
    + apply spec_ret. now apply Hone.
Qed.

End Loop.

Lemma main_chained (fuel : nat) (args : Args) (files : local_files) :
  spec (main (R := R) fuel args files)
    (fun _ evs => chained None (list_calls evs)).
Proof.
  assert (Hprint : forall evs line,
            chained None (list_calls evs) ->
            chained None (list_calls (evs ++ [EvPrint line]))).
  { intros evs line H. rewrite list_calls_app. simpl.
    now rewrite app_nil_r. }
  assert (Hoff : forall evs evs',
            Forall off_lister evs' ->
            chained None (list_calls evs) ->
            chained None (list_calls (evs ++ evs'))).
  { intros evs evs' H' H. destruct (off_lister_calls H') as (Hl & _).
    now rewrite list_calls_app, Hl, app_nil_r. }
  eapply spec_conseq.
  { eapply main_rule with
      (Pre := fun evs => list_calls evs = [])
      (I := fun _ evs => chained None (list_calls evs))
      (E := fun _ evs => chained None (list_calls evs))
      (F := fun evs => chained None (list_calls evs))
      (G := fun _ evs => chained None (list_calls evs));
      try (intros; exact I); auto.
    - intros evs0 _ H0.
      apply plain_projections, Forall_app. split; [apply banner_plain|].
      eapply Forall_impl; [apply auth_event_plain | exact H0].
    - intros evs0 e _ H0 _.
      replace (list_calls (banner args ++ evs0)) with
        (@nil (option string * (fault + response))); [exact I|].
      symmetry. apply plain_projections, Forall_app.
      split; [apply banner_plain|].
      eapply Forall_impl; [apply auth_event_plain | exact H0].
    - intros evs _ Hpre. unfold list_message_ids.
      eapply spec_conseq;
        [apply loop_chained; intros; apply main_loop_body_off_lister|].
      intros o evs' H.
      destruct o; cbn [left_by]; rewrite list_calls_app, Hpre; exact H.
    - intros st evs _ H.
      eapply spec_conseq; [apply after_loop_off_lister|].
      intros o evs' H'. destruct o as [[]| |]; cbn [left_by]; now apply Hoff. }
  intros [[]|e|] evs H; exact H.
Qed.

End Chained.

(** X4. In every run of [main] the listing calls follow one another as
    pages do: the first call passes no page token; a call is followed by
    another only if it answered with a non-empty continuation token, and
    the next call passes exactly that token.  In particular a listing
    call that failed is never repeated. *)
Theorem pages_requested_in_sequence
    {R : Type} {service : GmailService R}
    (fuel : nat) (args : Args) (files : local_files) (r : R) :
  chained None (list_calls (snd (run (main fuel args files) r))).
Proof. exact (spec_run r (main_chained fuel args files)). Qed.

(** ** A listing call that fails *)

Section FailedList.

Context {R : Type} {service : GmailService R}.

Lemma spec_both {A} (m : M R A) (Q Q' : outcome A -> list event -> Prop) :
  spec m Q -> spec m Q' -> spec m (fun o evs => Q o evs /\ Q' o evs).
Proof.
  intros H H' w.
  destruct (H w) as (evs & Ht & Hq). destruct (H' w) as (evs' & Ht' & Hq').
  rewrite Ht in Ht'. apply app_inv_head in Ht'. subst evs'. eauto.
Qed.

Lemma main_failed_list (fuel : nat) (args : Args) (files : local_files) :
  spec (main (R := R) fuel args files) (fun o evs =>
    forall f post,
      after_failed_list evs = Some (f, post) ->
      o = Raise (failure_exit f) /\ post = failure_report f).
Proof.
  set (E := fun (oe : option exn) evs =>
              forall f post,
                after_failed_list evs = Some (f, post) ->
                oe = Some (exn_of_fault f) /\ post = []).
  set (G := fun (oe : option exn) evs =>
              forall f post,
                after_failed_list evs = Some (f, post) ->
                oe = Some (failure_exit f) /\ post = failure_report f).
  assert (Hnone : forall evs evs',
            Forall off_lister evs' ->
            after_failed_list evs = None ->
            after_failed_list (evs ++ evs') = None).
  { intros evs evs' H' H. destruct (off_lister_calls H') as (_ & Ha & _).
    now rewrite after_failed_list_app, H. }
  assert (Hvoid : forall oe evs, after_failed_list evs = None -> E oe evs).
  { intros oe evs H f post Hf. congruence. }
  assert (Hstart : forall evs0,
            Forall auth_event evs0 ->
            after_failed_list (banner args ++ evs0) = None).
  { intros evs0 H0. apply plain_projections, Forall_app.
    split; [apply banner_plain|].
    eapply Forall_impl; [apply auth_event_plain | exact H0]. }
  eapply spec_conseq.
  { eapply main_rule with
      (Pre := fun evs => after_failed_list evs = None)
      (I := fun _ evs => after_failed_list evs = None)
      (E := E) (F := fun evs => after_failed_list evs = None) (G := G).
    - intros _ _ f post H. discriminate.
    - intros _ f post H. discriminate.
    - intros evs0 _ H0. now apply Hstart.
    - intros evs0 e _ H0 _. now apply Hvoid, Hstart.
    - intros evs _ Hpre. unfold list_message_ids.
      eapply spec_conseq.
      { eapply list_message_ids_loop_left with
          (I := fun _ _ evs => after_failed_list evs = None)
          (E := E) (evs := evs); auto.
        - intros total s evs' tok resp H.
          now rewrite after_failed_list_app, H.
        - intros total s evs' tok f H f' post Hf.
          rewrite after_failed_list_app, H in Hf. simpl in Hf.
          injection Hf as <- <-. auto.
        - intros total s evs' i H _ _.
          eapply spec_conseq; [apply main_loop_body_off_lister|].
          intros o evs1 H1.
          assert (Hn : after_failed_list (evs' ++ EvYield i :: evs1) = None).
          { change (EvYield i :: evs1) with ([EvYield i] ++ evs1).
            rewrite app_assoc. apply Hnone; auto.
            now rewrite after_failed_list_app, H. }
          destruct o; cbn [left_by]; auto. }
      intros [st|e|] evs' H; cbn [left_by] in *; auto.
      now destruct H.
    - intros st evs _ H.
      eapply spec_conseq; [apply after_loop_off_lister|].
      intros o evs' H'. destruct o as [[]| |]; cbn [left_by]; auto.
    - intros evs H f post Hf.
      rewrite after_failed_list_app in Hf.
      destruct (after_failed_list evs) as [[f' post']|] eqn:Ea;
        [|discriminate].
      injection Hf as <- <-. destruct (H f' post' Ea) as [He ->].
      destruct f'; try discriminate. auto.
    - intros evs H f post Hf.
      rewrite after_failed_list_app in Hf.
      destruct (after_failed_list evs) as [[f' post']|] eqn:Ea;
        [|discriminate].
      injection Hf as <- <-. destruct (H f' post' Ea) as [He ->].
      destruct f'; try discriminate. auto.
    - intros e evs H Hh Hi f post Hf.
      destruct (H f post Hf) as [[= ->] ->].
      destruct f; try contradiction; auto.
    - intros evs H f post Hf. now destruct (H f post Hf). }
  intros [[]|e|] evs H f post Hf; cbn [left_by] in H.
  - congruence.
  - destruct (H f post Hf) as [[= ->] ->]. auto.
  - now destruct (H f post Hf).
Qed.

End FailedList.

(** X5. Whenever a listing call of a run fails, on whatever page and
    whatever was flushed before, nothing is retried and nothing else is
    called: after an API error [main] only prints the error and exits
    with status 1, after an interrupt it prints the notice and exits with
    status 130, and any other failure leaves [main] as it is. *)
Theorem failed_list_call_ends_run
    {R : Type} {service : GmailService R}
    (fuel : nat) (args : Args) (files : local_files) (r : R)
    (f : fault) (post : list event) :
  after_failed_list (snd (run (main fuel args files) r)) = Some (f, post) ->
  fst (run (main fuel args files) r) = Raise (failure_exit f)
  /\ post = failure_report f.
Proof. apply (spec_run r (main_failed_list fuel args files)). Qed.

(** ** What is mutated, against what was listed *)

Section Within.

Context {R : Type} {service : GmailService R}.

Lemma flushing_within (args : Args) (whole : bool) (evs : list event) :
  1 <= args_batch_size args ->
  flushing args whole evs ->
  exists rest, yields evs = concat (mutations evs) ++ rest.
Proof.
  intros HB (full & b & k & Hf & Hb & Hy & Hm & Hw).
  exists (concat (skipn k (batches b (args_batch_size args)))).
  rewrite Hy, Hm, concat_app, concat_batches, <- app_assoc by auto.
  f_equal. rewrite <- concat_app, firstn_skipn.
  rewrite batches_groups by lia. symmetry. apply groups_concat; lia.
Qed.

Lemma run_within (fuel : nat) (args : Args) (files : local_files) (r : R) :
  exists rest,
    yields (snd (run (main fuel args files) r))
    = concat (mutations (snd (run (main fuel args files) r))) ++ rest.
Proof.
  pose proof (spec_run r (main_ok fuel args files)) as Hok. cbv beta in Hok.
  destruct (mutations (snd (run (main fuel args files) r))) as [|g gs] eqn:Em.
  { eexists. reflexivity. }
  assert (Hg : args_dry_run args = false /\ 1 <= args_batch_size args).
  { assert (HF : Forall (fun _ : list string =>
                           args_dry_run args = false
                           /\ 1 <= args_batch_size args)
                   (mutations (snd (run (main fuel args files) r)))).
    { eapply mutations_Forall; [|exact Hok].
      intros e ids' He Hm.
      destruct e; simpl in Hm; try discriminate; simpl in He;
        (split; [tauto|]);
        assert (Hne : ids <> []) by tauto;
        assert (Hle : len ids <= args_batch_size args) by tauto;
        destruct ids; [contradiction | | contradiction |];
        unfold len in Hle; simpl in Hle; lia. }
    rewrite Em in HF. now inversion HF. }
  destruct Hg as [Hlive HB]. rewrite <- Em.
  pose proof (spec_run r (@main_live _ _ args Hlive fuel files)) as H.
  destruct (fst (run (main fuel args files) r)) as [[]|e|];
    cbn [live_post] in H; [destruct H as [H _]| |];
    eapply flushing_within; eauto.
Qed.

Lemma main_capped (fuel : nat) (args : Args) (files : local_files) :
  spec (main (R := R) fuel args files) (fun _ evs =>
    0 < args_max args -> len (yields evs) <= args_max args).
Proof.
  set (P := fun evs : list event =>
              0 < args_max args -> len (yields evs) <= args_max args).
  assert (Hplain : forall evs evs',
            Forall off_lister evs' -> P evs -> P (evs ++ evs')).
  { intros evs evs' H' H. destruct (off_lister_calls H') as (_ & _ & Hy).
    unfold P. now rewrite yields_app, Hy, app_nil_r. }
  assert (Hstart : forall evs0,
            Forall auth_event evs0 -> yields (banner args ++ evs0) = []).
  { intros evs0 H0. apply plain_projections, Forall_app.
    split; [apply banner_plain|].
    eapply Forall_impl; [apply auth_event_plain | exact H0]. }
  eapply spec_conseq.
  { eapply main_rule with
      (Pre := fun evs => yields evs = [])
      (I := fun _ evs => P evs)
      (E := fun _ evs => P evs) (F := P) (G := fun _ evs => P evs).
    - intros _ _. unfold P, len. simpl. lia.
    - intros _. unfold P, len. simpl. lia.
    - intros evs0 _ H0. now apply Hstart.
    - intros evs0 e _ H0 _. unfold P. rewrite (Hstart _ H0).
      unfold len. simpl. lia.
    - intros evs _ Hpre. unfold list_message_ids.
      eapply spec_conseq.
      { eapply list_message_ids_loop_left with
          (I := fun total _ evs =>
                  total = len (yields evs)
                  /\ (0 < args_max args -> total <= args_max args))
          (E := fun _ evs => P evs) (evs := evs) (total := 0).
        - intros total s evs' tok resp [H1 H2].
          rewrite yields_app. simpl. now rewrite app_nil_r.
        - intros total s evs' tok f [H1 H2]. unfold P.
          rewrite yields_app. simpl. rewrite app_nil_r. now subst total.
        - intros total s evs' [H1 H2]. unfold P. now subst total.
        - intros total s evs' i [H1 H2] Hg _.
          eapply spec_conseq; [apply main_loop_body_off_lister|].
          intros o evs1 Hoff.
          destruct (off_lister_calls Hoff) as (_ & _ & Hy).
          assert (Hlen : len (yields (evs' ++ EvYield i :: evs1))
                         = total + 1).
          { rewrite yields_app. simpl. rewrite Hy. unfold len in *.
            rewrite length_app. simpl. lia. }
          assert (Hcap : 0 < args_max args -> total + 1 <= args_max args).
          { intros Hm. apply andb_false_iff in Hg. destruct Hg as [Hg|Hg].
            - apply negb_false_iff, Z.eqb_eq in Hg. lia.
            - rewrite Z.geb_leb in Hg. apply Z.leb_gt in Hg. lia. }
          destruct o; cbn [left_by]; unfold P; rewrite ?Hlen; auto.
        - rewrite Hpre. unfold len. simpl. split; lia. }
      intros [st|e|] evs' H; cbn [left_by] in *; auto.
      destruct H as (total' & H1 & H2). unfold P. now subst total'.
    - intros st evs _ H.
      eapply spec_conseq; [apply after_loop_off_lister|].
      intros o evs' H'. destruct o as [[]| |]; cbn [left_by];
        now apply Hplain.
    - intros evs H. apply Hplain; auto. repeat constructor.
    - intros evs H. apply Hplain; auto. repeat constructor.
    - auto.
    - auto. }
  intros [[]|e|] evs H; exact H.
Qed.

End Within.

(** X6. In every run, however it ends, the identifiers passed to the
    mutating calls, batch after batch, are an initial part of the
    identifiers listed: nothing is mutated that was not listed, nothing
    twice, nothing out of order. *)
Theorem mutated_is_prefix_of_listed
    {R : Type} {service : GmailService R}
    (fuel : nat) (args : Args) (files : local_files) (r : R) :
  exists rest,
    yields (snd (run (main fuel args files) r))
    = concat (mutations (snd (run (main fuel args files) r))) ++ rest.
Proof. apply run_within. Qed.

(** X7. With [--max N], N > 0, a run lists at most N identifiers and so
    mutates at most N messages, however many the remote has. *)
Theorem max_caps_listing_and_mutation
    {R : Type} {service : GmailService R}
    (fuel : nat) (args : Args) (files : local_files) (r : R) :
  0 < args_max args ->
  len (yields (snd (run (main fuel args files) r))) <= args_max args
  /\ len (concat (mutations (snd (run (main fuel args files) r))))
     <= args_max args.
Proof.
  intros Hmax.
  pose proof (spec_run r (main_capped fuel args files) Hmax) as Hy.
  destruct (run_within fuel args files r) as [rest Hrest].
  split; [exact Hy|].
  rewrite Hrest in Hy. unfold len in *. rewrite length_app in Hy. lia.
Qed.

(** ** The final report and the dry-run lines *)

Section Report.

Context {R : Type} {service : GmailService R}.

Variable args : Args.

Lemma loop_body_events_readings (evs : list event) :
  Forall loop_body_event evs ->
  yields evs = [] /\ reported evs = [] /\ hinted evs = false.
Proof.
  intros H.
  destruct (@plain_projections evs) as (_ & Hy & Hr & Hh & _); auto.
  eapply Forall_impl; [apply loop_body_event_plain | exact H].
Qed.

Lemma auth_events_readings (evs : list event) :
  Forall auth_event evs ->
  would_process evs = [] /\ sleeps evs = [] /\ mutations evs = [].
Proof.
  induction 1 as [|e evs He _ (IHw & IHs & IHm)]; [repeat split|].
  destruct e as [| | | | |line| | | |]; try destruct line;
    simpl in *; try contradiction; auto.
Qed.

Lemma start_readings (evs0 : list event) :
  Forall auth_event evs0 ->
  yields (banner args ++ evs0) = []
  /\ reported (banner args ++ evs0) = []
  /\ hinted (banner args ++ evs0) = false
  /\ would_process (banner args ++ evs0) = []
  /\ sleeps (banner args ++ evs0) = []
  /\ mutations (banner args ++ evs0) = [].
Proof.
  intros H0.
  destruct (@plain_projections (banner args ++ evs0))
    as (_ & Hy & Hr & Hh & _).
  { apply Forall_app. split; [apply banner_plain|].
    eapply Forall_impl; [apply auth_event_plain | exact H0]. }
  destruct (auth_events_readings H0) as (Hw & Hs & Hm).
  rewrite would_process_app, sleeps_app, mutations_app, Hw, Hs, Hm.
  repeat split; assumption.
Qed.

Lemma body_trace_counts (i : string) (st st' : list string * Z)
    (evs : list event) :
  body_trace args i st (Ret st') evs ->
  snd st' = snd st + 1
  /\ sum (would_process evs) + (if args_dry_run args then len (fst st') else 0)
     = (if args_dry_run args then len (fst st) + 1 else 0).
Proof.
  assert (Hlen : len (fst st ++ [i]) = len (fst st) + 1).
  { unfold len. rewrite length_app. simpl. lia. }
  unfold body_trace. destruct (_ >=? _).
  - intros (o & evs' & Hf & Ho).
    pose proof (flush_trace_would_process _ _ _ _ Hf) as Hw.
    destruct o as [[]|e|]; [| |contradiction].
    + destruct Ho as [[= ->] ->]. split; [reflexivity|].
      rewrite would_process_app, Hw. cbn [fst would_process].
      rewrite app_nil_r, Hlen.
      destruct (args_dry_run args); unfold len; simpl; lia.
    + destruct Ho. discriminate.
  - intros [[= ->] ->]. split; [reflexivity|]. cbn [fst would_process sum].
    rewrite Hlen. simpl. destruct (args_dry_run args); lia.
Qed.

Lemma after_trace_counts (st : list string * Z) (o : outcome unit)
    (evs : list event) :
  after_trace args st o evs ->
  yields evs = []
  /\ match o with
     | Ret _ =>
         reported evs = [snd st]
         /\ sum (would_process evs)
            = (if args_dry_run args then len (fst st) else 0)
     | _ => reported evs = []
     end.
Proof.
  intros (o' & evs' & Hf & Ho).
  assert (H' : Forall loop_body_event evs'
               /\ sum (would_process evs')
                  = (if args_dry_run args then len (fst st) else 0)).
  { destruct (len (fst st) =? 0) eqn:E0; cbn [negb] in Hf.
    - destruct Hf as [_ ->]. apply Z.eqb_eq in E0. rewrite E0.
      split; [constructor|]. now destruct (args_dry_run args).
    - split; [eapply flush_trace_events; eauto|].
      rewrite (flush_trace_would_process _ _ _ _ Hf).
      destruct (args_dry_run args); simpl; lia. }
  destruct H' as [He Hw].
  destruct (loop_body_events_readings He) as (Hy & Hr & _).
  destruct o' as [[]|e|]; [| |contradiction].
  - destruct Ho as [-> ->].
    rewrite yields_app, reported_app, would_process_app, sum_app, Hy, Hr, Hw.
    destruct (args_mode args =? "trash")%string; simpl; repeat split; lia.
  - destruct Ho as [-> ->]. auto.
Qed.

Lemma main_report (fuel : nat) (files : local_files) :
  spec (main (R := R) fuel args files) (fun o evs =>
    match o with
    | Ret _ =>
        reported evs = [len (yields evs)]
        /\ sum (would_process evs)
           = (if args_dry_run args then len (yields evs) else 0)
    | _ => reported evs = []
    end).
Proof.
  set (I := fun (st : list string * Z) evs =>
              reported evs = []
              /\ snd st = len (yields evs)
              /\ sum (would_process evs)
                 + (if args_dry_run args then len (fst st) else 0)
                 = (if args_dry_run args then len (yields evs) else 0)).
  eapply spec_conseq.
  { eapply main_rule with
      (Pre := fun evs =>
                yields evs = [] /\ reported evs = []
                /\ would_process evs = [])
      (I := I)
      (E := fun _ evs => reported evs = [])
      (F := fun evs =>
              reported evs = [len (yields evs)]
              /\ sum (would_process evs)
                 = (if args_dry_run args then len (yields evs) else 0))
      (G := fun _ evs => reported evs = []).
    - reflexivity.
    - reflexivity.
    - intros evs0 _ H0.
      destruct (start_readings H0) as (Hy & Hr & _ & Hw & _). auto.
    - intros evs0 e _ H0 _. now destruct (start_readings H0) as (_ & Hr & _).
    - intros evs _ (Hy & Hr & Hw). unfold list_message_ids.
      eapply spec_conseq.
      { eapply list_message_ids_loop_left with
          (I := fun (_ : Z) st evs => I st evs)
          (E := fun (_ : option exn) evs => reported evs = [])
          (evs := evs) (total := 0).
        - intros total s evs' tok resp (H1 & H2 & H3). unfold I.
          rewrite reported_app, yields_app, would_process_app, H1.
          simpl. rewrite !app_nil_r. auto.
        - intros total s evs' tok f (H1 & _).
          rewrite reported_app, H1. reflexivity.
        - intros total s evs' (H1 & _). exact H1.
        - intros total s evs' i (H1 & H2 & H3) _ _.
          eapply spec_conseq; [apply main_loop_body_has_trace|].
          intros o evs1 Hb.
          destruct (loop_body_events_readings (body_trace_events _ _ _ _ _ Hb))
            as (Hy1 & Hr1 & _).
          assert (Hrep : reported (evs' ++ EvYield i :: evs1) = []).
          { rewrite reported_app, H1. simpl. exact Hr1. }
          destruct o as [s'|e|]; cbn [left_by]; auto.
          destruct (body_trace_counts _ _ _ _ Hb) as [Hn Hc].
          split; [exact Hrep|].
          rewrite yields_app, would_process_app, sum_app.
          cbn [yields would_process]. rewrite Hy1.
          assert (Hl : len (yields evs' ++ [i]) = len (yields evs') + 1).
          { unfold len. rewrite length_app. simpl. lia. }
          rewrite Hl. split; [lia|].
          destruct (args_dry_run args); lia.
        - unfold I. rewrite Hy, Hr, Hw.
          destruct (args_dry_run args); repeat split. }
      intros [st|e|] evs' H; cbn [left_by] in *; auto.
      now destruct H.
    - intros st evs _ (H1 & H2 & H3).
      eapply spec_conseq; [apply after_loop_has_trace|].
      intros o evs1 Ha. destruct (after_trace_counts Ha) as [Hy1 Ho].
      destruct o as [[]|e|]; cbn [left_by];
        rewrite ?reported_app, ?yields_app, ?would_process_app, ?sum_app,
          ?Hy1, ?app_nil_r, ?H1; auto.
      destruct Ho as [-> ->]. rewrite <- H2. split; [reflexivity|].
      destruct (args_dry_run args); lia.
    - intros evs H. now rewrite reported_app, H.
    - intros evs H. now rewrite reported_app, H.
    - auto.
    - auto. }
  intros [[]|e|] evs H; exact H.
Qed.

Lemma live_events_no_lines (evs : list event) :
  args_dry_run args = false ->
  Forall (main_event_ok args) evs -> would_process evs = [].
Proof.
  intros Hlive. induction 1 as [|e evs He _ IH]; [reflexivity|].
  destruct e as [| | | | |line| | | |]; try exact IH.
  destruct line; try exact IH. simpl in He. congruence.
Qed.

End Report.

(** X8. A run that completes prints its final report once, and the
    total it reports is the number of identifiers listed; in a dry run the
    counts of the "would process" lines add up to that same total.  A run
    that does not complete prints no final report.  A live run prints no
    "would process" line, however it ends. *)
Theorem final_report_counts_listed
    {R : Type} {service : GmailService R}
    (fuel : nat) (args : Args) (files : local_files) (r : R) :
  match fst (run (main fuel args files) r) with
  | Ret _ =>
      reported (snd (run (main fuel args files) r))
      = [len (yields (snd (run (main fuel args files) r)))]
      /\ sum (would_process (snd (run (main fuel args files) r)))
         = (if args_dry_run args
            then len (yields (snd (run (main fuel args files) r)))
            else 0)
  | _ => reported (snd (run (main fuel args files) r)) = []
  end
  /\ (args_dry_run args = false ->
      would_process (snd (run (main fuel args files) r)) = []).
Proof.
  split; [exact (spec_run r (main_report args fuel files))|].
  intros Hlive. eapply live_events_no_lines; [exact Hlive|].
  exact (spec_run r (main_ok fuel args files)).
Qed.

(** ** Calls and pauses *)

Section Pacing.

Context {R : Type} {service : GmailService R}.

Variable args : Args.

Lemma rhythm_app (a b : list event) : rhythm (a ++ b) = rhythm a ++ rhythm b.
Proof.
  induction a as [|e a IH]; simpl; [reflexivity|].
  destruct e; simpl; now rewrite IH.
Qed.

Lemma beats_add (ms : Z) (n m : nat) :
  beats ms n ++ beats ms m = beats ms (n + m).
Proof. unfold beats. now rewrite repeat_app, concat_app. Qed.

Lemma rhythm_mutation_call (mode : string) (g : list string) :
  rhythm [mutation_call mode g] = [Call].
Proof. unfold mutation_call. now destruct (mode =? "trash")%string. Qed.

Lemma rhythm_batch_events (done : list (list string)) :
  rhythm (flat_map (batch_events args) done)
  = beats (args_sleep_ms args) (length done).
Proof.
  induction done as [|g done IH]; [reflexivity|].
  cbn [flat_map batch_events app length].
  change (mutation_call (args_mode args) g
          :: EvSleep (args_sleep_ms args)
          :: flat_map (batch_events args) done)
    with ([mutation_call (args_mode args) g]
          ++ EvSleep (args_sleep_ms args)
             :: flat_map (batch_events args) done).
  rewrite rhythm_app, rhythm_mutation_call. cbn [rhythm app].
  now rewrite IH.
Qed.

Lemma rhythm_plain (evs : list event) :
  Forall (fun e => rhythm [e] = []) evs -> rhythm evs = [].
Proof.
  induction 1 as [|e evs He _ IH]; [reflexivity|].
  change (e :: evs) with ([e] ++ evs). now rewrite rhythm_app, He, IH.
Qed.

Lemma rhythm_start (evs0 : list event) :
  Forall auth_event evs0 -> rhythm (banner args ++ evs0) = [].
Proof.
  intros H0. rewrite rhythm_app. cbn [banner rhythm app].
  apply rhythm_plain. eapply Forall_impl; [|exact H0].
  intros e He. destruct e as [| | | | |line| | | |]; try destruct line;
    simpl in *; try contradiction; reflexivity.
Qed.

Lemma paced_quiet (ms : Z) (c : bool) (evs : list event) :
  rhythm evs = [] -> paced ms c evs.
Proof. intros H. exists 0%nat. rewrite H. auto. Qed.

Lemma paced_app (ms : Z) (c : bool) (a b : list event) :
  paced ms true a -> paced ms c b -> paced ms c (a ++ b).
Proof.
  intros (n & Hn & [Ha|[[=] _]]) (m & Hm & Hb).
  exists (n + m)%nat. split; [lia|].
  rewrite rhythm_app, Ha, <- beats_add.
  destruct Hb as [->|[-> ->]]; [now left|].
  right. now rewrite app_assoc.
Qed.

Lemma paced_then_quiet (ms : Z) (c : bool) (a b : list event) :
  paced ms c a -> rhythm b = [] -> paced ms c (a ++ b).
Proof.
  intros (n & Hn & Ha) Hb. exists n. split; [exact Hn|].
  now rewrite rhythm_app, Hb, app_nil_r.
Qed.

Lemma paced_weaken (ms : Z) (c : bool) (a : list event) :
  paced ms true a -> paced ms c a.
Proof. intros (n & Hn & [Ha|[[=] _]]). exists n. auto. Qed.

Lemma flush_trace_paced_rhythm (b : list string) (o : outcome unit)
    (evs : list event) :
  flush_trace args b o evs -> paced (args_sleep_ms args) (returned o) evs.
Proof.
  unfold flush_trace. destruct (args_dry_run args).
  { intros [_ ->]. now apply paced_quiet. }
  destruct (chunks b (args_batch_size args)).
  2:{ intros [_ ->]. now apply paced_quiet. }
  intros (done & rest & _ & Hd & Ho).
  exists (length done). split.
  { destruct Hd as [->|[_ Hms]]; auto. }
  destruct o as [[]|e|]; [| |contradiction].
  - destruct Ho as [_ ->]. left. apply rhythm_batch_events.
  - destruct Ho as [(_ & _ & _ & ->)|(g & r' & _ & _ & -> & _)].
    + left. apply rhythm_batch_events.
    + right. split; [reflexivity|].
      now rewrite rhythm_app, rhythm_batch_events, rhythm_mutation_call.
Qed.

Lemma body_trace_paced (i : string) (st : list string * Z)
    (o : outcome (list string * Z)) (evs : list event) :
  body_trace args i st o evs -> paced (args_sleep_ms args) (returned o) evs.
Proof.
  unfold body_trace. destruct (_ >=? _).
  2:{ intros [-> ->]. now apply paced_quiet. }
  intros (o' & evs' & Hf & Ho). apply flush_trace_paced_rhythm in Hf.
  destruct o' as [[]|e|]; [| |contradiction].
  - destruct Ho as [-> ->]. now apply paced_then_quiet.
  - destruct Ho as [-> ->]. exact Hf.
Qed.

Lemma after_trace_paced (st : list string * Z) (o : outcome unit)
    (evs : list event) :
  after_trace args st o evs -> paced (args_sleep_ms args) (returned o) evs.
Proof.
  intros (o' & evs' & Hf & Ho).
  assert (H' : paced (args_sleep_ms args) (returned o') evs').
  { destruct (negb (len (fst st) =? 0)).
    - now apply flush_trace_paced_rhythm in Hf.
    - destruct Hf as [_ ->]. now apply paced_quiet. }
  destruct o' as [[]|e|]; [| |contradiction].
  - destruct Ho as [-> ->]. apply paced_then_quiet; [exact H'|].
    now destruct (args_mode args =? "trash")%string.
  - destruct Ho as [-> ->]. exact H'.
Qed.

Lemma main_paced (fuel : nat) (files : local_files) :
  spec (main (R := R) fuel args files) (fun o evs =>
    paced (args_sleep_ms args) (returned o) evs).
Proof.
  eapply spec_conseq.
  { eapply main_rule with
      (Pre := paced (args_sleep_ms args) true)
      (I := fun _ => paced (args_sleep_ms args) true)
      (E := fun _ => paced (args_sleep_ms args) false)
      (F := paced (args_sleep_ms args) true)
      (G := fun _ => paced (args_sleep_ms args) false).
    - intros _ _. now apply paced_quiet.
    - intros _. now apply paced_quiet.
    - intros evs0 _ H0. now apply paced_quiet, rhythm_start.
    - intros evs0 e _ H0 _. now apply paced_quiet, rhythm_start.
    - intros evs _ Hpre. unfold list_message_ids.
      eapply spec_conseq.
      { eapply list_message_ids_loop_left with
          (I := fun (_ : Z) (_ : list string * Z) =>
                  paced (args_sleep_ms args) true)
          (E := fun (_ : option exn) => paced (args_sleep_ms args) false)
          (evs := evs) (total := 0).
        - intros total s evs' tok resp H. now apply paced_then_quiet.
        - intros total s evs' tok f H.
          now apply paced_weaken, paced_then_quiet.
        - intros total s evs' H. now apply paced_weaken.
        - intros total s evs' i H _ _.
          eapply spec_conseq; [apply main_loop_body_has_trace|].
          intros o evs1 Hb. apply body_trace_paced in Hb.
          change (EvYield i :: evs1) with ([EvYield i] ++ evs1).
          rewrite app_assoc.
          assert (H' : paced (args_sleep_ms args) true (evs' ++ [EvYield i]))
            by now apply paced_then_quiet.
          destruct o as [s'|e|]; cbn [left_by returned] in *;
            now apply paced_app.
        - exact Hpre. }
      intros [st|e|] evs' H; cbn [left_by] in *; auto.
      now destruct H.
    - intros st evs _ H.
      eapply spec_conseq; [apply after_loop_has_trace|].
      intros o evs1 Ha. apply after_trace_paced in Ha.
      destruct o as [[]|e|]; cbn [left_by returned] in *;
        now apply paced_app.
    - intros evs H. now apply paced_then_quiet.
    - intros evs H. now apply paced_then_quiet.
    - auto.
    - auto. }
  intros [[]|e|] evs H; exact H.
Qed.

End Pacing.

(** X9. In every run the mutating calls and the pauses alternate: each
    call is followed by one pause of [--sleep-ms] milliseconds before the
    next call, no pause is made without a call, and a run that completes
    has paused after its last call as well; only a run that is cut short
    can end on a call without its pause. *)
Theorem pause_follows_every_call
    {R : Type} {service : GmailService R}
    (fuel : nat) (args : Args) (files : local_files) (r : R) :
  paced (args_sleep_ms args)
    (returned (fst (run (main fuel args files) r)))
    (snd (run (main fuel args files) r)).
Proof. exact (spec_run r (main_paced args fuel files)). Qed.

(** ** A run that is refused its pause *)

Section CutShort.

Context {R : Type} {service : GmailService R}.









Variable args : Args.

Hypothesis negative : args_sleep_ms args < 0.







End CutShort.


(** ** The guidance about the Trash *)

Section Hint.

Context {R : Type} {service : GmailService R}.

Variable args : Args.

Lemma after_trace_hint (st : list string * Z) (o : outcome unit)
    (evs : list event) :
  after_trace args st o evs ->
  hinted evs = returned o && (args_mode args =? "trash")%string.
Proof.
  intros (o' & evs' & Hf & Ho).
  assert (H' : hinted evs' = false).
  { destruct (negb (len (fst st) =? 0)).
    - now apply flush_trace_events, loop_body_events_readings in Hf.
    - now destruct Hf as [_ ->]. }
  destruct o' as [[]|e|]; [| |contradiction].
  - destruct Ho as [-> ->]. rewrite hinted_app, H'.
    now destruct (args_mode args =? "trash")%string.
  - now destruct Ho as [-> ->].
Qed.

Lemma main_hint (fuel : nat) (files : local_files) :
  spec (main (R := R) fuel args files) (fun o evs =>
    hinted evs = returned o && (args_mode args =? "trash")%string).
Proof.
  eapply spec_conseq.
  { eapply main_rule with
      (Pre := fun evs => hinted evs = false)
      (I := fun _ evs => hinted evs = false)
      (E := fun _ evs => hinted evs = false)
      (F := fun evs => hinted evs = (args_mode args =? "trash")%string)
      (G := fun _ evs => hinted evs = false).
    - reflexivity.
    - reflexivity.
    - intros evs0 _ H0. now destruct (start_readings args H0) as (_ & _ & Hh & _).
    - intros evs0 e _ H0 _.
      now destruct (start_readings args H0) as (_ & _ & Hh & _).
    - intros evs _ Hpre. unfold list_message_ids.
      eapply spec_conseq.
      { eapply list_message_ids_loop_left with
          (I := fun (_ : Z) (_ : list string * Z) evs => hinted evs = false)
          (E := fun (_ : option exn) evs => hinted evs = false)
          (evs := evs) (total := 0).
        - intros total s evs' tok resp H. now rewrite hinted_app, H.
        - intros total s evs' tok f H. now rewrite hinted_app, H.
        - auto.
        - intros total s evs' i H _ _.
          eapply spec_conseq; [apply main_loop_body_has_trace|].
          intros o evs1 Hb.
          apply body_trace_events, loop_body_events_readings in Hb.
          destruct Hb as (_ & _ & Hh).
          assert (H' : hinted (evs' ++ EvYield i :: evs1) = false).
          { change (EvYield i :: evs1) with ([EvYield i] ++ evs1).
            now rewrite !hinted_app, H, Hh. }
          destruct o; cbn [left_by]; exact H'.
        - exact Hpre. }
      intros [st|e|] evs' H; cbn [left_by] in *; auto.
      now destruct H.
    - intros st evs _ H.
      eapply spec_conseq; [apply after_loop_has_trace|].
      intros o evs1 Ha. apply after_trace_hint in Ha.
      destruct o as [[]|e|]; cbn [left_by returned] in *;
        rewrite hinted_app, H, Ha; reflexivity.
    - intros evs H. now rewrite hinted_app, H.
    - intros evs H. now rewrite hinted_app, H.
    - auto.
    - auto. }
  intros [[]|e|] evs H; cbn [left_by returned] in *; rewrite H;
    reflexivity.
Qed.

End Hint.

(** X11. The guidance that the messages are now in the Trash is printed
    exactly when a run in mode "trash" completes: never in mode "delete",
    never by a run that is cut short, and always by a completed run in
    mode "trash", a dry run or a run that listed nothing included. *)
Theorem trash_guidance_when_completed
    {R : Type} {service : GmailService R}
    (fuel : nat) (args : Args) (files : local_files) (r : R) :
  hinted (snd (run (main fuel args files) r))
  = returned (fst (run (main fuel args files) r))
    && (args_mode args =? "trash")%string.
Proof. exact (spec_run r (main_hint args fuel files)). Qed.

(** ** Progress lines and dry-run lines *)

Section Lines.

Context {R : Type} {service : GmailService R}.

Variable args : Args.

Lemma progress_app (a b : list event) :
  progress (a ++ b) = progress a ++ progress b.
Proof.
  induction a as [|e a IH]; simpl; [reflexivity|].
  destruct e; simpl; try apply IH. destruct line; simpl; now rewrite ?IH.
Qed.

Lemma progress_quiet (evs : list event) :
  Forall (fun e => progress [e] = []) evs -> progress evs = [].
Proof.
  induction 1 as [|e evs He _ IH]; [reflexivity|].
  change (e :: evs) with ([e] ++ evs). now rewrite progress_app, He, IH.
Qed.

Lemma progress_start (evs0 : list event) :
  Forall auth_event evs0 -> progress (banner args ++ evs0) = [].
Proof.
  intros H0. rewrite progress_app. cbn [banner progress app].
  apply progress_quiet. eapply Forall_impl; [|exact H0].
  intros e He. destruct e as [| | | | |line| | | |]; try destruct line;
    simpl in *; try contradiction; reflexivity.
Qed.

Lemma progress_mutation_call (mode : string) (g : list string) :
  progress [mutation_call mode g] = [].
Proof. unfold mutation_call. now destruct (mode =? "trash")%string. Qed.

Lemma progress_batch_events (done : list (list string)) :
  progress (flat_map (batch_events args) done) = [].
Proof.
  induction done as [|g done IH]; [reflexivity|].
  cbn [flat_map batch_events app].
  change (mutation_call (args_mode args) g
          :: EvSleep (args_sleep_ms args)
          :: flat_map (batch_events args) done)
    with ([mutation_call (args_mode args) g]
          ++ EvSleep (args_sleep_ms args)
             :: flat_map (batch_events args) done).
  rewrite progress_app, progress_mutation_call. exact IH.
Qed.

Lemma flush_trace_progress (b : list string) (o : outcome unit)
    (evs : list event) :
  flush_trace args b o evs -> progress evs = [].
Proof.
  unfold flush_trace. destruct (args_dry_run args).
  { now intros [_ ->]. }
  destruct (chunks b (args_batch_size args)).
  2:{ now intros [_ ->]. }
  intros (done & rest & _ & _ & Ho).
  destruct o as [[]|e|]; [| |contradiction].
  - destruct Ho as [_ ->]. apply progress_batch_events.
  - destruct Ho as [(_ & _ & _ & ->)|(g & r' & _ & _ & -> & _)].
    + apply progress_batch_events.
    + now rewrite progress_app, progress_batch_events,
        progress_mutation_call.
Qed.

Lemma flush_trace_raise_live (b : list string) (e : exn)
    (evs : list event) :
  flush_trace args b (Raise e) evs -> args_dry_run args = false.
Proof.
  unfold flush_trace. destruct (args_dry_run args); [|reflexivity].
  intros [H _]. discriminate.
Qed.

Lemma milestones_next (k : nat) :
  milestones (S k)
  = milestones k ++ [FLUSH_THRESHOLD * Z.of_nat k + FLUSH_THRESHOLD].
Proof.
  unfold milestones. rewrite seq_S, map_app. cbn [map].
  replace (FLUSH_THRESHOLD * Z.of_nat (1 + k))
    with (FLUSH_THRESHOLD * Z.of_nat k + FLUSH_THRESHOLD) by lia.
  reflexivity.
Qed.

Lemma full_lines_next (k : nat) :
  full_lines args (S k)
  = full_lines args k
    ++ (if args_dry_run args then [FLUSH_THRESHOLD] else []).
Proof.
  unfold full_lines. destruct (args_dry_run args); [|reflexivity].
  cbn [repeat]. apply repeat_cons.
Qed.

(** One pass of the loop body on a buffer below the threshold. *)
Lemma body_trace_lines (i : string) (st : list string * Z)
    (o : outcome (list string * Z)) (evs : list event) :
  body_trace args i st o evs ->
  len (fst st) < FLUSH_THRESHOLD ->
  match o with
  | Ret st' =>
      snd st' = snd st + 1
      /\ ((len (fst st) + 1 < FLUSH_THRESHOLD
           /\ len (fst st') = len (fst st) + 1
           /\ progress evs = [] /\ would_process evs = [])
          \/ (len (fst st) + 1 = FLUSH_THRESHOLD
              /\ len (fst st') = 0
              /\ progress evs = [snd st + 1]
              /\ would_process evs
                 = (if args_dry_run args then [FLUSH_THRESHOLD] else [])))
  | _ => progress evs = [] /\ would_process evs = []
  end.
Proof.
  intros Hb Hlt.
  assert (Hlen : len (fst st ++ [i]) = len (fst st) + 1).
  { unfold len. rewrite length_app. simpl. lia. }
  unfold body_trace in Hb. rewrite Hlen in Hb.
  destruct (len (fst st) + 1 >=? FLUSH_THRESHOLD) eqn:Ec.
  - rewrite Z.geb_leb in Ec. apply Z.leb_le in Ec.
    destruct Hb as (o' & evs' & Hf & Ho).
    pose proof (flush_trace_would_process _ _ _ _ Hf) as Hw.
    pose proof (flush_trace_progress _ _ _ Hf) as Hp.
    rewrite Hlen in Hw.
    destruct o' as [[]|e|]; [| |contradiction].
    + destruct Ho as [-> ->]. split; [reflexivity|]. right.
      assert (Heq : len (fst st) + 1 = FLUSH_THRESHOLD) by lia.
      rewrite progress_app, would_process_app, Hp, Hw, Heq.
      cbn [fst snd progress would_process app].
      rewrite app_nil_r. repeat split.
    + destruct Ho as [-> ->].
      rewrite (flush_trace_raise_live _ _ _ Hf) in Hw. auto.
  - rewrite Z.geb_leb in Ec. apply Z.leb_gt in Ec.
    destruct Hb as [-> ->]. split; [reflexivity|]. left.
    cbn [fst]. rewrite Hlen. repeat split. exact Ec.
Qed.

Lemma after_trace_lines (st : list string * Z) (o : outcome unit)
    (evs : list event) :
  after_trace args st o evs ->
  yields evs = [] /\ progress evs = []
  /\ would_process evs
     = (if returned o then last_line args (len (fst st)) else []).
Proof.
  intros (o' & evs' & Hf & Ho).
  assert (H' : yields evs' = [] /\ progress evs' = []
               /\ would_process evs'
                  = (if returned o' then last_line args (len (fst st))
                     else [])).
  { unfold last_line. destruct (len (fst st) =? 0); cbn [negb] in Hf.
    - destruct Hf as [-> ->]. now destruct (args_dry_run args).
    - split.
      { now apply flush_trace_events, loop_body_events_readings in Hf. }
      split; [eapply flush_trace_progress; eauto|].
      rewrite (flush_trace_would_process _ _ _ _ Hf).
      destruct o' as [[]|e|]; cbn [returned]; [reflexivity| |].
      + now rewrite (flush_trace_raise_live _ _ _ Hf).
      + now apply flush_trace_ends in Hf. }
  destruct H' as (Hy & Hp & Hw).
  destruct o' as [[]|e|]; [| |contradiction].
  - destruct Ho as [-> ->].
    rewrite yields_app, progress_app, would_process_app, Hy, Hp, Hw.
    destruct (args_mode args =? "trash")%string;
      cbn [returned app yields progress would_process];
      rewrite app_nil_r; auto.
  - destruct Ho as [-> ->]. auto.
Qed.

Lemma main_lines (fuel : nat) (files : local_files) :
  spec (main (R := R) fuel args files) (fun o evs =>
    exists k : nat,
      progress evs = milestones k
      /\ if returned o
         then Z.of_nat k = len (yields evs) / FLUSH_THRESHOLD
              /\ would_process evs
                 = full_lines args k
                   ++ last_line args (len (yields evs) mod FLUSH_THRESHOLD)
         else FLUSH_THRESHOLD * Z.of_nat k <= len (yields evs)
              /\ would_process evs = full_lines args k).
Proof.
  set (I := fun (st : list string * Z) evs =>
              exists k : nat,
                progress evs = milestones k
                /\ would_process evs = full_lines args k
                /\ snd st = FLUSH_THRESHOLD * Z.of_nat k + len (fst st)
                /\ len (fst st) < FLUSH_THRESHOLD
                /\ snd st = len (yields evs)).
  set (E := fun evs =>
              exists k : nat,
                progress evs = milestones k
                /\ FLUSH_THRESHOLD * Z.of_nat k <= len (yields evs)
                /\ would_process evs = full_lines args k).
  set (F := fun evs =>
              exists k : nat,
                progress evs = milestones k
                /\ Z.of_nat k = len (yields evs) / FLUSH_THRESHOLD
                /\ would_process evs
                   = full_lines args k
                     ++ last_line args
                          (len (yields evs) mod FLUSH_THRESHOLD)).
  assert (Hnil : forall evs,
            yields evs = [] -> progress evs = [] -> would_process evs = [] ->
            E evs /\ I ([], 0) evs).
  { intros evs Hy Hp Hw. split; exists 0%nat; rewrite Hy, Hp, Hw;
      unfold full_lines, len; destruct (args_dry_run args); simpl;
      repeat split; unfold FLUSH_THRESHOLD; lia. }
  assert (Hstart : forall evs0,
            Forall auth_event evs0 ->
            E (banner args ++ evs0) /\ I ([], 0) (banner args ++ evs0)).
  { intros evs0 H0.
    destruct (start_readings args H0) as (Hy & _ & _ & Hw & _).
    apply Hnil; auto. now apply progress_start. }
  assert (Hmore : forall evs evs',
            yields evs' = [] -> progress evs' = [] ->
            would_process evs' = [] ->
            E evs -> E (evs ++ evs')).
  { intros evs evs' Hy Hp Hw (k & H1 & H2 & H3). exists k.
    now rewrite yields_app, progress_app, would_process_app, Hy, Hp, Hw,
      !app_nil_r. }
  assert (HIE : forall st evs, I st evs -> E evs).
  { intros st evs (k & H1 & H2 & H3 & H4 & H5). exists k.
    repeat split; auto. unfold len in *. lia. }
  eapply spec_conseq.
  { eapply main_rule with
      (Pre := I ([], 0)) (I := I) (E := fun _ => E) (F := F)
      (G := fun _ => E).
    - intros _ _. now apply Hnil.
    - intros _. now apply Hnil.
    - intros evs0 _ H0. now apply Hstart.
    - intros evs0 e _ H0 _. now apply Hstart.
    - intros evs _ Hpre. unfold list_message_ids.
      eapply spec_conseq.
      { eapply list_message_ids_loop_left with
          (I := fun (_ : Z) st evs => I st evs)
          (E := fun (_ : option exn) => E)
          (evs := evs) (total := 0).
        - intros total s evs' tok resp (k & H1 & H2 & H3 & H4 & H5).
          exists k.
          rewrite yields_app, progress_app, would_process_app.
          simpl. now rewrite !app_nil_r.
        - intros total s evs' tok f H. apply Hmore; auto.
          eapply HIE; eauto.
        - intros total s evs' H. eapply HIE; eauto.
        - intros total s evs' i (k & H1 & H2 & H3 & H4 & H5) _ _.
          eapply spec_conseq; [apply main_loop_body_has_trace|].
          intros o evs1 Hb.
          destruct (loop_body_events_readings
                      (body_trace_events _ _ _ _ _ Hb)) as (Hy1 & _).
          pose proof (body_trace_lines _ _ _ _ Hb H4) as Hl.
          assert (Hy : len (yields (evs' ++ EvYield i :: evs1))
                       = len (yields evs') + 1).
          { rewrite yields_app. cbn [yields]. rewrite Hy1.
            unfold len. rewrite length_app. simpl. lia. }
          change (EvYield i :: evs1) with ([EvYield i] ++ evs1) in *.
          destruct o as [s'|e|]; cbn [left_by].
          + destruct Hl as [Hn [(Hlt & Hs' & Hp & Hw)|(Heq & Hs' & Hp & Hw)]].
            * exists k.
              rewrite !progress_app, !would_process_app, Hp, Hw, Hy.
              cbn [progress would_process app]. rewrite !app_nil_r.
              repeat split; auto; lia.
            * exists (S k).
              rewrite !progress_app, !would_process_app, Hp, Hw, Hy,
                milestones_next, full_lines_next.
              cbn [progress would_process app].
              repeat split; auto; try lia.
              -- rewrite H1.
                 replace (snd s + 1)
                   with (FLUSH_THRESHOLD * Z.of_nat k + FLUSH_THRESHOLD)
                   by lia.
                 reflexivity.
              -- now rewrite H2.
              -- unfold FLUSH_THRESHOLD. lia.
          + destruct Hl as [Hp Hw]. exists k.
            rewrite !progress_app, !would_process_app, Hp, Hw, Hy.
            cbn [progress would_process app]. rewrite !app_nil_r.
            repeat split; auto. unfold len in *. lia.
          + destruct Hl as [Hp Hw]. exists k.
            rewrite !progress_app, !would_process_app, Hp, Hw, Hy.
            cbn [progress would_process app]. rewrite !app_nil_r.
            repeat split; auto. unfold len in *. lia.
        - exact Hpre. }
      intros [st|e|] evs' H; cbn [left_by] in *; auto.
      now destruct H.
    - intros st evs _ (k & H1 & H2 & H3 & H4 & H5).
      eapply spec_conseq; [apply after_loop_has_trace|].
      intros o evs1 Ha.
      destruct (after_trace_lines Ha) as (Hy & Hp & Hw).
      assert (Hb : 0 <= len (fst st)) by (unfold len; lia).
      destruct o as [[]|e|]; cbn [left_by returned] in *.
      + exists k.
        rewrite yields_app, progress_app, would_process_app, Hy, Hp, Hw,
          H1, H2, !app_nil_r, <- H5, H3.
        split; [reflexivity|]. split.
        * apply Z.div_unique with (r := len (fst st)); lia.
        * do 2 f_equal.
          apply Z.mod_unique with (q := Z.of_nat k); lia.
      + exists k.
        rewrite yields_app, progress_app, would_process_app, Hy, Hp, Hw,
          !app_nil_r. repeat split; auto. lia.
      + exists k.
        rewrite yields_app, progress_app, would_process_app, Hy, Hp, Hw,
          !app_nil_r. repeat split; auto. lia.
    - intros evs H. now apply Hmore.
    - intros evs H. now apply Hmore.
    - auto.
    - auto. }
  intros [[]|e|] evs H; cbn [left_by returned] in *.
  - destruct H as (k & H1 & H2 & H3). eauto.
  - destruct H as (k & H1 & H2 & H3). eauto.
  - destruct H as (k & H1 & H2 & H3). eauto.
Qed.

End Lines.

(** X12. The buffer is flushed each time it reaches 5000 identifiers and
    once more at the end if it is not empty.  So the progress lines of a
    run report 5000, 10000, ... in order; a run that completes after
    listing n identifiers printed n / 5000 of them, and as a dry run it
    printed one "would process 5000" line for each and a last line for
    the remaining n mod 5000 if that is not 0; a live run prints no such
    line. *)
Theorem progress_and_dry_run_lines
    {R : Type} {service : GmailService R}
    (fuel : nat) (args : Args) (files : local_files) (r : R) :
  exists k : nat,
    progress (snd (run (main fuel args files) r)) = milestones k
    /\ if returned (fst (run (main fuel args files) r))
       then Z.of_nat k
            = len (yields (snd (run (main fuel args files) r)))
              / FLUSH_THRESHOLD
            /\ would_process (snd (run (main fuel args files) r))
               = full_lines args k
                 ++ last_line args
                      (len (yields (snd (run (main fuel args files) r)))
                       mod FLUSH_THRESHOLD)
       else FLUSH_THRESHOLD * Z.of_nat k
            <= len (yields (snd (run (main fuel args files) r)))
            /\ would_process (snd (run (main fuel args files) r))
               = full_lines args k.
Proof. exact (spec_run r (main_lines args fuel files)). Qed.

(** ** What the calls carry *)

(** X13. Every call of a run carries the command line: each listing call
    is made for the user "me" with the effective filter (none under
    [--all]), the [--include-spam-trash] flag and pages of 500; a
    [batchModify] is made only in mode "trash", and it adds the label
    TRASH and removes none; a [batchDelete] is made only in mode
    "delete".  So a run in mode "trash" deletes nothing permanently. *)
Theorem calls_carry_the_command_line
    {R : Type} {service : GmailService R}
    (fuel : nat) (args : Args) (files : local_files) (r : R) :
  Forall (fun e =>
            match e with
            | EvList u q inc _ mr _ =>
                u = "me"%string
                /\ q = (if args_all args then None else args_query args)
                /\ inc = args_include_spam_trash args
                /\ mr = 500
            | EvBatchModify u _ add rem =>
                args_mode args = "trash"%string
                /\ u = "me"%string /\ add = ["TRASH"%string] /\ rem = []
            | EvBatchDelete u _ =>
                args_mode args = "delete"%string /\ u = "me"%string
            | _ => True
            end)
         (snd (run (main fuel args files) r)).
Proof.
  eapply Forall_impl; [|exact (spec_run r (main_ok fuel args files))].
  intros e He. destruct e; simpl in He; auto; tauto.
Qed.

(** ** Authentication *)

(** X14. What [get_service] does is decided by the two files.  A
    token.json that cannot be read as a token ends it with [ValueError]
    before any step.  A valid stored token is used as it is: [build] is
    the only step, there is no OAuth step and token.json is not written.
    Otherwise a refresh is tried exactly when the stored token has
    expired and carries a refresh token, and then the browser login is
    not, even if the refresh fails; the login is tried exactly when there
    is nothing to refresh and credentials.json can be read, and the
    message about credentials.json is printed exactly when there is
    nothing to refresh and the file is absent.  token.json is written
    only after one of the two OAuth steps, the client is built only with
    a valid token or after that write, and [get_service] returns only
    after [build]. *)
Theorem get_service_steps
    {R : Type} {service : GmailService R}
    (files : local_files) (r : R) :
  (token_json files = Malformed ->
     run (get_service files) r = (Raise ValueError, []))
  /\ (token_valid files = true ->
        snd (run (get_service files) r) = [EvBuild])
  /\ (In EvRefresh (snd (run (get_service files) r))
      <-> token_valid files = false /\ token_refreshable files = true)
  /\ (In EvLocalServer (snd (run (get_service files) r))
      <-> no_usable_token files = true
          /\ credentials_json files = Stored tt)
  /\ (In (EvPrint OutMissingCredentials) (snd (run (get_service files) r))
      <-> no_usable_token files = true /\ credentials_json files = Absent)
  /\ (In EvWriteToken (snd (run (get_service files) r)) ->
        In EvRefresh (snd (run (get_service files) r))
        \/ In EvLocalServer (snd (run (get_service files) r)))
  /\ (In EvBuild (snd (run (get_service files) r)) ->
        token_valid files = true
        \/ In EvWriteToken (snd (run (get_service files) r)))
  /\ (returned (fst (run (get_service files) r)) = true ->
        In EvBuild (snd (run (get_service files) r))).
Proof.
  unfold run, get_service, token_valid, token_refreshable, no_usable_token,
    bind, call_auth, print, emit, raise, ret.
  destruct files as [[| |[v e rt]] [| |[]]]; cbn;
    try destruct v; try destruct e; cbn;
    try (destruct (truthy_str rt); cbn);
    repeat match goal with
      | |- context [oauth_refresh ?x] =>
          destruct (oauth_refresh x) as [[?|] ?]; cbn
      | |- context [oauth_local_server ?x] =>
          destruct (oauth_local_server x) as [[?|] ?]; cbn
      | |- context [token_write ?x] =>
          destruct (token_write x) as [[?|] ?]; cbn
      | |- context [client_build ?x] =>
          destruct (client_build x) as [[?|] ?]; cbn
      end;
    intuition (discriminate || congruence).
Qed.

(** ** Authentication comes first *)

Section BuiltFirst.

Context {R : Type} {service : GmailService R}.

Variable args : Args.

Lemma get_service_builds_last (files : local_files) :
  spec (get_service (R := R) files) (fun o evs =>
    (Forall unbuilt evs /\ returned o = false)
    \/ exists evs', evs = evs' ++ [EvBuild] /\ Forall unbuilt evs').
Proof.
  assert (Hr : unbuilt EvRefresh) by (split; [reflexivity | discriminate]).
  assert (Hl : unbuilt EvLocalServer)
    by (split; [reflexivity | discriminate]).
  assert (Hw : unbuilt EvWriteToken)
    by (split; [reflexivity | discriminate]).
  assert (Hm : unbuilt (EvPrint OutMissingCredentials))
    by (split; [reflexivity | discriminate]).
  unfold get_service.
  repeat first
    [ spec_step | apply spec_call_auth; [intros ?|]; cbn [then_spec] ].
  all: simpl.
  all: solve
    [ left; split; [|reflexivity];
      repeat first [apply Forall_nil | apply Forall_cons; [assumption|]]
    | right; exists []; split; [reflexivity | constructor]
    | right; exists [EvRefresh; EvWriteToken];
      split; [reflexivity | repeat (constructor; [assumption|]); constructor]
    | right; exists [EvLocalServer; EvWriteToken];
      split; [reflexivity | repeat (constructor; [assumption|]); constructor]
    ].
Qed.

Lemma banner_unbuilt : Forall unbuilt (banner args).
Proof. repeat constructor; discriminate. Qed.

Lemma loop_body_event_work (e : event) :
  loop_body_event e -> auth_step e = false.
Proof. destruct e; simpl; try contradiction; reflexivity. Qed.

Lemma after_trace_work (st : list string * Z) (o : outcome unit)
    (evs : list event) :
  after_trace args st o evs -> Forall (fun e => auth_step e = false) evs.
Proof.
  intros (o' & evs' & Hf & Ho).
  assert (H' : Forall (fun e => auth_step e = false) evs').
  { destruct (negb (len (fst st) =? 0)).
    - apply flush_trace_events in Hf.
      eapply Forall_impl; [apply loop_body_event_work | exact Hf].
    - destruct Hf as [_ ->]. constructor. }
  destruct o' as [[]|e|]; [| |contradiction].
  - destruct Ho as [_ ->]. apply Forall_app. split; [exact H'|].
    destruct (args_mode args =? "trash")%string; repeat constructor.
  - now destruct Ho as [_ ->].
Qed.

Lemma built_once_app (evs evs' : list event) :
  built_once evs -> Forall (fun e => auth_step e = false) evs' ->
  built_once (evs ++ evs').
Proof.
  intros (pre & post & -> & Hpre & Hpost) H'.
  exists pre, (post ++ evs'). rewrite <- app_assoc. split; [reflexivity|].
  split; [exact Hpre|]. apply Forall_app. auto.
Qed.

Lemma main_built_first (fuel : nat) (files : local_files) :
  spec (main (R := R) fuel args files) (fun o evs =>
    built_once evs \/ (Forall unbuilt evs /\ returned o = false)).
Proof.
  set (E := fun evs => built_once evs \/ Forall unbuilt evs).
  assert (Hmore : forall evs evs',
            E evs ->
            Forall (fun e => auth_step e = false /\ unbuilt e) evs' ->
            E (evs ++ evs')).
  { intros evs evs' [H|H] H'; [left | right].
    - apply built_once_app; [exact H|].
      eapply Forall_impl; [|exact H']. now intros e [He _].
    - apply Forall_app. split; [exact H|].
      eapply Forall_impl; [|exact H']. now intros e [_ He]. }
  assert (Hbuilt : forall evs',
            Forall unbuilt evs' ->
            built_once (banner args ++ evs' ++ [EvBuild])).
  { intros evs' H'. exists (banner args ++ evs'), [].
    rewrite <- app_assoc. split; [reflexivity|].
    split; [|constructor]. apply Forall_app. split; [|exact H'].
    apply banner_unbuilt. }
  eapply spec_conseq.
  { eapply main_rule_auth with
      (A := fun o evs =>
              (Forall unbuilt evs /\ returned o = false)
              \/ exists evs', evs = evs' ++ [EvBuild] /\ Forall unbuilt evs')
      (Pre := built_once) (I := fun _ => built_once)
      (E := fun _ => E) (F := built_once) (G := fun _ => E).
    - intros _ _. right. repeat constructor. discriminate.
    - intros _. right. repeat constructor. discriminate.
    - apply get_service_builds_last.
    - intros evs0 _ [[_ [=]]|(evs' & -> & H')]. now apply Hbuilt.
    - intros o evs0 _ [[H0 _]|(evs' & -> & H')].
      + destruct o as [[]|e|]; cbn [left_by]; [exact I| |];
          right; apply Forall_app; (split; [apply banner_unbuilt | exact H0]).
      + destruct o as [[]|e|]; cbn [left_by]; [exact I| |];
          left; now apply Hbuilt.
    - intros evs _ Hpre. unfold list_message_ids.
      eapply spec_conseq.
      { eapply list_message_ids_loop_left with
          (I := fun (_ : Z) (_ : list string * Z) => built_once)
          (E := fun (_ : option exn) => E)
          (evs := evs) (total := 0).
        - intros total s evs' tok resp H.
          apply built_once_app; [exact H | repeat constructor].
        - intros total s evs' tok f H. left.
          apply built_once_app; [exact H | repeat constructor].
        - intros total s evs' H. now left.
        - intros total s evs' i H _ _.
          eapply spec_conseq; [apply main_loop_body_has_trace|].
          intros o evs1 Hb. apply body_trace_events in Hb.
          assert (H' : built_once (evs' ++ EvYield i :: evs1)).
          { apply built_once_app; [exact H|].
            constructor; [reflexivity|].
            eapply Forall_impl; [apply loop_body_event_work | exact Hb]. }
          destruct o; cbn [left_by]; [exact H' | now left | now left].
        - exact Hpre. }
      intros [st|e|] evs' H; cbn [left_by] in *; auto.
      now destruct H.
    - intros st evs _ H.
      eapply spec_conseq; [apply after_loop_has_trace|].
      intros o evs1 Ha. apply after_trace_work in Ha.
      pose proof (built_once_app H Ha) as H'.
      destruct o as [[]|e|]; cbn [left_by]; [exact H' | now left | now left].
    - intros evs H. apply Hmore; [exact H|].
      repeat constructor. discriminate.
    - intros evs H. apply Hmore; [exact H|].
      repeat constructor. discriminate.
    - auto.
    - auto. }
  intros [[]|e|] evs H; cbn [left_by returned] in *.
  - now left.
  - destruct H as [H|H]; auto.
  - destruct H as [H|H]; auto.
Qed.

End BuiltFirst.

(** X15. Authentication comes first and only once.  In every run either
    the client is built once, no call to the Gmail API is made before
    that, and no OAuth step, write of token.json or second build happens
    after; or the client is never built, and then no call to the Gmail
    API is made at all and [main] does not return normally. *)
Theorem gmail_calls_only_after_build
    {R : Type} {service : GmailService R}
    (fuel : nat) (args : Args) (files : local_files) (r : R) :
  built_once (snd (run (main fuel args files) r))
  \/ (Forall unbuilt (snd (run (main fuel args files) r))
      /\ returned (fst (run (main fuel args files) r)) = false).
Proof. exact (spec_run r (main_built_first args fuel files)). Qed.

(** ** What is listed, against the pages received *)

Section Listed.

Context {R : Type} {service : GmailService R}.

Variable S : Type.
Variable body : string -> S -> M R S.
Variable q : option string.
Variable inc : bool.
Variable max_count : Z.

Hypothesis body_off_lister : forall i s, emits off_lister (body i s).

Lemma capped_from_nil (total : Z) : capped_from max_count total [] = [].
Proof. unfold capped_from. destruct (_ =? _); [|rewrite firstn_nil]; auto. Qed.

Lemma capped_from_start (ids : list string) :
  capped_from max_count 0 ids = capped max_count ids.
Proof. unfold capped_from, capped. now rewrite Z.sub_0_r. Qed.

Lemma capped_from_stop (total : Z) (ids : list string) :
  truthy_int max_count && (total >=? max_count) = true ->
  capped_from max_count total ids = [].
Proof.
  intros G. apply andb_true_iff in G. destruct G as [G0 G].
  apply negb_true_iff in G0. rewrite Z.geb_leb in G. apply Z.leb_le in G.
  unfold capped_from. rewrite G0.
  now replace (Z.to_nat (max_count - total)) with 0%nat by lia.
Qed.

Lemma capped_from_cons (total : Z) (i : string) (ids : list string) :
  truthy_int max_count && (total >=? max_count) = false ->
  capped_from max_count total (i :: ids)
  = i :: capped_from max_count (total + 1) ids.
Proof.
  intros G. unfold capped_from, truthy_int in *.
  destruct (max_count =? 0); [reflexivity|]. cbn [negb andb] in G.
  rewrite Z.geb_leb in G. apply Z.leb_gt in G.
  replace (Z.to_nat (max_count - total))
    with (Datatypes.S (Z.to_nat (max_count - (total + 1)))) by lia.
  reflexivity.
Qed.

Lemma capped_from_app (total : Z) (a b : list string) :
  capped_from max_count total a = a ->
  capped_from max_count total (a ++ b)
  = a ++ capped_from max_count (total + len a) b.
Proof.
  unfold capped_from. destruct (max_count =? 0); [reflexivity|].
  intros Ha. apply (f_equal (@length _)) in Ha.
  rewrite length_firstn in Ha.
  rewrite firstn_app. f_equal.
  - apply firstn_all2. lia.
  - f_equal. unfold len. lia.
Qed.

Lemma scan_page_listed (msgs : list message) :
  forall total s,
    spec (scan_page body max_count msgs total s) (fun o evs =>
      replies evs = []
      /\ match o with
         | Ret (PageDone total' _) =>
             yields evs = ids_of msgs
             /\ total' = total + len (ids_of msgs)
             /\ capped_from max_count total (ids_of msgs) = ids_of msgs
         | Ret (Returned _) =>
             yields evs = capped_from max_count total (ids_of msgs)
         | _ =>
             exists rest,
               capped_from max_count total (ids_of msgs)
               = yields evs ++ rest
         end).
Proof.
  induction msgs as [|m rest IH]; intros total s; cbn [scan_page].
  - apply spec_ret. unfold len. cbn. rewrite capped_from_nil.
    repeat split. lia.
  - destruct (truthy_int max_count && (total >=? max_count)) eqn:G.
    { apply spec_ret. now rewrite capped_from_stop. }
    assert (Hskip : ids_of [m] = [] ->
              spec (scan_page body max_count rest total s) (fun o evs =>
                replies evs = []
                /\ match o with
                   | Ret (PageDone total' _) =>
                       yields evs = ids_of (m :: rest)
                       /\ total' = total + len (ids_of (m :: rest))
                       /\ capped_from max_count total (ids_of (m :: rest))
                          = ids_of (m :: rest)
                   | Ret (Returned _) =>
                       yields evs
                       = capped_from max_count total (ids_of (m :: rest))
                   | _ =>
                       exists rest',
                         capped_from max_count total (ids_of (m :: rest))
                         = yields evs ++ rest'
                   end)).
    { intros Hm. rewrite ids_of_cons, Hm. apply IH. }
    destruct (m_id m) as [i|] eqn:Hid;
      [|apply Hskip, ids_of_skipped; now rewrite Hid].
    destruct (truthy_str (Some i)) eqn:Ti;
      [|apply Hskip, ids_of_skipped; now rewrite Hid].
    rewrite ids_of_cons, (ids_of_yielded _ Hid Ti). cbn [app].
    rewrite capped_from_cons by exact G.
    apply spec_bind, spec_emit. cbn [then_spec].
    apply spec_bind.
    eapply spec_conseq; [apply body_off_lister|].
    intros o evs1 H1. destruct (off_lister_projections H1) as [Hr1 Hy1].
    destruct o as [s'|e|]; cbn [then_spec app];
      try (cbn [replies yields]; rewrite Hr1, Hy1; split; [reflexivity|];
           now exists (capped_from max_count (total + 1) (ids_of rest))).
    eapply spec_conseq; [apply IH|].
    intros o evs2 [Hr2 Ho]. cbn [replies yields].
    rewrite replies_app, yields_app, Hr1, Hy1, Hr2. cbn [app].
    split; [reflexivity|].
    destruct o as [[t' s''|s'']|e|].
    + destruct Ho as (Hy & Ht & Hc). rewrite Hy, Hc.
      repeat split. unfold len in *. cbn [length]. lia.
    + now rewrite Ho.
    + destruct Ho as [rest' ->]. now exists rest'.
    + destruct Ho as [rest' ->]. now exists rest'.
Qed.

Lemma loop_listed (fuel : nat) :
  forall tok total s,
    spec (list_message_ids_loop body q inc max_count fuel tok total s)
      (fun o evs =>
         match o with
         | Ret _ =>
             replies evs <> []
             /\ yields evs
                = capped_from max_count total
                    (flat_map page_ids (replies evs))
         | _ =>
             exists rest,
               capped_from max_count total
                 (flat_map page_ids (replies evs))
               = yields evs ++ rest
         end).
Proof.
  induction fuel as [|f IH]; intros tok total s;
    cbn [list_message_ids_loop].
  - apply spec_diverge. exists []. apply capped_from_nil.
  - apply spec_bind, spec_call_list; cbn [then_spec].
    { intros flt. exists []. cbn. apply capped_from_nil. }
    intros resp. apply spec_bind.
    eapply spec_conseq; [apply scan_page_listed|].
    intros o evs1 [Hr1 Ho].
    destruct o as [[t' s'|s']|e|]; cbn [then_spec app].
    + destruct Ho as (Hy & Ht & Hc).
      destruct (negb (truthy_str (resp_nextPageToken resp))).
      { apply spec_ret. rewrite app_nil_r. cbn [replies yields].
        rewrite Hr1, Hy. cbn [flat_map page_ids]. rewrite app_nil_r.
        split; [discriminate | now rewrite Hc]. }
      eapply spec_conseq; [apply IH|].
      intros o evs2 H2. cbn [replies yields].
      rewrite replies_app, yields_app, Hr1, Hy. cbn [app flat_map page_ids].
      rewrite capped_from_app by exact Hc. rewrite <- Ht.
      destruct o as [s''|e|].
      * destruct H2 as [_ ->]. split; [discriminate | reflexivity].
      * destruct H2 as [rest ->]. exists rest. now rewrite app_assoc.
      * destruct H2 as [rest ->]. exists rest. now rewrite app_assoc.
    + apply spec_ret. rewrite app_nil_r. cbn [replies yields].
      rewrite Hr1. cbn [flat_map page_ids]. rewrite app_nil_r.
      split; [discriminate | exact Ho].
    + destruct Ho as [rest Ho]. exists rest. cbn [replies yields].
      rewrite Hr1. cbn [flat_map page_ids]. now rewrite app_nil_r.
    + destruct Ho as [rest Ho]. exists rest. cbn [replies yields].
      rewrite Hr1. cbn [flat_map page_ids]. now rewrite app_nil_r.
Qed.

End Listed.

Section ListedByMain.

Context {R : Type} {service : GmailService R}.

Lemma main_listed (fuel : nat) (args : Args) (files : local_files) :
  spec (main (R := R) fuel args files) (fun o evs =>
    exists rest,
      capped (args_max args) (flat_map page_ids (replies evs))
      = yields evs ++ rest
      /\ (returned o = true -> rest = [] /\ replies evs <> [])).
Proof.
  set (P := fun (c : bool) evs =>
              exists rest,
                capped (args_max args) (flat_map page_ids (replies evs))
                = yields evs ++ rest
                /\ (c = true -> rest = [] /\ replies evs <> [])).
  assert (Hoff : forall c evs evs',
            Forall off_lister evs' -> P c evs -> P c (evs ++ evs')).
  { intros c evs evs' H' (rest & H1 & H2).
    destruct (off_lister_projections H') as [Hr Hy].
    exists rest. now rewrite replies_app, yields_app, Hr, Hy, !app_nil_r. }
  assert (Hweak : forall evs, P true evs -> P false evs).
  { intros evs (rest & H1 & _). exists rest. split; [exact H1|discriminate]. }
  assert (Hnil : forall evs,
            Forall off_lister evs -> P false evs).
  { intros evs H. destruct (off_lister_projections H) as [Hr Hy].
    exists []. rewrite Hr, Hy. unfold capped. cbn.
    split; [|discriminate]. destruct (_ =? _); [|rewrite firstn_nil]; auto. }
  assert (Hstart : forall evs0,
            Forall auth_event evs0 -> Forall off_lister (banner args ++ evs0)).
  { intros evs0 H0. apply Forall_app. split.
    - repeat constructor.
    - eapply Forall_impl; [apply auth_event_off_lister | exact H0]. }
  eapply spec_conseq.
  { eapply main_rule with
      (Pre := fun evs => Forall off_lister evs)
      (I := fun _ => P true) (E := fun _ => P false)
      (F := P true) (G := fun _ => P false).
    - intros _ _. apply Hnil. repeat constructor.
    - intros _. apply Hnil. repeat constructor.
    - intros evs0 _ H0. now apply Hstart.
    - intros evs0 e _ H0 _. now apply Hnil, Hstart.
    - intros evs _ Hpre. unfold list_message_ids.
      destruct (off_lister_projections Hpre) as [Hr Hy].
      eapply spec_conseq.
      { apply loop_listed. intros. apply main_loop_body_off_lister. }
      intros o evs' H.
      destruct o as [st|e|]; cbn [left_by];
        rewrite capped_from_start in H.
      + destruct H as [Hne H]. exists [].
        rewrite replies_app, yields_app, Hr, Hy, app_nil_r. cbn [app].
        split; [now symmetry | auto].
      + destruct H as [rest H]. exists rest.
        rewrite replies_app, yields_app, Hr, Hy. cbn [app].
        split; [exact H | discriminate].
      + destruct H as [rest H]. exists rest.
        rewrite replies_app, yields_app, Hr, Hy. cbn [app].
        split; [exact H | discriminate].
    - intros st evs _ H.
      eapply spec_conseq; [apply after_loop_off_lister|].
      intros o evs' H'. destruct o as [[]| |]; cbn [left_by];
        auto using Hoff.
    - intros evs H. apply Hoff; [repeat constructor | exact H].
    - intros evs H. apply Hoff; [repeat constructor | exact H].
    - auto.
    - auto. }
  intros [[]|e|] evs H; cbn [left_by returned] in *; exact H.
Qed.

End ListedByMain.

(** ** From the authentication to the first listing call *)

Section FirstCall.

Context {R : Type} {service : GmailService R}.

(** [get_service] does not look at the trace. *)
Lemma get_service_frame (files : local_files) (r : R) (t : list event) :
  get_service files (World r t)
  = (fst (get_service files (World r [])),
     World (remote (snd (get_service files (World r []))))
       (t ++ trace (snd (get_service files (World r []))))).
Proof.
  unfold get_service, bind, call_auth, print, emit, raise, ret.
  destruct files as [[| |[v e rt]] [| |[]]]; cbn;
    try destruct v; try destruct e; cbn;
    try (destruct (truthy_str rt); cbn);
    repeat match goal with
      | |- context [oauth_refresh ?x] =>
          destruct (oauth_refresh x) as [[?|] ?]; cbn
      | |- context [oauth_local_server ?x] =>
          destruct (oauth_local_server x) as [[?|] ?]; cbn
      | |- context [token_write ?x] =>
          destruct (token_write x) as [[?|] ?]; cbn
      | |- context [client_build ?x] =>
          destruct (client_build x) as [[?|] ?]; cbn
      end;
    rewrite <- ?app_assoc, ?app_nil_r; reflexivity.
Qed.

Lemma args_accepted_checks (args : Args) :
  args_accepted args = true ->
  negb (args_all args) && negb (truthy_str (args_query args)) = false
  /\ (1 <=? args_batch_size args) && (args_batch_size args <=? 1000) = true.
Proof.
  unfold args_accepted. intros Hacc.
  apply andb_true_iff in Hacc. destruct Hacc as [Hacc H2].
  apply andb_true_iff in Hacc. destruct Hacc as [Ht H1].
  rewrite H1, H2.
  destruct (args_all args), (truthy_str (args_query args));
    simpl in *; split; congruence.
Qed.

Lemma main_from_banner (fuel : nat) (args : Args) (files : local_files)
    (r : R) :
  args_accepted args = true ->
  main fuel args files (World r [])
  = try_except (get_service files ;; listing_and_after fuel args)
      main_handler (World r (banner args)).
Proof.
  intros Hacc. destruct (args_accepted_checks args Hacc) as [Ht HB].
  unfold main. rewrite Ht, HB. reflexivity.
Qed.

Lemma try_after_return {A} (m : M R unit) (k : M R A)
    (h : exn -> option (M R A)) (w w' : world R) :
  m w = (Ret tt, w') ->
  try_except (m ;; k) h w = try_except k h w'.
Proof. intros H. unfold try_except, bind. now rewrite H. Qed.

Lemma listing_and_after_emits (fuel : nat) (args : Args) :
  emits (fun _ => True) (listing_and_after (R := R) fuel args).
Proof.
  unfold listing_and_after, list_message_ids. apply emits_bind.
  - apply emits_list_message_ids_loop; auto.
    intros i s. eapply emits_weaken; [apply main_loop_body_events|]. auto.
  - intros st. eapply emits_weaken; [apply after_loop_off_lister|]. auto.
Qed.

Lemma listing_starts_with_call (fuel : nat) (args : Args) :
  spec (try_except (listing_and_after (R := R) (Datatypes.S fuel) args)
          main_handler)
    (fun _ evs =>
       exists reply rest,
         evs = EvList USER_ID
                 (if args_all args then None else args_query args)
                 (args_include_spam_trash args) None MAX_RESULTS reply
               :: rest).
Proof.
  apply spec_try_except.
  eapply spec_conseq with
    (Q := fun _ evs =>
            exists reply rest,
              evs = EvList USER_ID
                      (if args_all args then None else args_query args)
                      (args_include_spam_trash args) None MAX_RESULTS reply
                    :: rest).
  2:{ intros o evs (reply & rest & ->).
      destruct o as [[]|e|]; cbn [except_spec]; eauto.
      destruct e; cbn [main_handler]; eauto;
        apply spec_print_then, spec_raise; cbn [app]; eauto. }
  unfold listing_and_after, list_message_ids.
  cbn [list_message_ids_loop].
  apply spec_bind, spec_bind, spec_call_list; cbn [then_spec]; eauto.
  intros resp.
  match goal with
  | |- spec ?m _ =>
      assert (Hm : emits (fun _ => True) m)
  end.
  { apply emits_bind.
    - apply emits_scan_page; auto.
      intros i s. eapply emits_weaken; [apply main_loop_body_events|]. auto.
    - intros [total' s'|s']; [|apply emits_ret].
      destruct (negb _); [apply emits_ret|].
      apply emits_list_message_ids_loop; auto.
      intros i s. eapply emits_weaken; [apply main_loop_body_events|]. auto. }
  eapply spec_conseq; [exact Hm|].
  intros o evs1 _. destruct o as [st|e|]; cbn [then_spec app]; eauto.
  eapply spec_conseq; [apply after_loop_off_lister|].
  intros o evs2 _. eauto.
Qed.

Lemma main_reaches_listing (fuel : nat) (args : Args) (files : local_files)
    (r : R) :
  args_accepted args = true ->
  fst (run (get_service files) r) = Ret tt ->
  exists reply rest,
    snd (run (main (Datatypes.S fuel) args files) r)
    = banner args ++ snd (run (get_service files) r)
      ++ EvList USER_ID (if args_all args then None else args_query args)
           (args_include_spam_trash args) None MAX_RESULTS reply
         :: rest.
Proof.
  unfold run. intros Hacc Hret. cbn [fst snd] in *.
  set (w1 := World (remote (snd (get_service files (World r []))))
               (banner args
                ++ trace (snd (get_service files (World r []))))).
  assert (Hgs : get_service files (World r (banner args)) = (Ret tt, w1)).
  { rewrite get_service_frame, Hret. reflexivity. }
  rewrite main_from_banner by exact Hacc.
  erewrite try_after_return; [|exact Hgs].
  destruct (listing_starts_with_call fuel args w1)
    as (evs & Ht & reply & rest & ->).
  exists reply, rest. rewrite Ht. unfold w1. cbn [trace].
  now rewrite <- app_assoc.
Qed.

End FirstCall.

(** ** How the lister on its own ends *)

Section CollectEnds.

Context {R : Type} {service : GmailService R}.

Variable q : option string.
Variable inc : bool.
Variable max_count : Z.

Lemma loop_collect_ends (fuel : nat) :
  forall tok total acc,
    spec (list_message_ids_loop (collect (R := R)) q inc max_count
            fuel tok total acc)
      (fun o evs =>
         match o with
         | Ret _ => True
         | Raise e =>
             exists pre f,
               replies evs = pre ++ [inl f] /\ e = exn_of_fault f
         | Diverge =>
             Forall (fun reply => exists resp, reply = inr resp)
               (replies evs)
         end).
Proof.
  induction fuel as [|f IH]; intros tok total acc;
    cbn [list_message_ids_loop].
  - apply spec_diverge. constructor.
  - apply spec_bind, spec_call_list; cbn [then_spec].
    { intros flt. now exists [], flt. }
    intros resp. apply spec_bind.
    eapply spec_conseq; [apply scan_collect|].
    intros o evs1 (ids & -> & _ & Ho).
    destruct o as [[t' acc'|acc']| |]; cbn [then_spec]; try contradiction.
    + destruct (negb (truthy_str (resp_nextPageToken resp)));
        [now apply spec_ret|].
      eapply spec_conseq; [apply IH|].
      intros o evs2 H2. cbn [app replies].
      rewrite replies_app, replies_map_EvYield. cbn [app].
      destruct o as [ids'|e|]; [exact I| |].
      * destruct H2 as (pre & flt & -> & ->).
        now exists (inr resp :: pre), flt.
      * constructor; eauto.
    + now apply spec_ret.
Qed.

End CollectEnds.

(** * The claims *)

Section Claims.

Context {R : Type} {service : GmailService R}.

(** C10. In every run of [main], every batch passed to a mutating
    operation is non-empty and no longer than the batch size, which is
    then within 1..1000: [main] checks the size before anything else,
    flushes only through [chunks], and [chunks] yields no empty group. *)
Theorem mutated_batches_nonempty_bounded
    (fuel : nat) (args : Args) (files : local_files) (r : R) :
  Forall (fun ids =>
            ids <> [] /\ len ids <= args_batch_size args
            /\ 1 <= args_batch_size args <= 1000
            /\ args_dry_run args = false)
         (mutations (snd (run (main fuel args files) r))).
Proof.
  eapply mutations_Forall;
    [|exact (spec_run r (main_ok fuel args files))].
  intros e ids He Hm.
  destruct e; simpl in Hm; try discriminate; injection Hm as <-;
    simpl in He; unfold len in *;
    repeat split; try tauto;
    destruct ids0; simpl in *; try tauto; lia.
Qed.

(** C9. With [--all], a [--query] given as well is ignored without any
    message: the run is the run of the same command line without the
    query, every listing call is made with no filter, and the
    argument-combination error is not reported.  And the listing is
    invoked: with a batch size in range, once [get_service] has returned,
    the next thing the run does is a listing call with no filter and no
    page token. *)
Theorem all_overrides_query
    (fuel : nat) (args : Args) (files : local_files) (r : R) :
  args_all args = true ->
  main fuel args files = main fuel (with_query args None) files
  /\ Forall (fun e =>
               match e with
               | EvList _ q _ _ _ _ => q = None
               | EvPrint OutNeedTarget => False
               | _ => True
               end)
            (snd (run (main fuel args files) r))
  /\ (1 <= args_batch_size args <= 1000 -> fuel <> 0%nat ->
      fst (run (get_service files) r) = Ret tt ->
      exists reply rest,
        snd (run (main fuel args files) r)
        = banner args ++ snd (run (get_service files) r)
          ++ EvList USER_ID None (args_include_spam_trash args) None
               MAX_RESULTS reply
             :: rest).
Proof.
  intros Hall. split; [|split].
  - unfold main, main_loop_body, flush, with_query. simpl.
    rewrite Hall. reflexivity.
  - eapply Forall_impl; [|exact (spec_run r (main_ok fuel args files))].
    intros e He. destruct e; auto.
    + simpl in He. rewrite Hall in He. tauto.
    + destruct line; auto. simpl in He. rewrite Hall in He.
      destruct He. discriminate.
  - intros [H1 H2] Hfuel Hret. destruct fuel as [|f]; [contradiction|].
    assert (Hacc : args_accepted args = true).
    { unfold args_accepted. rewrite Hall. cbn [orb andb].
      apply andb_true_iff. split; now apply Z.leb_le. }
    destruct (main_reaches_listing f args files r Hacc Hret)
      as (reply & rest & E).
    rewrite Hall in E. eauto.
Qed.

(** C8. For a non-empty batch, [process_batch] makes exactly one remote
    call: in mode "trash" one [batchModify] that adds the label TRASH to
    the whole batch, in mode "delete" one [batchDelete] of the whole
    batch; for any other mode it raises [ValueError] and calls nothing. *)
Theorem process_batch_single_call
    (ids : list string) (mode : string) (w : world R) :
  ids <> [] ->
  (mode = "trash"%string ->
     trace (snd (process_batch ids mode w))
     = trace w ++ [EvBatchModify USER_ID ids ["TRASH"%string] []]
     /\ remote (snd (process_batch ids mode w))
        = snd (messages_batchModify USER_ID ids ["TRASH"%string] []
                 (remote w)))
  /\ (mode = "delete"%string ->
        trace (snd (process_batch ids mode w))
        = trace w ++ [EvBatchDelete USER_ID ids]
        /\ remote (snd (process_batch ids mode w))
           = snd (messages_batchDelete USER_ID ids (remote w)))
  /\ (mode <> "trash"%string -> mode <> "delete"%string ->
        process_batch ids mode w = (Raise ValueError, w)).
Proof.
  intros _. unfold process_batch, call_mutation. repeat split.
  - subst mode. simpl.
    destruct (messages_batchModify _ _ _ _ _) as [[f|] r']; reflexivity.
  - subst mode. simpl.
    destruct (messages_batchModify _ _ _ _ _) as [[f|] r']; reflexivity.
  - subst mode. simpl.
    destruct (messages_batchDelete _ _ _) as [[f|] r']; reflexivity.
  - subst mode. simpl.
    destruct (messages_batchDelete _ _ _) as [[f|] r']; reflexivity.
  - intros Ht Hd.
    destruct (mode =? "trash")%string eqn:Et;
      [apply String.eqb_eq in Et; contradiction|].
    destruct (mode =? "delete")%string eqn:Ed;
      [apply String.eqb_eq in Ed; contradiction|].
    reflexivity.
Qed.

(** C1. In a dry run [main] makes no mutating call, whatever is listed
    and however the run ends.  In a live run the mutating calls are, one
    call per batch and in order, the batches the Batcher makes of each
    flushed buffer (the identifiers yielded, cut at the flush threshold):
    all of them when the run completes, the first of them when it is
    cut short.  What is yielded are the identifiers of the pages the
    remote answered with, up to the maximum: all of them when the run
    completes, which it does only after at least one listing call. *)
Theorem dry_run_never_mutates_live_once_per_batch
    (fuel : nat) (args : Args) (files : local_files) (r : R) :
  (args_dry_run args = true ->
     mutations (snd (run (main fuel args files) r)) = [])
  /\ (args_dry_run args = false ->
      exists rest,
        flat_map (fun b => batches b (args_batch_size args))
          (batches (yields (snd (run (main fuel args files) r)))
             FLUSH_THRESHOLD)
        = mutations (snd (run (main fuel args files) r)) ++ rest
        /\ (fst (run (main fuel args files) r) = Ret tt -> rest = []))
  /\ (exists rest,
        capped (args_max args)
          (flat_map page_ids
             (replies (snd (run (main fuel args files) r))))
        = yields (snd (run (main fuel args files) r)) ++ rest
        /\ (fst (run (main fuel args files) r) = Ret tt ->
            rest = []
            /\ replies (snd (run (main fuel args files) r)) <> [])).
Proof.
  split; [|split].
  - intros Hdry. eapply dry_run_quiet; [exact Hdry|].
    exact (spec_run r (main_ok fuel args files)).
  - intros Hlive.
    pose proof (spec_run r (@main_live _ _ args Hlive fuel files)) as H.
    destruct (fst (run (main fuel args files) r)) as [[]|e|] eqn:Eo;
      cbn [live_post] in H.
    + destruct H as [H _].
      destruct (flushing_batches H) as (rest & E & Hrest).
      exists rest. auto.
    + destruct (flushing_batches H) as (rest & E & _).
      exists rest. split; [exact E | discriminate].
    + destruct (flushing_batches H) as (rest & E & _).
      exists rest. split; [exact E | discriminate].
  - destruct (spec_run r (main_listed fuel args files))
      as (rest & E & Hret).
    exists rest. split; [exact E|].
    intros Ho. apply Hret. now rewrite Ho.
Qed.

(** C3. In a live run that completes without error, the batches passed
    to the mutating operation, concatenated in order, are exactly the
    identifiers the lister yielded, and the one total reported at the end
    is their number. *)
Theorem live_run_mutates_what_was_listed
    (fuel : nat) (args : Args) (files : local_files) (r : R) :
  args_dry_run args = false ->
  fst (run (main fuel args files) r) = Ret tt ->
  concat (mutations (snd (run (main fuel args files) r)))
  = yields (snd (run (main fuel args files) r))
  /\ reported (snd (run (main fuel args files) r))
     = [len (yields (snd (run (main fuel args files) r)))].
Proof.
  intros Hlive Hret.
  pose proof (spec_run r (@main_live _ _ args Hlive fuel files)) as H.
  rewrite Hret in H. destruct H as [Hf Hr]. split; [|exact Hr].
  eapply flushing_whole_concat; [|exact Hf].
  eapply main_returns_accepted with (w := World r []). exact Hret.
Qed.

(** C4. The lister on its own.  What it returns is what it yielded.  With
    a maximum greater than 0 it yields at most that many identifiers.
    With maximum 0 it yields every identifier of every page it received,
    it returns only on a page without continuation token, and it can run
    out of fuel only by requesting as many pages as it had fuel.  It
    requests a first page, and each further page with the continuation
    token of the page before, which was not empty; and it raises exactly
    when a listing call failed, which is then its last call, with the
    exception of that call. *)
Theorem lister_bounded_by_max_or_by_pages
    (fuel : nat) (q : option string) (inc : bool) (max_count : Z) (r : R) :
  (forall ids,
     fst (run (collect_ids fuel q inc max_count) r) = Ret ids ->
     ids = yields (snd (run (collect_ids fuel q inc max_count) r)))
  /\ (0 < max_count ->
      len (yields (snd (run (collect_ids fuel q inc max_count) r)))
      <= max_count)
  /\ (max_count = 0 ->
      yields (snd (run (collect_ids fuel q inc max_count) r))
      = flat_map page_ids
          (replies (snd (run (collect_ids fuel q inc max_count) r)))
      /\ (forall ids,
            fst (run (collect_ids fuel q inc max_count) r) = Ret ids ->
            exists pre resp,
              replies (snd (run (collect_ids fuel q inc max_count) r))
              = pre ++ [inr resp]
              /\ truthy_str (resp_nextPageToken resp) = false)
      /\ (fst (run (collect_ids fuel q inc max_count) r) = Diverge ->
          length (replies (snd (run (collect_ids fuel q inc max_count) r)))
          = fuel))
  /\ (fuel <> 0%nat ->
      replies (snd (run (collect_ids fuel q inc max_count) r)) <> [])
  /\ chained None
       (list_calls (snd (run (collect_ids fuel q inc max_count) r)))
  /\ (forall pre f,
        replies (snd (run (collect_ids fuel q inc max_count) r))
        = pre ++ [inl f] ->
        fst (run (collect_ids fuel q inc max_count) r)
        = Raise (exn_of_fault f))
  /\ (forall e,
        fst (run (collect_ids fuel q inc max_count) r) = Raise e ->
        exists pre f,
          replies (snd (run (collect_ids fuel q inc max_count) r))
          = pre ++ [inl f]
          /\ e = exn_of_fault f).
Proof.
  pose proof (spec_run r (loop_collect q inc max_count fuel None 0 []))
    as (Hb & Hp & Hd & Hne & Hr).
  pose proof (spec_run r (loop_collect_ends q inc max_count fuel None 0 []))
    as He.
  assert (Hc : chained None
                 (list_calls
                    (snd (run (collect_ids fuel q inc max_count) r)))).
  { assert (Hs : spec (collect_ids (R := R) fuel q inc max_count)
                     (fun _ evs => chained None (list_calls evs))).
    { unfold collect_ids, list_message_ids. apply loop_chained.
      intros i s. apply emits_ret. }
    exact (spec_run r Hs). }
  unfold collect_ids, list_message_ids in *.
  split; [intros ids Ho; now destruct (Hr ids Ho)|].
  split; [intros Hm; specialize (Hb ltac:(lia)); lia|].
  split.
  { intros Hm. split; [auto|]. split; [|auto].
    intros ids Ho. destruct (Hr ids Ho) as (_ & pre & resp & E & Hl).
    exists pre, resp. auto. }
  split; [exact Hne|]. split; [exact Hc|]. split.
  - intros pre f E.
    destruct (fst (run (list_message_ids_loop collect q inc max_count fuel
                          None 0 []) r)) as [ids|e|].
    + destruct (Hr ids eq_refl) as (_ & pre' & resp & E' & _).
      rewrite E in E'. apply app_inj_tail in E'. destruct E'. discriminate.
    + destruct He as (pre' & f' & E' & ->).
      rewrite E in E'. apply app_inj_tail in E'.
      destruct E' as [_ [= ->]]. reflexivity.
    + rewrite E in He. apply Forall_app in He. destruct He as [_ He].
      inversion He as [|x l [resp Hx] _]. discriminate.
  - intros e Ho. rewrite Ho in He. exact He.
Qed.

(** C7, amended.  One pass of the lister's page loop makes one list call.
    If that call fails, or its page carries no continuation token, or
    the maximum (when set) is met at a record inside the page, no other
    list call follows and the loop is left.  The loop can only run out
    of fuel by requesting a page for each unit of it. *)
Theorem page_loop_stops
    (fuel : nat) (q : option string) (inc : bool) (max_count : Z)
    (tok : option string) (total : Z) (acc : list string) (w : world R) :
  exists reply rest,
    trace (snd (list_message_ids_loop collect q inc max_count
                  (S fuel) tok total acc w))
    = trace w ++ EvList USER_ID q inc tok MAX_RESULTS reply :: rest
    /\ (page_ends_listing max_count total reply ->
        replies rest = []
        /\ fst (list_message_ids_loop collect q inc max_count
                  (S fuel) tok total acc w) <> Diverge)
    /\ (fst (list_message_ids_loop collect q inc max_count
               (S fuel) tok total acc w) = Diverge ->
        length (replies rest) = fuel).
Proof.
  destruct (page_loop_spec q inc max_count fuel tok total acc w)
    as (evs & Ht & reply & rest & E & H1 & H2 & H3).
  exists reply, rest. subst evs. auto.
Qed.


(** C6, amended.  The argument errors exit with code 2 after their
    message and nothing else: neither [--all] nor a non-empty [--query],
    or a batch size outside 1..1000.  With accepted arguments, a missing
    credentials.json exits with code 1, after the banner and its message
    and before any remote call, when there is no stored token or the
    stored token is invalid and cannot be refreshed.  With a valid or a
    refreshable stored token credentials.json is not looked at: the run
    is the same whatever it is.  A token.json that cannot be read as a
    token ends the run with [ValueError] right after the banner, and so
    does, when there is no usable token, a credentials.json that cannot
    be read: neither is reported with a message. *)
Theorem local_configuration_errors
    (fuel : nat) (args : Args) (files : local_files) (r : R) :
  (args_all args = false -> truthy_str (args_query args) = false ->
     run (main fuel args files) r
     = (Raise (SystemExit 2), [EvPrint OutNeedTarget]))
  /\ (~ 1 <= args_batch_size args <= 1000 ->
        fst (run (main fuel args files) r) = Raise (SystemExit 2)
        /\ (snd (run (main fuel args files) r) = [EvPrint OutNeedTarget]
            \/ snd (run (main fuel args files) r) = [EvPrint OutBadBatchSize]))
  /\ (args_accepted args = true -> no_usable_token files = true ->
      credentials_json files = Absent ->
        run (main fuel args files) r
        = (Raise (SystemExit 1),
           [EvPrint (OutTarget (args_all args)
                       (if args_all args then None else args_query args));
            EvPrint (OutMode (args_mode args) (args_dry_run args));
            EvPrint (OutBatch (args_batch_size args) (args_max args)
                       (args_include_spam_trash args));
            EvPrint OutMissingCredentials]))
  /\ (token_valid files || token_refreshable files = true ->
      forall c,
        main fuel args (LocalFiles (token_json files) c)
        = main fuel args files)
  /\ (args_accepted args = true ->
      token_json files = Malformed
      \/ (no_usable_token files = true
          /\ credentials_json files = Malformed) ->
        run (main fuel args files) r
        = (Raise ValueError,
           [EvPrint (OutTarget (args_all args)
                       (if args_all args then None else args_query args));
            EvPrint (OutMode (args_mode args) (args_dry_run args));
            EvPrint (OutBatch (args_batch_size args) (args_max args)
                       (args_include_spam_trash args))])).
Proof.
  assert (Hchecks : args_accepted args = true ->
            negb (args_all args) && negb (truthy_str (args_query args))
            = false
            /\ (1 <=? args_batch_size args) && (args_batch_size args <=? 1000)
               = true).
  { unfold args_accepted. intros Hacc.
    apply andb_true_iff in Hacc. destruct Hacc as [Hacc H2].
    apply andb_true_iff in Hacc. destruct Hacc as [Ht H1].
    rewrite H1, H2.
    destruct (args_all args), (truthy_str (args_query args));
      simpl in *; split; congruence. }
  split; [|split; [|split; [|split]]].
  - intros Ha Hq. unfold run, main. rewrite Ha, Hq. reflexivity.
  - intros HB. unfold run, main.
    destruct (negb (args_all args) && negb (truthy_str (args_query args)));
      [simpl; auto|].
    destruct ((1 <=? args_batch_size args) && (args_batch_size args <=? 1000))
      eqn:E; [|simpl; auto].
    apply andb_true_iff in E. destruct E as [H1 H2].
    apply Z.leb_le in H1, H2. lia.
  - intros Hacc Htok Hcred. destruct (Hchecks Hacc) as [Ht HB].
    unfold run, main. rewrite Ht, HB. unfold no_usable_token in Htok.
    unfold get_service. rewrite Hcred.
    destruct (token_json files) as [| |c];
      [reflexivity | discriminate |].
    apply andb_true_iff in Htok. destruct Htok as [Hv Hr].
    apply negb_true_iff in Hv, Hr.
    rewrite bind_ret_l. cbv beta iota. rewrite Hv, Hr. reflexivity.
  - intros Htok c.
    assert (Hgs : get_service (R := R) (LocalFiles (token_json files) c)
                  = get_service files).
    { unfold get_service, token_valid, token_refreshable in *.
      cbn [token_json credentials_json].
      destruct (token_json files) as [| |cr]; try discriminate.
      rewrite !bind_ret_l. cbv beta iota.
      destruct (creds_valid cr); [reflexivity|].
      cbn [orb negb] in *. rewrite Htok.
      reflexivity. }
    unfold main. now rewrite Hgs.
  - intros Hacc [Htok|[Htok Hcred]]; destruct (Hchecks Hacc) as [Ht HB];
      unfold run, main; rewrite Ht, HB; unfold get_service.
    + rewrite Htok. reflexivity.
    + unfold no_usable_token in Htok. rewrite Hcred.
      destruct (token_json files) as [| |c];
        [reflexivity | discriminate |].
      apply andb_true_iff in Htok. destruct Htok as [Hv Hr].
      apply negb_true_iff in Hv, Hr.
      rewrite bind_ret_l. cbv beta iota. rewrite Hv, Hr. reflexivity.
Qed.

End Claims.

(** ** Examples on the scripted remote *)

Lemma mutated_batches_example :
  mutations
    (snd (run (main 5 (Sample.args "trash" false false 2 0) Sample.token_only)
            Sample.two_pages))
  = [["a"; "b"]; ["c"; "d"]]%string.
Proof. reflexivity. Qed.

(** The buffer is flushed when it reaches 5000 identifiers, in batches
    of the batch size, and the remainder after the listing. *)
Lemma flush_at_threshold_example :
  map (fun b => len b)
    (mutations
       (snd (run (main 5 (Sample.args "trash" false false 1000 0)
                    Sample.token_only) Sample.over_threshold)))
  = [1000; 1000; 1000; 1000; 1000; 2]
  /\ reported
       (snd (run (main 5 (Sample.args "trash" false false 1000 0)
                    Sample.token_only) Sample.over_threshold))
     = [5002].
Proof. vm_compute. split; reflexivity. Qed.

(** In a dry run only counts are printed. *)
Lemma dry_run_example :
  snd (run (main 5 (Sample.args "delete" true true 2 0) Sample.token_only)
         Sample.two_pages)
  = [EvPrint (OutTarget true None);
     EvPrint (OutMode "delete" true);
     EvPrint (OutBatch 2 0 false);
     EvBuild;
     EvList USER_ID None false None MAX_RESULTS
       (Scripted.page ["a"; "b"; "c"]%string (Some "t"%string));
     EvYield "a"; EvYield "b"; EvYield "c";
     EvList USER_ID None false (Some "t"%string) MAX_RESULTS
       (Scripted.page ["d"]%string None);
     EvYield "d";
     EvPrint (OutDryRun 4);
     EvPrint (OutDone 4)].
Proof. reflexivity. Qed.

Lemma dry_run_never_mutates_live_once_per_batch_witness :
  mutations
    (snd (run (main 5 (Sample.args "delete" true true 2 0) Sample.token_only)
            Sample.two_pages))
  = []
  /\ mutations
       (snd (run (main 5 (Sample.args "trash" false false 2 0)
                    Sample.token_only) Sample.two_pages))
     = [["a"; "b"]; ["c"; "d"]]%string
  /\ yields
       (snd (run (main 5 (Sample.args "trash" false false 2 0)
                    Sample.token_only) Sample.two_pages))
     = ["a"; "b"; "c"; "d"]%string.
Proof.
  split.
  - apply (dry_run_never_mutates_live_once_per_batch 5
             (Sample.args "delete" true true 2 0) Sample.token_only
             Sample.two_pages).
    reflexivity.
  - destruct (dry_run_never_mutates_live_once_per_batch 5
                (Sample.args "trash" false false 2 0) Sample.token_only
                Sample.two_pages)
      as (_ & Hlive & rest' & Hlisted & Hret).
    destruct (Hlive eq_refl) as (rest & Hm & Hr).
    destruct (Hret eq_refl) as [E' _].
    rewrite (Hr eq_refl), app_nil_r in Hm.
    rewrite E', app_nil_r in Hlisted.
    split; [symmetry; exact Hm | symmetry; exact Hlisted].
Defined.

Lemma live_run_mutates_what_was_listed_witness :
  concat
    (mutations
       (snd (run (main 5 (Sample.args "trash" false false 2 0)
                    Sample.token_only) Sample.two_pages)))
  = ["a"; "b"; "c"; "d"]%string
  /\ reported
       (snd (run (main 5 (Sample.args "trash" false false 2 0)
                    Sample.token_only) Sample.two_pages))
     = [4].
Proof.
  exact (live_run_mutates_what_was_listed 5
           (Sample.args "trash" false false 2 0) Sample.token_only
           Sample.two_pages eq_refl eq_refl).
Defined.

Lemma all_overrides_query_witness :
  exists reply rest,
    snd (run (main 5 (Sample.args "trash" true false 2 0) Sample.token_only)
           (Scripted.State [Scripted.page ["a"]%string None] []))
    = [EvPrint (OutTarget true None);
       EvPrint (OutMode "trash" false);
       EvPrint (OutBatch 2 0 false);
       EvBuild;
       EvList "me" None false None 500 reply]
      ++ rest.
Proof.
  exact (proj2 (proj2 (all_overrides_query 5
                         (Sample.args "trash" true false 2 0)
                         Sample.token_only
                         (Scripted.State [Scripted.page ["a"]%string None] [])
                         eq_refl))
           ltac:(simpl; lia) ltac:(discriminate) eq_refl).
Defined.

Lemma process_batch_single_call_witness :
  trace (snd (process_batch ["a"; "b"]%string "trash" (Scripted.start [])))
  = [EvBatchModify USER_ID ["a"; "b"]%string ["TRASH"%string] []].
Proof.
  apply (@process_batch_single_call _ _ ["a"; "b"]%string "trash"%string
           (Scripted.start []));
    [discriminate | reflexivity].
Defined.

Lemma local_configuration_errors_witness :
  run (main 5 (Sample.args "trash" true false 1000 0) Sample.no_files)
    (Scripted.State [] [])
  = (Raise (SystemExit 1),
     [EvPrint (OutTarget true None);
      EvPrint (OutMode "trash" false);
      EvPrint (OutBatch 1000 0 false);
      EvPrint OutMissingCredentials])
  /\ run (main 5 (Sample.args "trash" true false 1000 0)
            Sample.expired_token)
       (Scripted.State [] [])
     = (Ret tt,
        [EvPrint (OutTarget true None);
         EvPrint (OutMode "trash" false);
         EvPrint (OutBatch 1000 0 false);
         EvRefresh; EvWriteToken; EvBuild;
         EvList "me" None false None 500 (inr (Response None None));
         EvPrint (OutDone 0);
         EvPrint OutTrashHint]).
Proof.
  split.
  - apply (local_configuration_errors 5
             (Sample.args "trash" true false 1000 0) Sample.no_files
             (Scripted.State [] []));
      reflexivity.
  - destruct (local_configuration_errors 5
                (Sample.args "trash" true false 1000 0)
                (LocalFiles (token_json Sample.expired_token) (Stored tt))
                (Scripted.State [] []))
      as (_ & _ & _ & Hsame & _).
    exact (eq_trans
             (f_equal (fun m => run m (Scripted.State [] []))
                (Hsame eq_refl Absent))
             eq_refl).
Defined.

(** C6 as stated fails: with a valid token.json the missing
    credentials.json is never looked for, and the run lists and ends
    with status 0. *)
Lemma missing_credentials_with_valid_token :
  ~ missing_credentials_exit 5 (Sample.args "trash" true false 1000 0)
      Sample.token_only (Scripted.State [] []).
Proof.
  intros H. destruct (H eq_refl) as [Hcode _].
  vm_compute in Hcode. discriminate.
Qed.

Lemma lister_bounded_by_max_or_by_pages_witness :
  len (yields (snd (run (collect_ids 5 None false 2) Sample.two_pages))) <= 2
  /\ yields (snd (run (collect_ids 5 None false 0) Sample.two_pages))
     = ["a"; "b"; "c"; "d"]%string
  /\ fst (run (collect_ids 5 None false 0) Sample.second_page_error)
     = Raise HttpError.
Proof.
  destruct (lister_bounded_by_max_or_by_pages 5 None false 2
              Sample.two_pages) as (_ & Hmax & _).
  destruct (lister_bounded_by_max_or_by_pages 5 None false 0
              Sample.two_pages) as (_ & _ & Hzero & _).
  destruct (lister_bounded_by_max_or_by_pages 5 None false 0
              Sample.second_page_error)
    as (_ & _ & _ & _ & _ & Hfail & _).
  split; [apply Hmax; lia|].
  split; [exact (proj1 (Hzero eq_refl))|].
  exact (Hfail [Scripted.page ["a"; "b"; "c"]%string (Some "t"%string)]
           RemoteHttpError eq_refl).
Defined.

Lemma page_loop_stops_witness :
  exists reply rest,
    trace (snd (list_message_ids_loop collect None false 1 3 None 0 []
                  (World Sample.two_pages [])))
    = [] ++ EvList USER_ID None false None MAX_RESULTS reply :: rest
    /\ (page_ends_listing 1 0 reply ->
        replies rest = []
        /\ fst (list_message_ids_loop collect None false 1 3 None 0 []
                  (World Sample.two_pages [])) <> Diverge)
    /\ (fst (list_message_ids_loop collect None false 1 3 None 0 []
               (World Sample.two_pages [])) = Diverge ->
        length (replies rest) = 2%nat).
Proof.
  exact (page_loop_stops 2 None false 1 None 0 []
           (World Sample.two_pages [])).
Defined.

(** C7 as stated fails: with maximum 1 and a first page of one identifier
    that carries a continuation token, the lister yields the identifier
    and then requests the second page. *)
Lemma lister_requests_page_after_max :
  ~ stops_at_max 1
      (snd (run (collect_ids 5 None false 1) Sample.page_boundary)).
Proof.
  intros H.
  specialize (H (firstn 2 (snd (run (collect_ids 5 None false 1)
                                  Sample.page_boundary)))
                (skipn 2 (snd (run (collect_ids 5 None false 1)
                                 Sample.page_boundary)))
                eq_refl ltac:(lia) ltac:(vm_compute; discriminate)).
  vm_compute in H. discriminate.
Qed.


Lemma chunks_places_elements_witness :
  exists bs,
    chunks [10; 20; 30; 40; 50] 2 = Some bs
    /\ ((3 < length [10; 20; 30; 40; 50])%nat ->
        exists b,
          nth_error bs (3 / Z.to_nat 2) = Some b
          /\ nth_error b (3 mod Z.to_nat 2)
             = nth_error [10; 20; 30; 40; 50] 3)
    /\ ((length [10; 20; 30; 40; 50] <= 3 * Z.to_nat 2)%nat ->
        nth_error bs 3 = None).
Proof. apply (@chunks_places_elements Z [10; 20; 30; 40; 50] 2 3). lia. Defined.

(** Records without identifier do not count towards the maximum. *)
Lemma lister_skips_records_example :
  fst (run (collect_ids 5 None false 4) Sample.ragged_pages)
  = Ret ["a"; "b"; "c"; "d"]%string.
Proof. reflexivity. Qed.

(** A dry run over 5002 identifiers: one line at the threshold, one for
    the rest. *)
Lemma dry_run_lines_example :
  would_process
    (snd (run (main 5 (Sample.args "trash" false true 1000 0)
                 Sample.token_only) Sample.over_threshold))
  = [5000; 2]
  /\ progress
       (snd (run (main 5 (Sample.args "trash" false true 1000 0)
                    Sample.token_only) Sample.over_threshold))
     = [5000].
Proof. vm_compute. split; reflexivity. Qed.


Lemma failed_list_call_ends_run_witness :
  fst (run (main 5 (Sample.args "delete" true false 2 0) Sample.token_only)
         Sample.second_page_error)
  = Raise (failure_exit RemoteHttpError)
  /\ [EvPrint OutApiError] = failure_report RemoteHttpError.
Proof.
  exact (@failed_list_call_ends_run _ _ 5
           (Sample.args "delete" true false 2 0) Sample.token_only
           Sample.second_page_error RemoteHttpError [EvPrint OutApiError]
           eq_refl).
Defined.

Lemma max_caps_listing_and_mutation_witness :
  len (yields
         (snd (run (main 5 (Sample.args "trash" false false 2 2)
                      Sample.token_only) Sample.two_pages)))
  <= 2
  /\ len (concat
            (mutations
               (snd (run (main 5 (Sample.args "trash" false false 2 2)
                            Sample.token_only) Sample.two_pages))))
     <= 2.
Proof.
  apply (max_caps_listing_and_mutation 5
           (Sample.args "trash" false false 2 2) Sample.token_only
           Sample.two_pages).
  reflexivity.
Defined.


Lemma final_report_counts_listed_witness :
  (reported
     (snd (run (main 5 (Sample.args "delete" true true 2 0)
                  Sample.token_only) Sample.two_pages))
   = [4]
   /\ sum (would_process
             (snd (run (main 5 (Sample.args "delete" true true 2 0)
                          Sample.token_only) Sample.two_pages)))
      = 4)
  /\ would_process
       (snd (run (main 5 (Sample.args "trash" false false 2 0)
                    Sample.token_only) Sample.two_pages))
     = [].
Proof.
  split.
  - exact (proj1 (final_report_counts_listed 5
                    (Sample.args "delete" true true 2 0) Sample.token_only
                    Sample.two_pages)).
  - exact (proj2 (final_report_counts_listed 5
                    (Sample.args "trash" false false 2 0) Sample.token_only
                    Sample.two_pages) eq_refl).
Defined.

Lemma main_exit_status_witness :
  exit_code
    (fst (run (purge_gmail 5
                 (Options (Sample.args "purge" true false 2 0))
                 Sample.token_only) Sample.two_pages))
  = Some 2
  /\ exit_code
       (fst (run (purge_gmail 5
                    (Options (Sample.args "trash" false false 2000 0))
                    Sample.token_only) Sample.two_pages))
     = Some 2
  /\ run (purge_gmail 5 AskHelp Sample.token_only) Sample.two_pages
     = (Raise (SystemExit 0), [EvPrint OutHelp]).
Proof.
  split; [|split].
  - apply (main_exit_status 5 (Options (Sample.args "purge" true false 2 0))
             Sample.token_only Sample.two_pages).
    reflexivity.
  - apply (main_exit_status 5
             (Options (Sample.args "trash" false false 2000 0))
             Sample.token_only Sample.two_pages).
    reflexivity.
  - apply (main_exit_status 5 AskHelp Sample.token_only Sample.two_pages).
    reflexivity.
Defined.

Lemma get_service_steps_witness :
  run (get_service (LocalFiles Malformed Absent)) (Scripted.State [] [])
  = (Raise ValueError, [])
  /\ snd (run (get_service Sample.token_only) (Scripted.State [] []))
     = [EvBuild]
  /\ In EvRefresh
       (snd (run (get_service Sample.expired_token) (Scripted.State [] []))).
Proof.
  split; [|split].
  - apply (get_service_steps (LocalFiles Malformed Absent)
             (Scripted.State [] [])).
    reflexivity.
  - apply (get_service_steps Sample.token_only (Scripted.State [] [])).
    reflexivity.
  - apply (get_service_steps Sample.expired_token (Scripted.State [] [])).
    split; reflexivity.
Defined.
